(** * A limit-order matching engine: order book, matcher and request handlers

    Shallow embedding of [src/engine/order.go], [src/engine/orderbook.go],
    [src/engine/matcher.go], of the submit / cancel / status / order-book
    handlers and the latency window of [src/handlers/order_handler.go] and
    of the rate limiter of [src/middleware/ratelimit.go], followed by the
    properties of the specification that can be stated on it and by further
    properties of the code.

    Conventions of the embedding.
    - [int64] values are integers of [Z]; every addition and subtraction of
      the source is written with its two's-complement wrap-around
      ([add64], [sub64]).
    - Go pointers to orders are locations of a heap ([gmap nat Order.t]);
      the price-level queues and the id-map hold locations, so an update
      through one alias is seen through every other.
    - A [google/btree] tree is the list of its items in ascending [Less]
      order.  Two items are the same key when neither is [Less] than the
      other, which for both item types of the source is equality of
      prices.
    - The [sync] locks and the [atomic] loads and stores have no effect on
      a sequential run and are left out.
    - [uuid.New()] and [time.Now()] are inputs of the caller: the order id
      and the timestamp are arguments, and the [TradeID] and [Timestamp] of
      a trade record, which no statement of the program reads, are not
      recorded.
    - The allocations that hold the data of the program are taken to
      succeed.  A [make] whose capacity a request or the environment
      chooses is not: see [makeSnapshots]. *)

From Stdlib Require Import ZArith Lia Sorted.
From stdpp Require Import base option list gmap strings sorting pretty.

Local Open Scope Z_scope.

(** ** 64-bit integers *)

Definition wrap64 (z : Z) : Z := (z + 2 ^ 63) mod 2 ^ 64 - 2 ^ 63.
Definition add64 (a b : Z) : Z := wrap64 (a + b).
Definition sub64 (a b : Z) : Z := wrap64 (a - b).
Definition int64 (z : Z) : Prop := - 2 ^ 63 <= z < 2 ^ 63.

(** ** order.go *)

Inductive OrderSide := SideBuy | SideSell.
Inductive OrderType := TypeLimit | TypeMarket.
Inductive OrderStatus :=
  StatusAccepted | StatusPartialFill | StatusFilled | StatusCancelled.

#[global] Instance OrderSide_eq_dec : EqDecision OrderSide.
Proof. solve_decision. Defined.
#[global] Instance OrderType_eq_dec : EqDecision OrderType.
Proof. solve_decision. Defined.
#[global] Instance OrderStatus_eq_dec : EqDecision OrderStatus.
Proof. solve_decision. Defined.

Module Order.
Record t := mk {
  ID : string;
  Symbol : string;
  Side : OrderSide;
  Type_ : OrderType;
  Price : Z;
  Quantity : Z;
  FilledQuantity : Z;
  Status : OrderStatus;
  Timestamp : Z
}.
Definition with_FilledQuantity (f : Z) (o : t) : t :=
  mk (ID o) (Symbol o) (Side o) (Type_ o) (Price o) (Quantity o) f
     (Status o) (Timestamp o).
Definition with_Status (s : OrderStatus) (o : t) : t :=
  mk (ID o) (Symbol o) (Side o) (Type_ o) (Price o) (Quantity o)
     (FilledQuantity o) s (Timestamp o).
End Order.

Module Trade.
Record t := mk {
  Price : Z;
  Quantity : Z;
  BuyOrderID : string;
  SellOrderID : string
}.
End Trade.

(** A pointer to an order. *)
Abbreviation loc := nat.
Abbreviation heap := (gmap nat Order.t).

Module PriceLevel.
Record t := mk {
  Price : Z;
  Orders : list loc   (* fifo ordering for time priority *)
}.
End PriceLevel.

#[global] Instance Order_inhabited : Inhabited Order.t :=
  populate (Order.mk EmptyString EmptyString SideBuy TypeLimit 0 0 0
              StatusAccepted 0).

Definition NewOrder (id symbol : string) (side : OrderSide)
    (orderType : OrderType) (price quantity : Z) (now : Z) : Order.t :=
  Order.mk id symbol side orderType price quantity 0 StatusAccepted now.

Definition GetFilledQuantity (o : Order.t) : Z := Order.FilledQuantity o.

Definition RemainingQuantity (o : Order.t) : Z :=
  let filled := Order.FilledQuantity o in
  sub64 (Order.Quantity o) filled.

Definition IsFilled (o : Order.t) : bool :=
  let filled := Order.FilledQuantity o in
  Order.Quantity o <=? filled.

Definition Fill (quantity : Z) (o : Order.t) : Order.t :=
  let newFilled := add64 (Order.FilledQuantity o) quantity in
  let o := Order.with_FilledQuantity newFilled o in
  if Order.Quantity o <=? newFilled
  then Order.with_Status StatusFilled o
  else Order.with_Status StatusPartialFill o.

Definition GetStatus (o : Order.t) : OrderStatus := Order.Status o.
Definition SetStatus (status : OrderStatus) (o : Order.t) : Order.t :=
  Order.with_Status status o.

(** ** The B-tree of price levels

    [PriceLevelItem.Less] (bids) and [PriceLevelItemAscending.Less] (asks)
    of orderbook.go. *)

Definition PriceLevelItem_Less (p other : PriceLevel.t) : bool :=
  PriceLevel.Price p >? PriceLevel.Price other.
Definition PriceLevelItemAscending_Less (p other : PriceLevel.t) : bool :=
  PriceLevel.Price p <? PriceLevel.Price other.

Abbreviation btree := (list PriceLevel.t).

(** [tree.Get(item)]: the item of the tree with the key of [item]. *)
Fixpoint tree_Get (price : Z) (tree : btree) : option PriceLevel.t :=
  match tree with
  | [] => None
  | lvl :: tree' =>
      if PriceLevel.Price lvl =? price then Some lvl else tree_Get price tree'
  end.

(** [tree.ReplaceOrInsert(item)]. *)
Fixpoint tree_ReplaceOrInsert (less : PriceLevel.t → PriceLevel.t → bool)
    (item : PriceLevel.t) (tree : btree) : btree :=
  match tree with
  | [] => [item]
  | lvl :: tree' =>
      if less item lvl then item :: lvl :: tree'
      else if less lvl item then lvl :: tree_ReplaceOrInsert less item tree'
      else item :: tree'
  end.

(** [tree.Delete(item)]. *)
Fixpoint tree_Delete (price : Z) (tree : btree) : btree :=
  match tree with
  | [] => []
  | lvl :: tree' =>
      if PriceLevel.Price lvl =? price then tree'
      else lvl :: tree_Delete price tree'
  end.

(** [tree.Min()] and [tree.Len()]. *)
Definition tree_Min (tree : btree) : option PriceLevel.t := head tree.
Definition tree_Len (tree : btree) : Z := Z.of_nat (length tree).

(** An assignment [priceLevel.Orders = q] through the pointer held by the
    item of key [price]. *)
Fixpoint tree_setOrders (price : Z) (q : list loc) (tree : btree) : btree :=
  match tree with
  | [] => []
  | lvl :: tree' =>
      if PriceLevel.Price lvl =? price
      then PriceLevel.mk (PriceLevel.Price lvl) q :: tree'
      else lvl :: tree_setOrders price q tree'
  end.

(** ** orderbook.go *)

Module OrderBook.
Record t := mk {
  Symbol : string;
  Bids : btree;                 (* sorted descending (highest first) *)
  Asks : btree;                 (* sorted ascending (lowest first) *)
  Orders : gmap string loc
}.
Definition with_Bids (b : btree) (ob : t) : t :=
  mk (Symbol ob) b (Asks ob) (Orders ob).
Definition with_Asks (a : btree) (ob : t) : t :=
  mk (Symbol ob) (Bids ob) a (Orders ob).
Definition with_Orders (m : gmap string loc) (ob : t) : t :=
  mk (Symbol ob) (Bids ob) (Asks ob) m.
End OrderBook.

Definition NewOrderBook (symbol : string) : OrderBook.t :=
  OrderBook.mk symbol [] [] ∅.

(** [tree = ob.Bids] when [order.Side == SideBuy], [ob.Asks] otherwise,
    with the [Less] of the item type stored in that tree. *)
Definition treeOf (side : OrderSide) (ob : OrderBook.t) : btree :=
  match side with
  | SideBuy => OrderBook.Bids ob
  | SideSell => OrderBook.Asks ob
  end.
Definition withTree (side : OrderSide) (tree : btree) (ob : OrderBook.t)
    : OrderBook.t :=
  match side with
  | SideBuy => OrderBook.with_Bids tree ob
  | SideSell => OrderBook.with_Asks tree ob
  end.
Definition lessOf (side : OrderSide) : PriceLevel.t → PriceLevel.t → bool :=
  match side with
  | SideBuy => PriceLevelItem_Less
  | SideSell => PriceLevelItemAscending_Less
  end.

(** The [Orders] slice seen through a [*PriceLevel] of key [price] taken from
    the tree of [side].  The source detaches a level from its tree only when
    its slice is empty, and afterwards only shortens that slice: a detached
    level reads as the empty slice, and writing to it changes nothing that
    the book can reach. *)
Definition levelOrders (side : OrderSide) (price : Z) (ob : OrderBook.t)
    : list loc :=
  match tree_Get price (treeOf side ob) with
  | Some lvl => PriceLevel.Orders lvl
  | None => []
  end.
Definition setLevelOrders (side : OrderSide) (price : Z) (q : list loc)
    (ob : OrderBook.t) : OrderBook.t :=
  withTree side (tree_setOrders price q (treeOf side ob)) ob.

Definition AddOrder (l : loc) (h : heap) (ob : OrderBook.t) : OrderBook.t :=
  let order := h !!! l in
  let ob := OrderBook.with_Orders
              (<[Order.ID order := l]> (OrderBook.Orders ob)) ob in
  let side := Order.Side order in
  let price := Order.Price order in
  let ob :=
    match tree_Get price (treeOf side ob) with
    | Some _ => ob
    | None =>
        withTree side
          (tree_ReplaceOrInsert (lessOf side) (PriceLevel.mk price [])
             (treeOf side ob)) ob
    end in
  setLevelOrders side price (levelOrders side price ob ++ [l]) ob.

(** The loop of [RemoveOrder] over [priceLevel.Orders]: the first order whose
    [ID] is [orderID] is cut out of the slice. *)
Fixpoint removeByID (h : heap) (orderID : string) (q : list loc) : list loc :=
  match q with
  | [] => []
  | o :: q' =>
      if String.eqb (Order.ID (h !!! o)) orderID then q'
      else o :: removeByID h orderID q'
  end.

Definition RemoveOrder (orderID : string) (h : heap) (ob : OrderBook.t)
    : bool * OrderBook.t :=
  match OrderBook.Orders ob !! orderID with
  | None => (false, ob)
  | Some l =>
      let order := h !!! l in
      let side := Order.Side order in
      let price := Order.Price order in
      match tree_Get price (treeOf side ob) with
      | None =>
          (false, OrderBook.with_Orders (delete orderID (OrderBook.Orders ob)) ob)
      | Some priceLevel =>
          let ob := setLevelOrders side price
                      (removeByID h orderID (PriceLevel.Orders priceLevel)) ob in
          (* edge case: remove empty price level *)
          let ob :=
            if (length (levelOrders side price ob) =? 0)%nat
            then withTree side (tree_Delete price (treeOf side ob)) ob
            else ob in
          (true, OrderBook.with_Orders (delete orderID (OrderBook.Orders ob)) ob)
      end
  end.

(** [totalQuantity += order.RemainingQuantity()] over a slice. *)
Definition totalQuantity (h : heap) (q : list loc) : Z :=
  foldl (λ total o, add64 total (RemainingQuantity (h !!! o))) 0 q.

Definition bestOf (h : heap) (tree : btree) : Z * Z * bool :=
  if tree_Len tree =? 0 then (0, 0, false)
  else
    match tree_Min tree with
    | None => (0, 0, false)
    | Some priceLevel =>
        if (length (PriceLevel.Orders priceLevel) =? 0)%nat then (0, 0, false)
        else (PriceLevel.Price priceLevel,
              totalQuantity h (PriceLevel.Orders priceLevel), true)
    end.

Definition GetBestBid (h : heap) (ob : OrderBook.t) : Z * Z * bool :=
  bestOf h (OrderBook.Bids ob).
Definition GetBestAsk (h : heap) (ob : OrderBook.t) : Z * Z * bool :=
  bestOf h (OrderBook.Asks ob).

Definition GetOrder (orderID : string) (ob : OrderBook.t) : option loc :=
  OrderBook.Orders ob !! orderID.

Definition GetPriceLevelForBid (price : Z) (ob : OrderBook.t)
    : option PriceLevel.t := tree_Get price (OrderBook.Bids ob).
Definition GetPriceLevelForAsk (price : Z) (ob : OrderBook.t)
    : option PriceLevel.t := tree_Get price (OrderBook.Asks ob).

(** ** matcher.go *)

Module MatchResult.
Record t := mk {
  Status : OrderStatus;
  FilledQuantity : Z;
  RemainingQuantity : Z;
  Trades : list Trade.t
}.
End MatchResult.

(** [MatchOrder] returns a result or an [InsufficientLiquidityError]. *)
Inductive outcome :=
  | Matched (result : MatchResult.t)
  | InsufficientLiquidityError (Requested Available : Z).

(** *** Loops

    A [for] loop is the iteration of its body, which ends in [continue] or in
    [break].  The iteration is bounded by a number of rounds computed from
    the book when the loop is entered; [None] is a run that would need more
    rounds than that. *)

Inductive ctl (S : Type) :=
  | Continue (s : S)
  | Break (s : S).
Arguments Continue {S} s.
Arguments Break {S} s.

Fixpoint loop {S : Type} (fuel : nat) (body : S → option (ctl S)) (s : S)
    : option S :=
  match fuel with
  | O => None
  | S fuel' =>
      match body s with
      | None => None
      | Some (Break s') => Some s'
      | Some (Continue s') => loop fuel' body s'
      end
  end.

(** The variables of a matching walk: the heap and the book it mutates,
    [result.Trades], [result.FilledQuantity] and [remainingQty]. *)
Record walk := Walk {
  w_heap : heap;
  w_book : OrderBook.t;
  w_trades : list Trade.t;
  w_filled : Z;
  w_remainingQty : Z
}.

Definition with_book (ob : OrderBook.t) (s : walk) : walk :=
  Walk (w_heap s) ob (w_trades s) (w_filled s) (w_remainingQty s).

(** [bestPriceLevel.Orders[1:]] when the slice has more than one element,
    [bestPriceLevel.Orders[:0]] otherwise. *)
Definition dropHead (q : list loc) : list loc :=
  if (1 <? length q)%nat then drop 1 q else take 0 q.

(** The trade record of an execution between the incoming [order] and
    [restingOrder]. *)
Definition newTrade (order restingOrder : Order.t)
    (executionPrice executionQty : Z) : Trade.t :=
  match Order.Side order with
  | SideBuy =>
      Trade.mk executionPrice executionQty (Order.ID order)
        (Order.ID restingOrder)
  | SideSell =>
      Trade.mk executionPrice executionQty (Order.ID restingOrder)
        (Order.ID order)
  end.

(** [orderBook.Asks.Delete] for a buy, [orderBook.Bids.Delete] for a sell. *)
Definition deleteOpposite (order : Order.t) (bestPrice : Z)
    (ob : OrderBook.t) : OrderBook.t :=
  match Order.Side order with
  | SideBuy => OrderBook.with_Asks (tree_Delete bestPrice (OrderBook.Asks ob)) ob
  | SideSell => OrderBook.with_Bids (tree_Delete bestPrice (OrderBook.Bids ob)) ob
  end.

(** Rounds granted to the loop over one price level and to the loop over the
    levels of a tree. *)
Definition levelFuel (q : list loc) : nat := 2 * length q + 3.
Definition treeFuel (tree : btree) : nat :=
  length (concat (PriceLevel.Orders <$> tree)) + 2.

(** Body of [for remainingQty > 0 && !order.IsFilled()] in [matchLimitOrder];
    [bestSide] and [bestPrice] name [bestPriceLevel]. *)
Definition limitLevelBody (order : loc) (bestSide : OrderSide)
    (bestPrice : Z) (s : walk) : option (ctl walk) :=
  let h := w_heap s in
  let ob := w_book s in
  if negb ((0 <? w_remainingQty s) && negb (IsFilled (h !!! order)))
  then Some (Break s)
  else
    match levelOrders bestSide bestPrice ob with
    | [] => Some (Break s)
    | restingOrder :: _ =>
        let restingRemaining := RemainingQuantity (h !!! restingOrder) in
        if restingRemaining <=? 0 then
          (* edge case: order already filled, remove it *)
          Some (Continue
                  (with_book
                     (setLevelOrders bestSide bestPrice
                        (dropHead (levelOrders bestSide bestPrice ob)) ob) s))
        else
          let executionPrice := bestPrice in
          let executionQty :=
            if w_remainingQty s >? restingRemaining then restingRemaining
            else w_remainingQty s in
          if executionQty <=? 0 then Some (Break s)
          else
            let trade :=
              newTrade (h !!! order) (h !!! restingOrder)
                executionPrice executionQty in
            let h := <[order := Fill executionQty (h !!! order)]> h in
            let h :=
              <[restingOrder := Fill executionQty (h !!! restingOrder)]> h in
            let filled := add64 (w_filled s) executionQty in
            let remainingQty :=
              sub64 (Order.Quantity (h !!! order))
                    (Order.FilledQuantity (h !!! order)) in
            let s := Walk h ob (w_trades s ++ [trade]) filled remainingQty in
            if (remainingQty <=? 0) || IsFilled (h !!! order)
            then Some (Break s)
            else
              let ob :=
                if IsFilled (h !!! restingOrder)
                then (RemoveOrder (Order.ID (h !!! restingOrder)) h ob).2
                else ob in
              (* edge case: remove empty price level *)
              if (length (levelOrders bestSide bestPrice ob) =? 0)%nat
              then Some (Break
                           (with_book
                              (deleteOpposite (h !!! order) bestPrice ob) s))
              else Some (Continue (with_book ob s))
    end.

(** Body of [for remainingQty > 0] in [matchLimitOrder]. *)
Definition limitBody (order : loc) (s : walk) : option (ctl walk) :=
  let h := w_heap s in
  let ob := w_book s in
  if negb (0 <? w_remainingQty s) then Some (Break s)
  else
    match Order.Side (h !!! order) with
    | SideBuy =>
        let '(askPrice, _, hasAsk) := GetBestAsk h ob in
        if negb hasAsk then Some (Break s)
        else if Order.Price (h !!! order) <? askPrice then Some (Break s)
        else
          match GetPriceLevelForAsk askPrice ob with
          | None => Some (Break s)
          | Some bestPriceLevel =>
              s' ← loop (levelFuel (PriceLevel.Orders bestPriceLevel))
                     (limitLevelBody order SideSell askPrice) s;
              if w_remainingQty s' <=? 0 then Some (Break s')
              else Some (Continue s')
          end
    | SideSell =>
        let '(bidPrice, _, hasBid) := GetBestBid h ob in
        if negb hasBid then Some (Break s)
        else if Order.Price (h !!! order) >? bidPrice then Some (Break s)
        else
          match GetPriceLevelForBid bidPrice ob with
          | None => Some (Break s)
          | Some bestPriceLevel =>
              s' ← loop (levelFuel (PriceLevel.Orders bestPriceLevel))
                     (limitLevelBody order SideBuy bidPrice) s;
              if w_remainingQty s' <=? 0 then Some (Break s')
              else Some (Continue s')
          end
    end.

(** The tree walked by an incoming order of the given side. *)
Definition oppositeTree (side : OrderSide) (ob : OrderBook.t) : btree :=
  match side with
  | SideBuy => OrderBook.Asks ob
  | SideSell => OrderBook.Bids ob
  end.

Definition matchLimitOrder (order : loc) (h : heap) (ob : OrderBook.t)
    : option (outcome * heap * OrderBook.t) :=
  let remainingQty := Order.Quantity (h !!! order) in
  s ← loop (treeFuel (oppositeTree (Order.Side (h !!! order)) ob))
        (limitBody order) (Walk h ob [] 0 remainingQty);
  let h := w_heap s in
  let ob := w_book s in
  let remainingQty := w_remainingQty s in
  if w_filled s =? 0 then
    Some (Matched (MatchResult.mk StatusAccepted (w_filled s) remainingQty
                     (w_trades s)),
          h, AddOrder order h ob)
  else if 0 <? remainingQty then
    Some (Matched (MatchResult.mk StatusPartialFill (w_filled s) remainingQty
                     (w_trades s)),
          h, AddOrder order h ob)
  else
    Some (Matched (MatchResult.mk StatusFilled (w_filled s) remainingQty
                     (w_trades s)),
          h, ob).

(** Body of the inner [for remainingQty > 0] of [matchMarketOrder]. *)
Definition marketLevelBody (order : loc) (bestSide : OrderSide)
    (bestPrice : Z) (s : walk) : option (ctl walk) :=
  let h := w_heap s in
  let ob := w_book s in
  if negb (0 <? w_remainingQty s) then Some (Break s)
  else
    match levelOrders bestSide bestPrice ob with
    | [] => Some (Break s)
    | restingOrder :: _ =>
        let restingRemaining := RemainingQuantity (h !!! restingOrder) in
        if restingRemaining <=? 0 then
          Some (Continue
                  (with_book
                     (setLevelOrders bestSide bestPrice
                        (dropHead (levelOrders bestSide bestPrice ob)) ob) s))
        else
          let executionPrice := bestPrice in
          let executionQty :=
            if w_remainingQty s >? restingRemaining then restingRemaining
            else w_remainingQty s in
          let trade :=
            newTrade (h !!! order) (h !!! restingOrder)
              executionPrice executionQty in
          let h := <[order := Fill executionQty (h !!! order)]> h in
          let h :=
            <[restingOrder := Fill executionQty (h !!! restingOrder)]> h in
          let filled := add64 (w_filled s) executionQty in
          let remainingQty := sub64 (w_remainingQty s) executionQty in
          let s := Walk h ob (w_trades s ++ [trade]) filled remainingQty in
          let ob :=
            if IsFilled (h !!! restingOrder) then
              let ob := (RemoveOrder (Order.ID (h !!! restingOrder)) h ob).2 in
              setLevelOrders bestSide bestPrice
                (dropHead (levelOrders bestSide bestPrice ob)) ob
            else ob in
          if remainingQty <=? 0 then Some (Break (with_book ob s))
          else
            (* edge case: remove empty price level *)
            if (length (levelOrders bestSide bestPrice ob) =? 0)%nat
            then Some (Break
                         (with_book
                            (deleteOpposite (h !!! order) bestPrice ob) s))
            else Some (Continue (with_book ob s))
    end.

(** Body of the outer [for remainingQty > 0] of [matchMarketOrder]. *)
Definition marketBody (order : loc) (s : walk) : option (ctl walk) :=
  let h := w_heap s in
  let ob := w_book s in
  if negb (0 <? w_remainingQty s) then Some (Break s)
  else
    match Order.Side (h !!! order) with
    | SideBuy =>
        let '(askPrice, _, hasAsk) := GetBestAsk h ob in
        if negb hasAsk then Some (Break s)
        else
          match GetPriceLevelForAsk askPrice ob with
          | None => Some (Break s)
          | Some bestPriceLevel =>
              s' ← loop (levelFuel (PriceLevel.Orders bestPriceLevel))
                     (marketLevelBody order SideSell askPrice) s;
              Some (Continue s')
          end
    | SideSell =>
        let '(bidPrice, _, hasBid) := GetBestBid h ob in
        if negb hasBid then Some (Break s)
        else
          match GetPriceLevelForBid bidPrice ob with
          | None => Some (Break s)
          | Some bestPriceLevel =>
              s' ← loop (levelFuel (PriceLevel.Orders bestPriceLevel))
                     (marketLevelBody order SideBuy bidPrice) s;
              Some (Continue s')
          end
    end.

(** [tree.Ascend] with the callback that adds up [o.RemainingQuantity()]
    over the orders of every level. *)
Definition totalAvailableOf (h : heap) (tree : btree) : Z :=
  foldl
    (λ totalAvailable priceLevel,
       foldl (λ total o, add64 total (RemainingQuantity (h !!! o)))
         totalAvailable (PriceLevel.Orders priceLevel))
    0 tree.

(* edge case: market orders must execute completely or be rejected *)
Definition matchMarketOrder (order : loc) (h : heap) (ob : OrderBook.t)
    : option (outcome * heap * OrderBook.t) :=
  let remainingQty := Order.Quantity (h !!! order) in
  let totalAvailable :=
    match Order.Side (h !!! order) with
    | SideBuy => totalAvailableOf h (OrderBook.Asks ob)
    | SideSell => totalAvailableOf h (OrderBook.Bids ob)
    end in
  (* edge case: reject if insufficient liquidity *)
  if totalAvailable <? remainingQty then
    Some (InsufficientLiquidityError remainingQty totalAvailable, h, ob)
  else
    s ← loop (treeFuel (oppositeTree (Order.Side (h !!! order)) ob))
          (marketBody order) (Walk h ob [] 0 remainingQty);
    Some (Matched (MatchResult.mk StatusFilled (w_filled s)
                     (w_remainingQty s) (w_trades s)),
          w_heap s, w_book s).

(** The matcher: the orders of the process and the book of every symbol. *)
Module Matcher.
Record t := mk {
  Heap : heap;
  OrderBooks : gmap string OrderBook.t
}.
End Matcher.

Definition NewMatcher : Matcher.t := Matcher.mk ∅ ∅.

Definition GetOrCreateOrderBook (symbol : string) (m : Matcher.t)
    : OrderBook.t * Matcher.t :=
  match Matcher.OrderBooks m !! symbol with
  | Some ob => (ob, m)
  | None =>
      let ob := NewOrderBook symbol in
      (ob, Matcher.mk (Matcher.Heap m) (<[symbol := ob]> (Matcher.OrderBooks m)))
  end.

(** [MatchOrder]; the book is reached through a pointer, so what the match
    does to it is what the map holds under the symbol afterwards. *)
Definition MatchOrder (order : loc) (m : Matcher.t)
    : option (outcome * Matcher.t) :=
  let symbol := Order.Symbol (Matcher.Heap m !!! order) in
  let '(orderBook, m) := GetOrCreateOrderBook symbol m in
  '(res, h, ob) ←
    (if decide (Order.Type_ (Matcher.Heap m !!! order) = TypeMarket)
     then matchMarketOrder order (Matcher.Heap m) orderBook
     else matchLimitOrder order (Matcher.Heap m) orderBook);
  Some (res, Matcher.mk h (<[symbol := ob]> (Matcher.OrderBooks m))).

(** ** orderbook.go: snapshots *)

Module OrderBookSnapshot.
Record t := mk {
  Price : Z;
  Quantity : Z
}.
End OrderBookSnapshot.

(** [tree.Ascend] with the callback of [GetOrderBookSnapshot]: [count] levels
    have been appended to [acc] so far. *)
Fixpoint ascendSnapshot (h : heap) (depth count : Z)
    (acc : list OrderBookSnapshot.t) (tree : btree)
    : list OrderBookSnapshot.t :=
  match tree with
  | [] => acc
  | priceLevel :: tree' =>
      if count >=? depth then acc
      else
        let totalQuantity := totalQuantity h (PriceLevel.Orders priceLevel) in
        ascendSnapshot h depth (count + 1)
          (acc ++ [OrderBookSnapshot.mk (PriceLevel.Price priceLevel)
                     totalQuantity])
          tree'
  end.

(** [make([]OrderBookSnapshot, 0, cap)].  The runtime panics on a negative
    capacity and on one that takes more than its [maxAlloc], 2^48 bytes of
    which an entry takes 16; below that the slice needs its memory at once,
    and [maxCap] is the largest capacity for which the runtime gets it.
    [None] is a call that does not return. *)
Definition makeSnapshots (maxCap cap : Z)
    : option (list OrderBookSnapshot.t) :=
  if (cap <? 0) || (2 ^ 44 <? cap) || (maxCap <? cap) then None
  else Some [].

Definition GetOrderBookSnapshot (maxCap depth : Z) (h : heap)
    (ob : OrderBook.t)
    : option (list OrderBookSnapshot.t * list OrderBookSnapshot.t) :=
  bids ← makeSnapshots maxCap depth;
  asks ← makeSnapshots maxCap depth;
  let bids := ascendSnapshot h depth 0 bids (OrderBook.Bids ob) in
  let asks := ascendSnapshot h depth 0 asks (OrderBook.Asks ob) in
  Some (bids, asks).

(** ** order_handler.go

    The counters and latencies kept for the metrics endpoint are left out. *)

Module SubmitOrderRequest.
Record t := mk {
  Symbol : string;
  Side : string;
  Type_ : string;
  Price : Z;       (* price in cents, required for LIMIT, 0 for MARKET *)
  Quantity : Z
}.
End SubmitOrderRequest.

Module SubmitOrderResponse.
Record t := mk {
  OrderID : string;
  Status : OrderStatus;
  FilledQuantity : Z;
  RemainingQuantity : Z;
  Trades : list (Z * Z)      (* price and quantity of every trade *)
}.
End SubmitOrderResponse.

(** [nil], or the message of the [ValidationError]. *)
Definition validateSubmitOrderRequest (req : SubmitOrderRequest.t)
    : option string :=
  if String.eqb (SubmitOrderRequest.Symbol req) EmptyString then
    Some "Invalid order: symbol is required"%string
  else if negb (String.eqb (SubmitOrderRequest.Side req) "BUY")
          && negb (String.eqb (SubmitOrderRequest.Side req) "SELL") then
    Some "Invalid order: side must be BUY or SELL"%string
  else if negb (String.eqb (SubmitOrderRequest.Type_ req) "LIMIT")
          && negb (String.eqb (SubmitOrderRequest.Type_ req) "MARKET") then
    Some "Invalid order: type must be LIMIT or MARKET"%string
  else if SubmitOrderRequest.Quantity req <=? 0 then
    Some "Invalid order: quantity must be positive"%string
  else if String.eqb (SubmitOrderRequest.Type_ req) "LIMIT"
          && (SubmitOrderRequest.Price req <=? 0) then
    (* edge case: price required for limit orders *)
    Some "Invalid order: price must be positive for LIMIT orders"%string
  else None.

(** The replies of [SubmitOrder], by HTTP status. *)
Inductive SubmitReply :=
  | SubmitBadRequest (error : string)                           (* 400 *)
  | SubmitInsufficientLiquidity (available requested : Z)       (* 400 *)
  | SubmitCreated (response : SubmitOrderResponse.t)            (* 201 *)
  | SubmitAccepted (response : SubmitOrderResponse.t)           (* 202 *)
  | SubmitOK (response : SubmitOrderResponse.t).                (* 200 *)

(** The engine order built from a valid request; [NewOrder] allocates it. *)
Definition orderOfRequest (orderID : string) (now : Z)
    (req : SubmitOrderRequest.t) : Order.t :=
  let side :=
    if String.eqb (SubmitOrderRequest.Side req) "BUY" then SideBuy
    else SideSell in
  let orderType :=
    if String.eqb (SubmitOrderRequest.Type_ req) "LIMIT" then TypeLimit
    else TypeMarket in
  NewOrder orderID (SubmitOrderRequest.Symbol req) side orderType
    (SubmitOrderRequest.Price req) (SubmitOrderRequest.Quantity req) now.

Definition allocOrder (o : Order.t) (m : Matcher.t) : loc * Matcher.t :=
  let l := fresh (dom (Matcher.Heap m)) in
  (l, Matcher.mk (<[l := o]> (Matcher.Heap m)) (Matcher.OrderBooks m)).

Definition submitReply (orderID : string) (result : MatchResult.t)
    : SubmitReply :=
  let trades :=
    (λ trade, (Trade.Price trade, Trade.Quantity trade))
      <$> MatchResult.Trades result in
  let response :=
    SubmitOrderResponse.mk orderID (MatchResult.Status result)
      (MatchResult.FilledQuantity result)
      (MatchResult.RemainingQuantity result) trades in
  if decide (MatchResult.Status result = StatusAccepted)
  then SubmitCreated response
  else if decide (MatchResult.Status result = StatusPartialFill)
  then SubmitAccepted response
  else SubmitOK response.

(** [SubmitOrder] past the validation of the request: the order is built,
    matched, and the result turned into the reply. *)
Definition submitValidated (orderID : string) (now : Z)
    (req : SubmitOrderRequest.t) (m : Matcher.t)
    : option (SubmitReply * Matcher.t) :=
  let '(order, m) := allocOrder (orderOfRequest orderID now req) m in
  '(res, m) ← MatchOrder order m;
  match res with
  | InsufficientLiquidityError _ _ =>
      (* edge case: handle insufficient liquidity for market orders *)
      let '(orderBook, m) :=
        GetOrCreateOrderBook (SubmitOrderRequest.Symbol req) m in
      let totalAvailable :=
        match Order.Side (Matcher.Heap m !!! order) with
        | SideBuy => (GetBestAsk (Matcher.Heap m) orderBook).1.2
        | SideSell => (GetBestBid (Matcher.Heap m) orderBook).1.2
        end in
      Some (SubmitInsufficientLiquidity totalAvailable
              (SubmitOrderRequest.Quantity req), m)
  | Matched result => Some (submitReply orderID result, m)
  end.

(** [SubmitOrder] on a request whose body has been parsed; [orderID] is the
    value of [uuid.New()] and [now] that of [time.Now()]. *)
Definition SubmitOrder (orderID : string) (now : Z)
    (req : SubmitOrderRequest.t) (m : Matcher.t)
    : option (SubmitReply * Matcher.t) :=
  match validateSubmitOrderRequest req with
  | Some err => Some (SubmitBadRequest err, m)
  | None => submitValidated orderID now req m
  end.

(** The loop of [CancelOrder] and [GetOrderStatus] over the books of
    [GetOrderBooksSnapshot]; [entries] lists them in the order in which the
    [range] statement yields them, which Go leaves unspecified. *)
Fixpoint findOrder (orderID : string) (entries : list (string * OrderBook.t))
    : option (string * OrderBook.t * loc) :=
  match entries with
  | [] => None
  | (symbol, orderBook) :: entries' =>
      match GetOrder orderID orderBook with
      | Some order => Some (symbol, orderBook, order)
      | None => findOrder orderID entries'
      end
  end.

Inductive CancelReply :=
  | CancelNotFound                      (* 404, Order not found *)
  | CancelAlreadyFilled                 (* 400, Cannot cancel: order already filled *)
  | CancelOK (orderID : string).        (* 200, CANCELLED *)

Definition CancelOrder (entries : list (string * OrderBook.t))
    (orderID : string) (m : Matcher.t) : CancelReply * Matcher.t :=
  match findOrder orderID entries with
  | None => (CancelNotFound, m)
  | Some (symbol, foundOrderBook, foundOrder) =>
      (* edge case: cannot cancel already filled orders *)
      if decide (GetStatus (Matcher.Heap m !!! foundOrder) = StatusFilled)
      then (CancelAlreadyFilled, m)
      else
        let ob := (RemoveOrder orderID (Matcher.Heap m) foundOrderBook).2 in
        let h :=
          <[foundOrder :=
              SetStatus StatusCancelled (Matcher.Heap m !!! foundOrder)]>
            (Matcher.Heap m) in
        (CancelOK orderID,
         Matcher.mk h (<[symbol := ob]> (Matcher.OrderBooks m)))
  end.

Inductive StatusReply :=
  | StatusNotFound                      (* 404, Order not found *)
  | StatusOK (order : Order.t).         (* 200, the fields of the order *)

Definition GetOrderStatus (entries : list (string * OrderBook.t))
    (orderID : string) (m : Matcher.t) : StatusReply :=
  match findOrder orderID entries with
  | None => StatusNotFound
  | Some (_, _, foundOrder) => StatusOK (Matcher.Heap m !!! foundOrder)
  end.

(** ** Scenarios

    Runs of the handlers from an empty matcher; order ids and timestamps are
    what [uuid.New()] and [time.Now()] could have returned. *)

Definition request (symbol side type : string) (price quantity : Z)
    : SubmitOrderRequest.t :=
  SubmitOrderRequest.mk symbol side type price quantity.

(** Submit to the matcher left by an earlier run. *)
Definition andThenSubmit (orderID : string) (now : Z)
    (req : SubmitOrderRequest.t) (run : option (SubmitReply * Matcher.t))
    : option (SubmitReply * Matcher.t) :=
  '(_, m) ← run; SubmitOrder orderID now req m.

(** A sell of 500 at 15050, then a buy of 500 at 15050. *)
Definition run_equal_quantities : option (SubmitReply * Matcher.t) :=
  andThenSubmit "b1" 1 (request "AAPL" "BUY" "LIMIT" 15050 500)
    (SubmitOrder "s1" 0 (request "AAPL" "SELL" "LIMIT" 15050 500) NewMatcher).

(** Scenario C of the specification: asks of 200, 300 and 400 at 15050 in
    that order, then a limit buy of 500 at 15050. *)
Definition run_time_priority : option (SubmitReply * Matcher.t) :=
  andThenSubmit "b" 3 (request "AAPL" "BUY" "LIMIT" 15050 500)
    (andThenSubmit "a3" 2 (request "AAPL" "SELL" "LIMIT" 15050 400)
       (andThenSubmit "a2" 1 (request "AAPL" "SELL" "LIMIT" 15050 300)
          (SubmitOrder "a1" 0 (request "AAPL" "SELL" "LIMIT" 15050 200)
             NewMatcher))).

(** Three asks of 1 at 100, then a market buy of 2. *)
Definition run_market_three : option (SubmitReply * Matcher.t) :=
  andThenSubmit "m" 3 (request "AAPL" "BUY" "MARKET" 0 2)
    (andThenSubmit "a3" 2 (request "AAPL" "SELL" "LIMIT" 100 1)
       (andThenSubmit "a2" 1 (request "AAPL" "SELL" "LIMIT" 100 1)
          (SubmitOrder "a1" 0 (request "AAPL" "SELL" "LIMIT" 100 1)
             NewMatcher))).

(** Two asks of 1 at 100, then a market buy of 2. *)
Definition run_market_two : option (SubmitReply * Matcher.t) :=
  andThenSubmit "m" 2 (request "AAPL" "BUY" "MARKET" 0 2)
    (andThenSubmit "a2" 1 (request "AAPL" "SELL" "LIMIT" 100 1)
       (SubmitOrder "a1" 0 (request "AAPL" "SELL" "LIMIT" 100 1) NewMatcher)).

(** An ask of 100 at 15050, then a market buy of 100 that carries the price
    15050. *)
Definition run_market_with_price : option (SubmitReply * Matcher.t) :=
  andThenSubmit "m" 1 (request "AAPL" "BUY" "MARKET" 15050 100)
    (SubmitOrder "a1" 0 (request "AAPL" "SELL" "LIMIT" 15050 100) NewMatcher).

(** Two distinct orders with the same id, added to one book. *)
Definition dup_heap : heap :=
  <[1%nat := NewOrder "x" "AAPL" SideSell TypeLimit 15050 7 1]>
    (<[0%nat := NewOrder "x" "AAPL" SideSell TypeLimit 15050 5 0]> ∅).
Definition dup_book : OrderBook.t :=
  AddOrder 0%nat dup_heap (NewOrderBook "AAPL").

(** The book of a symbol, the empty book when there is none. *)
Definition bookOf (symbol : string) (m : Matcher.t) : OrderBook.t :=
  default (NewOrderBook symbol) (Matcher.OrderBooks m !! symbol).

(** ** Predicates of the statements *)

(** The requests that [validateSubmitOrderRequest] turns down. *)
Definition invalidRequest (req : SubmitOrderRequest.t) : Prop :=
  SubmitOrderRequest.Symbol req = EmptyString ∨
  (SubmitOrderRequest.Side req ≠ "BUY"%string ∧
   SubmitOrderRequest.Side req ≠ "SELL"%string) ∨
  (SubmitOrderRequest.Type_ req ≠ "LIMIT"%string ∧
   SubmitOrderRequest.Type_ req ≠ "MARKET"%string) ∨
  SubmitOrderRequest.Quantity req <= 0 ∨
  (SubmitOrderRequest.Type_ req = "LIMIT"%string ∧
   SubmitOrderRequest.Price req <= 0).

(** The entry of a snapshot for a price level, the exact sum of what
    remains of the orders of a queue, and the order of a tree. *)
Definition snapshotOf (h : heap) (priceLevel : PriceLevel.t)
    : OrderBookSnapshot.t :=
  OrderBookSnapshot.mk (PriceLevel.Price priceLevel)
    (totalQuantity h (PriceLevel.Orders priceLevel)).

Definition sumRemaining (h : heap) (q : list loc) : Z :=
  foldr (λ o total,
           Order.Quantity (h !!! o) - Order.FilledQuantity (h !!! o) + total)
    0 q.

Definition tree_sorted (less : PriceLevel.t → PriceLevel.t → bool)
    (tree : btree) : Prop :=
  StronglySorted (λ a b, less a b = true) tree.

(** A book with one bid and two asks. *)
Definition snap_heap : heap :=
  <[2%nat := NewOrder "a2" "AAPL" SideSell TypeLimit 15052 400 2]>
    (<[1%nat := NewOrder "a1" "AAPL" SideSell TypeLimit 15050 300 1]>
       (<[0%nat := NewOrder "b1" "AAPL" SideBuy TypeLimit 15045 500 0]> ∅)).
Definition snap_book : OrderBook.t :=
  AddOrder 2%nat snap_heap
    (AddOrder 1%nat snap_heap
       (AddOrder 0%nat snap_heap (NewOrderBook "AAPL"))).

(** The keys of a tree; the trees of a book hold one level per price; the
    orders queued in one level have distinct ids; an id is indexed by one
    book at most. *)
Definition tree_keys (tree : btree) : list Z := PriceLevel.Price <$> tree.

Definition keys_distinct (ob : OrderBook.t) : Prop :=
  ∀ side, NoDup (tree_keys (treeOf side ob)).

Definition idsOf (h : heap) (q : list loc) : list string :=
  (λ o, Order.ID (h !!! o)) <$> q.

Definition queue_ids_distinct (h : heap) (ob : OrderBook.t) : Prop :=
  ∀ side, Forall (λ lvl, NoDup (idsOf h (PriceLevel.Orders lvl)))
            (treeOf side ob).

Definition indexed_once (orderID : string) (m : Matcher.t) : Prop :=
  ∀ k1 ob1 k2 ob2,
    Matcher.OrderBooks m !! k1 = Some ob1 →
    Matcher.OrderBooks m !! k2 = Some ob2 →
    is_Some (GetOrder orderID ob1) → is_Some (GetOrder orderID ob2) →
    k1 = k2.

(** Scenario G of the specification up to the cancel: a sell of 300 at 15050
    and a buy of 500 at 15050, which leaves the buy in the book with 200
    remaining. *)
Definition run_partial_fill : option (SubmitReply * Matcher.t) :=
  andThenSubmit "b" 1 (request "AAPL" "BUY" "LIMIT" 15050 500)
    (SubmitOrder "s" 0 (request "AAPL" "SELL" "LIMIT" 15050 300) NewMatcher).

Definition matcherOf (run : option (SubmitReply * Matcher.t)) : Matcher.t :=
  match run with
  | Some (_, m) => m
  | None => NewMatcher
  end.

(** Two sells at 15050, of 100 and of 200, which rest in that order. *)
Definition run_two_asks : option (SubmitReply * Matcher.t) :=
  andThenSubmit "a2" 1 (request "AAPL" "SELL" "LIMIT" 15050 200)
    (SubmitOrder "a1" 0 (request "AAPL" "SELL" "LIMIT" 15050 100) NewMatcher).

(** ** Predicates of the matching walk *)

Definition opposite (side : OrderSide) : OrderSide :=
  match side with
  | SideBuy => SideSell
  | SideSell => SideBuy
  end.

(** The fields of an order that no fill changes. *)
Definition headerOf (o : Order.t)
    : string * string * OrderSide * OrderType * Z * Z :=
  (Order.ID o, Order.Symbol o, Order.Side o, Order.Type_ o, Order.Price o,
   Order.Quantity o).

(** Number of orders queued in a tree. *)
Definition queues_len (tree : btree) : nat :=
  length (concat (PriceLevel.Orders <$> tree)).

(** The queue of the level of a price, empty when there is no such level. *)
Definition treeQueue (p : Z) (tree : btree) : list loc :=
  match tree_Get p tree with
  | Some lvl => PriceLevel.Orders lvl
  | None => []
  end.

(** [tree'] is [tree] after orders and levels have been taken out, and
    likewise for books. *)
Definition tree_shrinks (tree' tree : btree) : Prop :=
  tree_keys tree' `sublist_of` tree_keys tree ∧
  (∀ p, (queues_len (tree_Delete p tree')
         ≤ queues_len (tree_Delete p tree))%nat) ∧
  (∀ p, treeQueue p tree' `sublist_of` treeQueue p tree).

Definition shrinks (ob' ob : OrderBook.t) : Prop :=
  OrderBook.Orders ob' ⊆ OrderBook.Orders ob ∧
  ∀ side, tree_shrinks (treeOf side ob') (treeOf side ob).

(** What holds of a trade emitted while the order at [l] is matched against
    the book [ob0] in the heap [h0]: it is priced at the level of a resting
    order [r] of the opposite side, it names the incoming and the resting
    order, and a limit order does not trade through its price. *)
Definition trade_ok (l : loc) (h0 : heap) (ob0 : OrderBook.t) (limit : bool)
    (t : Trade.t) : Prop :=
  let order := h0 !!! l in
  ∃ r,
    r ∈ levelOrders (opposite (Order.Side order)) (Trade.Price t) ob0 ∧
    match Order.Side order with
    | SideBuy =>
        Trade.BuyOrderID t = Order.ID order ∧
        Trade.SellOrderID t = Order.ID (h0 !!! r) ∧
        (limit = true → Trade.Price t <= Order.Price order)
    | SideSell =>
        Trade.BuyOrderID t = Order.ID (h0 !!! r) ∧
        Trade.SellOrderID t = Order.ID order ∧
        (limit = true → Order.Price order <= Trade.Price t)
    end.

(** The invariant of a matching walk started from [h0] and [ob0]. *)
Record walk_inv (l : loc) (h0 : heap) (ob0 : OrderBook.t) (limit : bool)
    (s : walk) : Prop := WalkInv {
  wi_header : ∀ l', headerOf (w_heap s !!! l') = headerOf (h0 !!! l');
  wi_filled : Order.FilledQuantity (w_heap s !!! l) = w_filled s;
  wi_remaining : w_remainingQty s = Order.Quantity (h0 !!! l) - w_filled s;
  wi_nonneg : 0 <= w_filled s;
  wi_bounds : w_filled s = 0 ∨ 0 <= w_remainingQty s;
  wi_shrinks : shrinks (w_book s) ob0;
  wi_trades : Forall (trade_ok l h0 ob0 limit) (w_trades s)
}.

(** The measure of the loop over a price level. *)
Definition headLive (h : heap) (q : list loc) : nat :=
  match q with
  | r :: _ => if RemainingQuantity (h !!! r) <=? 0 then 0 else 1
  | [] => 0
  end.
Definition levelMeasure (side : OrderSide) (p : Z) (s : walk) : nat :=
  2 * length (levelOrders side p (w_book s))
  + headLive (w_heap s) (levelOrders side p (w_book s)).

(** The price [p] of a level crosses the price of a limit order. *)
Definition crosses (limit : bool) (order : Order.t) (p : Z) : Prop :=
  limit = true →
  match Order.Side order with
  | SideBuy => p <= Order.Price order
  | SideSell => Order.Price order <= p
  end.

(** The measure of the loop over the levels of the opposite side. *)
Definition walkMeasure (side : OrderSide) (s : walk) : nat :=
  queues_len (treeOf side (w_book s))
  + (if 0 <? w_remainingQty s then 1 else 0).

#[global] Instance int64_dec z : Decision (int64 z).
Proof. unfold int64. apply _. Defined.

(** Every order of the heap has a quantity that is an [int64]. *)
Definition heap_typed (h : heap) : Prop :=
  map_Forall (λ _ o, int64 (Order.Quantity o)) h.

(** The orders that the queues of a book hold, those that its id-map
    indexes, and the order at [l] being one of them. *)
Definition queuedOrders (ob : OrderBook.t) : list loc :=
  concat (PriceLevel.Orders <$> OrderBook.Bids ob)
  ++ concat (PriceLevel.Orders <$> OrderBook.Asks ob).
Definition indexedOrders (ob : OrderBook.t) : list loc :=
  (map_to_list (OrderBook.Orders ob)).*2.
Definition in_book (l : loc) (ob : OrderBook.t) : Prop :=
  l ∈ queuedOrders ob ++ indexedOrders ob.

#[global] Instance heap_typed_dec h : Decision (heap_typed h).
Proof. unfold heap_typed. apply _. Defined.
#[global] Instance in_book_dec l ob : Decision (in_book l ob).
Proof. unfold in_book. apply _. Defined.

(** The order [o] at [l] is indexed by its id and is the last of the queue
    of the level of its side and price. *)
Definition restsAtTail (l : loc) (o : Order.t) (ob : OrderBook.t) : Prop :=
  OrderBook.Orders ob !! Order.ID o = Some l ∧
  last (levelOrders (Order.Side o) (Order.Price o) ob) = Some l.

(** Every order queued in a level has the price of the level. *)
Definition level_prices (h : heap) (ob : OrderBook.t) : Prop :=
  ∀ side,
    Forall (λ lvl, Forall (λ r, Order.Price (h !!! r) = PriceLevel.Price lvl)
                     (PriceLevel.Orders lvl))
      (treeOf side ob).

(** What C4 says of a trade [t] emitted for the incoming [order] against the
    book [ob]: it is priced at the level of a resting order [r] of the
    opposite side, and the price of the buying order, when it is a limit
    order, is at least the price of the trade, which is at least the price
    of the selling order. *)
Definition trade_priced (order : Order.t) (h : heap) (ob : OrderBook.t)
    (t : Trade.t) : Prop :=
  ∃ r lvl,
    lvl ∈ oppositeTree (Order.Side order) ob ∧
    r ∈ PriceLevel.Orders lvl ∧
    Trade.Price t = PriceLevel.Price lvl ∧
    match Order.Side order with
    | SideBuy =>
        Trade.BuyOrderID t = Order.ID order ∧
        Trade.SellOrderID t = Order.ID (h !!! r) ∧
        (Order.Type_ order = TypeLimit → Trade.Price t <= Order.Price order) ∧
        Order.Price (h !!! r) <= Trade.Price t
    | SideSell =>
        Trade.BuyOrderID t = Order.ID (h !!! r) ∧
        Trade.SellOrderID t = Order.ID order ∧
        Trade.Price t <= Order.Price (h !!! r) ∧
        (Order.Type_ order = TypeLimit → Order.Price order <= Trade.Price t)
    end.

(** A resting sell of 300 at 15050 (location 0) and an incoming buy of 500 at
    15050 (location 1). *)
Definition limit_heap : heap :=
  <[1%nat := NewOrder "b" "AAPL" SideBuy TypeLimit 15050 500 1]>
    (<[0%nat := NewOrder "s" "AAPL" SideSell TypeLimit 15050 300 0]> ∅).
Definition limit_book : OrderBook.t :=
  AddOrder 0%nat limit_heap (NewOrderBook "AAPL").
Definition limit_matcher : Matcher.t :=
  Matcher.mk limit_heap {["AAPL"%string := limit_book]}.

(** ** order_handler.go: the order-book endpoint and the latency window *)

(** A setting read from the environment: [env] is the value of
    [strconv.Atoi] on the variable, [None] when the variable is unset or
    empty or does not parse; the setting is that number when it is positive
    and the default otherwise. *)
Definition envPositive (env : option Z) (dflt : Z) : Z :=
  match env with
  | Some parsed => if parsed >? 0 then parsed else dflt
  | None => dflt
  end.

(** [maxLatencies] of [NewOrderHandler]. *)
Definition NewOrderHandler_maxLatencies (envMax : option Z) : Z :=
  envPositive envMax 10000.

(** [recordLatency] on the slice of latencies; [None] is the panic of a
    slice expression out of range. *)
Definition recordLatency (latency : Z) (maxLatencies : Z)
    (latencies : list Z) : option (list Z) :=
  let latencies := latencies ++ [latency] in
  (* edge case: maintain rolling window by removing oldest measurements *)
  if Z.of_nat (length latencies) >? maxLatencies then
    let removeCount := sub64 (Z.of_nat (length latencies)) maxLatencies in
    if (removeCount <? 0) || (Z.of_nat (length latencies) <? removeCount)
    then None
    else Some (drop (Z.to_nat removeCount) latencies)
  else Some latencies.

(** The [depth] parameter of the query of [GetOrderBook].  Without the
    parameter the handler parses the default that it has just printed. *)
Inductive queryDepth :=
  | DepthAbsent
  | DepthInvalid             (* [strconv.Atoi] fails *)
  | DepthInt (depth : Z).

Module OrderBookResponse.
Record t := mk {
  Symbol : string;
  Timestamp : Z;
  Bids : list (Z * Z);      (* price and quantity, highest price first *)
  Asks : list (Z * Z)       (* price and quantity, lowest price first *)
}.
End OrderBookResponse.

(** The depth that [GetOrderBook] asks of the snapshot. *)
Definition depthOf (envDepth envMaxDepth : option Z) (query : queryDepth)
    : Z :=
  let defaultDepth := envPositive envDepth 10 in
  let maxDepth := envPositive envMaxDepth 1000 in
  let depth :=
    match query with
    | DepthAbsent => defaultDepth
    | DepthInvalid => defaultDepth
    | DepthInt depth => if depth <=? 0 then defaultDepth else depth
    end in
  (* edge case: enforce maximum depth limit *)
  if depth >? maxDepth then maxDepth else depth.

(** [GetOrderBook].  The book of the symbol is created before the snapshot
    is taken: the matcher of the result is what the call leaves behind, also
    when [GetOrderBookSnapshot] does not return and there is no response. *)
Definition GetOrderBook (maxCap : Z) (envDepth envMaxDepth : option Z)
    (query : queryDepth) (symbol : string) (now : Z) (m : Matcher.t)
    : option OrderBookResponse.t * Matcher.t :=
  let depth := depthOf envDepth envMaxDepth query in
  let '(orderBook, m) := GetOrCreateOrderBook symbol m in
  match GetOrderBookSnapshot maxCap depth (Matcher.Heap m) orderBook with
  | None => (None, m)
  | Some (bidsLevels, asksLevels) =>
      let bids :=
        (λ level,
           (OrderBookSnapshot.Price level, OrderBookSnapshot.Quantity level))
          <$> bidsLevels in
      let asks :=
        (λ level,
           (OrderBookSnapshot.Price level, OrderBookSnapshot.Quantity level))
          <$> asksLevels in
      (Some (OrderBookResponse.mk symbol now bids asks), m)
  end.

(** ** middleware/ratelimit.go

    [maxRequests] and the counters are of type [int], which is 64 bits wide
    on the platforms the server is built for. *)

Module RateLimiter.
Record t := mk {
  maxRequests : Z;
  windowDuration : Z;            (* a [time.Duration], in nanoseconds *)
  counters : gmap string Z
}.
Definition with_counters (c : gmap string Z) (rl : t) : t :=
  mk (maxRequests rl) (windowDuration rl) c.
End RateLimiter.

Definition NewRateLimiter (maxRequests windowDuration : Z) : RateLimiter.t :=
  RateLimiter.mk maxRequests windowDuration ∅.

(** [len(key) > len(clientPrefix) && key[:len(clientPrefix)] ==
    clientPrefix], the test of [removeOldWindows] on a key. *)
Definition hasClientPrefix (clientIP key : string) : bool :=
  let clientPrefix := clientIP +:+ "_" in
  (String.length clientPrefix <? String.length key)%nat
  && String.eqb (String.substring 0 (String.length clientPrefix) key)
       clientPrefix.

Section ratelimit.
(** [int64(d.Seconds())] for a duration [d]: [Seconds] is a [float64], and
    what follows holds whatever its truncation is. *)
Variable seconds : Z → Z.

(** [fmt.Sprintf("%s_%d", clientIP, windowNumber)]; [None] is the panic of
    an integer division by zero. *)
Definition getWindowKey (rl : RateLimiter.t) (clientIP : string) (now : Z)
    : option string :=
  let d := seconds (RateLimiter.windowDuration rl) in
  if d =? 0 then None
  else
    let windowNumber := wrap64 (Z.quot now d) in
    Some (clientIP +:+ "_" +:+ pretty windowNumber).

Definition removeOldWindows (rl : RateLimiter.t) (clientIP : string) (now : Z)
    : option RateLimiter.t :=
  currentWindowKey ← getWindowKey rl clientIP now;
  Some (RateLimiter.with_counters
          (filter (λ kv, ¬ (kv.1 ≠ currentWindowKey ∧
                            hasClientPrefix clientIP kv.1 = true))
             (RateLimiter.counters rl)) rl).

(** [Allow] at the time [now], the seconds of [time.Now().Unix()]. *)
Definition Allow (clientIP : string) (now : Z) (rl : RateLimiter.t)
    : option (bool * RateLimiter.t) :=
  key ← getWindowKey rl clientIP now;
  match RateLimiter.counters rl !! key with
  | None =>
      (* edge case: remove old windows when starting new window *)
      rl ← removeOldWindows rl clientIP now;
      Some (true,
            RateLimiter.with_counters
              (<[key := 1]> (RateLimiter.counters rl)) rl)
  | Some count =>
      if count >=? RateLimiter.maxRequests rl then Some (false, rl)
      else
        Some (true,
              RateLimiter.with_counters
                (<[key := add64 count 1]> (RateLimiter.counters rl)) rl)
  end.

(** Requests of one client at the times [nows], one after the other. *)
Fixpoint AllowAll (clientIP : string) (nows : list Z) (rl : RateLimiter.t)
    : option (list bool * RateLimiter.t) :=
  match nows with
  | [] => Some ([], rl)
  | now :: nows' =>
      '(allowed, rl) ← Allow clientIP now rl;
      '(rest, rl) ← AllowAll clientIP nows' rl;
      Some (allowed :: rest, rl)
  end.

End ratelimit.

(** ** Predicates of the further properties *)

(** The order of the keys of the tree of a side. *)
Definition keyLess (side : OrderSide) (a b : Z) : Prop :=
  match side with
  | SideBuy => a > b
  | SideSell => a < b
  end.

(** The trees of a book are in the order of their [Less]. *)
Definition book_sorted (ob : OrderBook.t) : Prop :=
  ∀ side, tree_sorted (lessOf side) (treeOf side ob).

#[global] Instance book_sorted_dec ob : Decision (book_sorted ob).
Proof.
  unfold book_sorted, tree_sorted.
  destruct (decide (StronglySorted (λ a b, lessOf SideBuy a b = true)
                      (treeOf SideBuy ob))) as [H1|H1];
    [|right; intros H; apply H1, H].
  destruct (decide (StronglySorted (λ a b, lessOf SideSell a b = true)
                      (treeOf SideSell ob))) as [H2|H2];
    [|right; intros H; apply H2, H].
  left. by intros [].
Defined.

(** The outer loop of a match, by the type of the order. *)
Definition isLimit (o : Order.t) : bool :=
  bool_decide (Order.Type_ o ≠ TypeMarket).
Definition bodyOf (limit : bool) (l : loc) : walk → option (ctl walk) :=
  if limit then limitBody l else marketBody l.

(** The state that a round of a loop leaves. *)
Definition ctl_state {S : Type} (c : ctl S) : S :=
  match c with
  | Continue s => s
  | Break s => s
  end.

(** The quantity traded by a list of trades; the trades of a walk have
    positive quantities that add up to what the walk has filled. *)
Definition tradedQuantity (trades : list Trade.t) : Z :=
  foldr (λ t total, Trade.Quantity t + total) 0 trades.

Definition trades_add_up (s : walk) : Prop :=
  tradedQuantity (w_trades s) = w_filled s ∧
  Forall (λ t, 0 < Trade.Quantity t) (w_trades s).

(** A book in a heap: the trees are sorted, every order is queued at its
    price, and the book holds orders of the heap only.  A matcher: the
    quantities of its orders are 64-bit integers and its books are such
    books. *)
Definition book_ok (h : heap) (ob : OrderBook.t) : Prop :=
  book_sorted ob ∧ level_prices h ob ∧ ∀ l, in_book l ob → l ∈ dom h.

Definition matcher_ok (m : Matcher.t) : Prop :=
  heap_typed (Matcher.Heap m) ∧
  ∀ symbol ob, Matcher.OrderBooks m !! symbol = Some ob →
               book_ok (Matcher.Heap m) ob.

(** The states that the handlers reach from the empty matcher; the quantity
    of a request is an [int64] of the decoded body, and [entries] are the
    books of [GetOrderBooksSnapshot] in the order of the [range].  What a
    call of [GetOrderBook] leaves is such a state also when the call
    panics. *)
Inductive reachable : Matcher.t → Prop :=
  | reach_new : reachable NewMatcher
  | reach_submit m orderID now req reply m' :
      reachable m → int64 (SubmitOrderRequest.Quantity req) →
      SubmitOrder orderID now req m = Some (reply, m') → reachable m'
  | reach_cancel m entries orderID :
      reachable m → entries ≡ₚ map_to_list (Matcher.OrderBooks m) →
      reachable (CancelOrder entries orderID m).2
  | reach_orderbook m maxCap envDepth envMaxDepth query symbol now :
      reachable m →
      reachable
        (GetOrderBook maxCap envDepth envMaxDepth query symbol now m).2.

(** The entry of the response of [GetOrderBook] for a level. *)
Definition levelInfo (h : heap) (priceLevel : PriceLevel.t) : Z * Z :=
  (PriceLevel.Price priceLevel,
   totalQuantity h (PriceLevel.Orders priceLevel)).

(** No book of the matcher indexes the id. *)
Definition unindexed (orderID : string) (m : Matcher.t) : Prop :=
  ∀ symbol ob, Matcher.OrderBooks m !! symbol = Some ob →
               GetOrder orderID ob = None.

(** The resting orders of a tree, each with the price of its level, in the
    order in which the tree and the queues hold them. *)
Definition treeResting (tree : btree) : list (Z * loc) :=
  concat ((λ lvl, pair (PriceLevel.Price lvl) <$> PriceLevel.Orders lvl)
            <$> tree).
Definition restingOrders (side : OrderSide) (ob : OrderBook.t)
    : list (Z * loc) :=
  treeResting (treeOf side ob).

(** The id that a trade of the incoming [order] gives for the resting
    order. *)
Definition restingID (order : Order.t) (t : Trade.t) : string :=
  match Order.Side order with
  | SideBuy => Trade.SellOrderID t
  | SideSell => Trade.BuyOrderID t
  end.

(** The trade [t] of the incoming [order] is an execution against the
    resting order at [pr.2], at the price [pr.1]. *)
Definition executes (order : Order.t) (h : heap) (t : Trade.t)
    (pr : Z * loc) : Prop :=
  Trade.Price t = pr.1 ∧ restingID order t = Order.ID (h !!! pr.2).

(** The level of the price [p], when the tree has one, is its first. *)
Definition bestAt (p : Z) (tree : btree) : Prop :=
  ∀ lvl, tree_Get p tree = Some lvl → head tree = Some lvl.

(** The resting orders [rs] that have been executed against, with the
    resting orders [R] that the book still holds, keep the order of the
    resting orders [R0] of the book at the start; the last of [rs] may
    still be the first of [R], when nothing is left of it or of the
    incoming order. *)
Definition pending (R0 : list (Z * loc)) (h : heap) (remainingQty : Z)
    (R rs : list (Z * loc)) : Prop :=
  rs ++ R `sublist_of` R0 ∨
  ∃ rs' pr X,
    rs = rs' ++ [pr] ∧ R = pr :: X ∧ rs' ++ R `sublist_of` R0 ∧
    (remainingQty <= 0 ∨ RemainingQuantity (h !!! pr.2) <= 0).

Definition priority (l : loc) (h0 : heap) (ob0 : OrderBook.t) (s : walk)
    : Prop :=
  let side := opposite (Order.Side (h0 !!! l)) in
  ∃ rs,
    Forall2 (executes (h0 !!! l) h0) (w_trades s) rs ∧
    pending (restingOrders side ob0) (w_heap s) (w_remainingQty s)
      (restingOrders side (w_book s)) rs.

(** The opposite side, as [GetBestAsk] and [GetBestBid] report it, does not
    reach the price [price] of an order of the side [side]. *)
Definition uncrossed (side : OrderSide) (price : Z) (h : heap)
    (ob : OrderBook.t) : Prop :=
  match side with
  | SideBuy => ∀ p q, GetBestAsk h ob = (p, q, true) → price < p
  | SideSell => ∀ p q, GetBestBid h ob = (p, q, true) → p < price
  end.

(** ** Further scenarios *)

(** A sell of 5 at 100, a sell of 5 at 101, a buy of 5 at 100 and a buy of 5
    at 101.  The first buy fills the sell at 100, which stays at the head of
    its queue; the second buy drops it, which leaves the level of 100 in the
    tree with an empty queue. *)
Definition run_stale_level : option (SubmitReply * Matcher.t) :=
  andThenSubmit "b2" 3 (request "AAPL" "BUY" "LIMIT" 101 5)
    (andThenSubmit "b1" 2 (request "AAPL" "BUY" "LIMIT" 100 5)
       (andThenSubmit "s2" 1 (request "AAPL" "SELL" "LIMIT" 101 5)
          (SubmitOrder "s1" 0 (request "AAPL" "SELL" "LIMIT" 100 5)
             NewMatcher))).

(** The book that this run leaves, and its heap with one more order, a buy
    of 5 at 102, at location 4. *)
Definition stale_book : OrderBook.t :=
  bookOf "AAPL" (matcherOf run_stale_level).
Definition stale_heap : heap :=
  <[4%nat := NewOrder "b3" "AAPL" SideBuy TypeLimit 102 5 4]>
    (Matcher.Heap (matcherOf run_stale_level)).

(** A resting sell of 300 at 15050 (location 0) and an incoming market buy
    of 200 (location 1). *)
Definition market_heap : heap :=
  <[1%nat := NewOrder "m" "AAPL" SideBuy TypeMarket 0 200 1]>
    (<[0%nat := NewOrder "s" "AAPL" SideSell TypeLimit 15050 300 0]> ∅).
Definition market_book : OrderBook.t :=
  AddOrder 0%nat market_heap (NewOrderBook "AAPL").
Definition market_matcher : Matcher.t :=
  Matcher.mk market_heap {["AAPL"%string := market_book]}.

(** [int64(d.Seconds())] for a window of whole seconds. *)
Definition wholeSeconds (d : Z) : Z := Z.quot d 1000000000.

(** A limiter of two requests per second, and the same limiter holding a
    counter of the client "a_b". *)
Definition limiter_two : RateLimiter.t := NewRateLimiter 2 1000000000.
Definition limiter_shared : RateLimiter.t :=
  RateLimiter.mk 2 1000000000 {["a_b_17"%string := 1]}.

(** * Properties *)

(** ** Runs of the scenarios *)

(** C3: after a buy of 500 at 15050 has traded with a resting sell of 500 at
    15050, both are Filled, and the sell (the order at location 0) is still
    in the id-map of the book and at the head of the queue of its price
    level; a status lookup finds it. *)
Lemma equal_quantities_leave_filled_order :
  match run_equal_quantities with
  | Some (reply, m) =>
      reply = SubmitOK (SubmitOrderResponse.mk "b1" StatusFilled 500 0
                          [(15050, 500)]) ∧
      GetOrder "s1" (bookOf "AAPL" m) = Some 0%nat ∧
      Order.ID (Matcher.Heap m !!! 0%nat) = "s1"%string ∧
      Order.Status (Matcher.Heap m !!! 0%nat) = StatusFilled ∧
      levelOrders SideSell 15050 (bookOf "AAPL" m) = [0%nat] ∧
      GetOrderStatus (map_to_list (Matcher.OrderBooks m)) "s1" m
        = StatusOK (Order.mk "s1" "AAPL" SideSell TypeLimit 15050 500 500
                      StatusFilled 0)
  | None => False
  end.
Proof. vm_compute. repeat split. Qed.

(** C5: in scenario C the two trades are 200 then 300, but the head of the
    level is afterwards the second ask (location 1), Filled, and the third
    ask of 400 (location 2) stands behind it. *)
Lemma time_priority_head_is_filled_order :
  match run_time_priority with
  | Some (reply, m) =>
      reply = SubmitOK (SubmitOrderResponse.mk "b" StatusFilled 500 0
                          [(15050, 200); (15050, 300)]) ∧
      levelOrders SideSell 15050 (bookOf "AAPL" m) = [1%nat; 2%nat] ∧
      Order.ID (Matcher.Heap m !!! 1%nat) = "a2"%string ∧
      Order.Status (Matcher.Heap m !!! 1%nat) = StatusFilled ∧
      RemainingQuantity (Matcher.Heap m !!! 1%nat) = 0 ∧
      Order.ID (Matcher.Heap m !!! 2%nat) = "a3"%string ∧
      RemainingQuantity (Matcher.Heap m !!! 2%nat) = 400
  | None => False
  end.
Proof. vm_compute. repeat split. Qed.

(** C5, market orders: with three asks of 1 at one price, a market buy of 2
    trades with the first and the third; the second, admitted before the
    third, is not touched and leaves the queue unfilled. *)
Lemma market_order_skips_second_in_queue :
  match run_market_three with
  | Some (reply, m) =>
      reply = SubmitOK (SubmitOrderResponse.mk "m" StatusFilled 2 0
                          [(100, 1); (100, 1)]) ∧
      Order.FilledQuantity (Matcher.Heap m !!! 0%nat) = 1 ∧
      Order.ID (Matcher.Heap m !!! 1%nat) = "a2"%string ∧
      Order.FilledQuantity (Matcher.Heap m !!! 1%nat) = 0 ∧
      Order.ID (Matcher.Heap m !!! 2%nat) = "a3"%string ∧
      Order.FilledQuantity (Matcher.Heap m !!! 2%nat) = 1 ∧
      OrderBook.Asks (bookOf "AAPL" m) = []
  | None => False
  end.
Proof. vm_compute. repeat split. Qed.

(** C2: two asks of 1 at one price hold the 2 units that a market buy of 2
    asks for; the buy is answered Filled with 1 unit filled and 1 remaining,
    and the second ask has left the book unfilled. *)
Lemma market_order_filled_short :
  match run_market_two with
  | Some (reply, m) =>
      reply = SubmitOK (SubmitOrderResponse.mk "m" StatusFilled 1 1
                          [(100, 1)]) ∧
      Order.FilledQuantity (Matcher.Heap m !!! 1%nat) = 0 ∧
      OrderBook.Asks (bookOf "AAPL" m) = []
  | None => False
  end.
Proof. vm_compute. repeat split. Qed.

(** ** Validation of a submitted order *)

Lemma validate_None_iff req :
  validateSubmitOrderRequest req = None ↔ ¬ invalidRequest req.
Proof.
  unfold validateSubmitOrderRequest, invalidRequest.
  destruct (String.eqb_spec (SubmitOrderRequest.Symbol req) EmptyString);
    [naive_solver|].
  destruct (String.eqb_spec (SubmitOrderRequest.Side req) "BUY"),
    (String.eqb_spec (SubmitOrderRequest.Side req) "SELL");
    destruct (String.eqb_spec (SubmitOrderRequest.Type_ req) "LIMIT"),
      (String.eqb_spec (SubmitOrderRequest.Type_ req) "MARKET");
    destruct (Z.leb_spec (SubmitOrderRequest.Quantity req) 0);
    destruct (Z.leb_spec (SubmitOrderRequest.Price req) 0);
    simpl; split; intros; try done; try (exfalso; naive_solver lia);
    intros ?; naive_solver lia.
Qed.

(** C9, as the code has it: [SubmitOrder] answers 400 and leaves the matcher
    (every book and every order) as it was for a request with an empty
    symbol, a side other than BUY and SELL, a type other than LIMIT and
    MARKET, a quantity that is not positive, or type LIMIT with a price that
    is not positive; every other request, whatever price a MARKET request
    carries, goes on to the matcher. *)
Theorem validation_rejects_without_mutation orderID now req m :
  (invalidRequest req →
   ∃ err, SubmitOrder orderID now req m = Some (SubmitBadRequest err, m)) ∧
  (¬ invalidRequest req →
   SubmitOrder orderID now req m = submitValidated orderID now req m).
Proof.
  unfold SubmitOrder. split; intros H.
  - destruct (validateSubmitOrderRequest req) as [err|] eqn:E; [by eexists|].
    by apply validate_None_iff in E.
  - apply validate_None_iff in H. by rewrite H.
Qed.

(** C9, counterexample: a MARKET request that carries the price 15050 passes
    the validation and is executed against the book. *)
Lemma market_order_with_price_is_matched :
  SubmitOrderRequest.Price (request "AAPL" "BUY" "MARKET" 15050 100) ≠ 0 ∧
  validateSubmitOrderRequest (request "AAPL" "BUY" "MARKET" 15050 100)
    = None ∧
  match run_market_with_price with
  | Some (reply, m) =>
      reply = SubmitOK (SubmitOrderResponse.mk "m" StatusFilled 100 0
                          [(15050, 100)])
  | None => False
  end.
Proof. vm_compute. repeat split. discriminate. Qed.

(** ** The tree of price levels *)

Lemma tree_Get_Some p T lvl :
  tree_Get p T = Some lvl → PriceLevel.Price lvl = p ∧ lvl ∈ T.
Proof.
  induction T as [|x T IH]; simpl; [done|].
  destruct (Z.eqb_spec (PriceLevel.Price x) p).
  - intros [= ->]. split; [done|left].
  - intros H. destruct (IH H). split; [done|by right].
Qed.

Lemma tree_Get_setOrders p q T :
  tree_Get p (tree_setOrders p q T)
  = (λ lvl, PriceLevel.mk (PriceLevel.Price lvl) q) <$> tree_Get p T.
Proof.
  induction T as [|x T IH]; simpl; [done|].
  destruct (Z.eqb_spec (PriceLevel.Price x) p) as [E|E]; simpl.
  - by rewrite (proj2 (Z.eqb_eq _ _) E).
  - by rewrite (proj2 (Z.eqb_neq _ _) E).
Qed.

Lemma tree_Get_setOrders_ne p p' q T :
  p ≠ p' → tree_Get p (tree_setOrders p' q T) = tree_Get p T.
Proof.
  intros Hne. induction T as [|x T IH]; simpl; [done|].
  destruct (Z.eqb_spec (PriceLevel.Price x) p') as [E|E]; simpl.
  - rewrite (proj2 (Z.eqb_neq _ _)) by lia. done.
  - by rewrite IH.
Qed.

Lemma tree_Get_Delete_ne p p' T :
  p ≠ p' → tree_Get p (tree_Delete p' T) = tree_Get p T.
Proof.
  intros Hne. induction T as [|x T IH]; simpl; [done|].
  destruct (Z.eqb_spec (PriceLevel.Price x) p') as [E|E]; simpl.
  - rewrite (proj2 (Z.eqb_neq _ _)) by lia. done.
  - by rewrite IH.
Qed.

Lemma lessOf_neither side a b :
  lessOf side a b = false → lessOf side b a = false →
  PriceLevel.Price a = PriceLevel.Price b.
Proof.
  destruct side; unfold lessOf, PriceLevelItem_Less,
    PriceLevelItemAscending_Less; lia.
Qed.

Lemma tree_Get_insert_new less p q T :
  tree_Get p T = None →
  tree_Get p (tree_ReplaceOrInsert less (PriceLevel.mk p q) T)
  = Some (PriceLevel.mk p q).
Proof.
  induction T as [|x T IH]; simpl.
  - by rewrite Z.eqb_refl.
  - destruct (Z.eqb_spec (PriceLevel.Price x) p) as [E|E]; [done|].
    intros H. destruct (less _ x); simpl; [by rewrite Z.eqb_refl|].
    destruct (less x _); simpl; [|by rewrite Z.eqb_refl].
    rewrite (proj2 (Z.eqb_neq _ _) E). auto.
Qed.

Lemma tree_Get_insert_ne side p p' q T :
  p' ≠ p →
  tree_Get p' (tree_ReplaceOrInsert (lessOf side) (PriceLevel.mk p q) T)
  = tree_Get p' T.
Proof.
  intros Hne. induction T as [|x T IH]; simpl.
  - rewrite (proj2 (Z.eqb_neq _ _)); [done|lia].
  - destruct (lessOf side _ x) eqn:E1; simpl.
    { rewrite (proj2 (Z.eqb_neq p p')); [done|lia]. }
    destruct (lessOf side x _) eqn:E2; simpl.
    { by rewrite IH. }
    apply (lessOf_neither side) in E1; [|done]. simpl in E1.
    rewrite (proj2 (Z.eqb_neq p p')) by lia.
    rewrite (proj2 (Z.eqb_neq (PriceLevel.Price x) p')) by lia. done.
Qed.

(** ** Trees of a book *)

Lemma treeOf_withTree side T ob : treeOf side (withTree side T ob) = T.
Proof. by destruct side. Qed.

Lemma treeOf_withTree_ne side side' T ob :
  side' ≠ side → treeOf side' (withTree side T ob) = treeOf side' ob.
Proof. by destruct side, side'. Qed.

Lemma Orders_withTree side T ob :
  OrderBook.Orders (withTree side T ob) = OrderBook.Orders ob.
Proof. by destruct side. Qed.

Lemma Orders_setLevelOrders side p q ob :
  OrderBook.Orders (setLevelOrders side p q ob) = OrderBook.Orders ob.
Proof. apply Orders_withTree. Qed.

Lemma treeOf_with_Orders side m ob :
  treeOf side (OrderBook.with_Orders m ob) = treeOf side ob.
Proof. by destruct side. Qed.

Lemma levelOrders_with_Orders side p m ob :
  levelOrders side p (OrderBook.with_Orders m ob) = levelOrders side p ob.
Proof. unfold levelOrders. by rewrite treeOf_with_Orders. Qed.

Lemma levelOrders_setLevelOrders side p q ob :
  levelOrders side p (setLevelOrders side p q ob)
  = if tree_Get p (treeOf side ob) is Some _ then q else [].
Proof.
  unfold levelOrders, setLevelOrders.
  rewrite treeOf_withTree, tree_Get_setOrders.
  by destruct (tree_Get p (treeOf side ob)).
Qed.

Lemma levelOrders_setLevelOrders_ne side p p' q ob :
  p ≠ p' →
  levelOrders side p (setLevelOrders side p' q ob) = levelOrders side p ob.
Proof.
  intros. unfold levelOrders, setLevelOrders.
  by rewrite treeOf_withTree, tree_Get_setOrders_ne.
Qed.

Lemma levelOrders_setLevelOrders_other side side' p p' q ob :
  side ≠ side' →
  levelOrders side p (setLevelOrders side' p' q ob) = levelOrders side p ob.
Proof.
  intros. unfold levelOrders, setLevelOrders.
  by rewrite treeOf_withTree_ne.
Qed.

(** ** AddOrder *)

Lemma AddOrder_spec l h ob :
  let o := h !!! l in
  let ob' := AddOrder l h ob in
  OrderBook.Orders ob' = <[Order.ID o := l]> (OrderBook.Orders ob) ∧
  levelOrders (Order.Side o) (Order.Price o) ob'
  = levelOrders (Order.Side o) (Order.Price o) ob ++ [l] ∧
  (∀ p, p ≠ Order.Price o →
        levelOrders (Order.Side o) p ob' = levelOrders (Order.Side o) p ob) ∧
  (∀ side, side ≠ Order.Side o → treeOf side ob' = treeOf side ob).
Proof.
  intros o ob'. subst ob'. unfold AddOrder. fold o.
  set (ob1 := OrderBook.with_Orders _ ob).
  assert (Ht : ∀ sd, treeOf sd ob1 = treeOf sd ob)
    by (intros; apply treeOf_with_Orders).
  assert (Hl : ∀ sd p, levelOrders sd p ob1 = levelOrders sd p ob)
    by (intros; apply levelOrders_with_Orders).
  rewrite Ht.
  destruct (tree_Get (Order.Price o) (treeOf (Order.Side o) ob)) as [lvl|]
    eqn:E.
  - repeat split.
    + by rewrite Orders_setLevelOrders.
    + by rewrite levelOrders_setLevelOrders, Ht, E, Hl.
    + intros p Hp. by rewrite levelOrders_setLevelOrders_ne, Hl.
    + intros sd Hsd. unfold setLevelOrders.
      by rewrite treeOf_withTree_ne, Ht.
  - set (ob2 := withTree _ _ ob1).
    assert (E2 : tree_Get (Order.Price o) (treeOf (Order.Side o) ob2)
                 = Some (PriceLevel.mk (Order.Price o) [])).
    { unfold ob2. rewrite treeOf_withTree. by apply tree_Get_insert_new. }
    repeat split.
    + unfold ob2. by rewrite Orders_setLevelOrders, Orders_withTree.
    + rewrite levelOrders_setLevelOrders, E2.
      unfold levelOrders at 1 2. by rewrite E2, E.
    + intros p Hp. rewrite levelOrders_setLevelOrders_ne by done.
      unfold levelOrders, ob2.
      by rewrite treeOf_withTree, tree_Get_insert_ne.
    + intros sd Hsd. unfold setLevelOrders, ob2.
      by rewrite !treeOf_withTree_ne, Ht.
Qed.

(** C8, as the code has it: [AddOrder] has no duplicate check and never
    turns an order down.  It stores the order under its id in the id-map,
    in place of whatever order that id indexed before, and appends it to
    the queue of the level of its side and price; every other queue is
    left as it was. *)
Theorem AddOrder_no_duplicate_check l h ob :
  let o := h !!! l in
  let ob' := AddOrder l h ob in
  OrderBook.Orders ob' = <[Order.ID o := l]> (OrderBook.Orders ob) ∧
  levelOrders (Order.Side o) (Order.Price o) ob'
  = levelOrders (Order.Side o) (Order.Price o) ob ++ [l] ∧
  (∀ p, p ≠ Order.Price o →
        levelOrders (Order.Side o) p ob' = levelOrders (Order.Side o) p ob) ∧
  (∀ side, side ≠ Order.Side o → treeOf side ob' = treeOf side ob).
Proof. apply AddOrder_spec. Qed.

(** C8, counterexample: the id "x" is indexed in [dup_book] for the order at
    location 0; adding the order at location 1, which has the same id, is
    not refused and changes the book: the id-map now points to the new
    order and the queue at 15050 holds two orders with the id "x". *)
Lemma AddOrder_accepts_duplicate_id :
  GetOrder "x" dup_book = Some 0%nat ∧
  Order.ID (dup_heap !!! 0%nat) = "x"%string ∧
  Order.ID (dup_heap !!! 1%nat) = "x"%string ∧
  GetOrder "x" (AddOrder 1%nat dup_heap dup_book) = Some 1%nat ∧
  levelOrders SideSell 15050 (AddOrder 1%nat dup_heap dup_book)
    = [0%nat; 1%nat] ∧
  AddOrder 1%nat dup_heap dup_book ≠ dup_book.
Proof.
  repeat split; try (vm_compute; reflexivity).
  intros H. apply (f_equal (GetOrder "x")) in H. vm_compute in H. discriminate.
Qed.

(** ** 64-bit arithmetic and snapshots *)

Lemma wrap64_id z : int64 z → wrap64 z = z.
Proof. unfold int64, wrap64. intros. rewrite Z.mod_small; lia. Qed.

Lemma wrap64_int64 z : int64 (wrap64 z).
Proof.
  unfold int64, wrap64.
  pose proof (Z.mod_pos_bound (z + 2 ^ 63) (2 ^ 64) ltac:(lia)). lia.
Qed.

Lemma wrap64_add_l a b : wrap64 (wrap64 a + b) = wrap64 (a + b).
Proof.
  unfold wrap64. f_equal.
  replace ((a + 2 ^ 63) mod 2 ^ 64 - 2 ^ 63 + b + 2 ^ 63)
    with ((a + 2 ^ 63) mod 2 ^ 64 + b) by lia.
  rewrite Z.add_mod_idemp_l by lia. f_equal. lia.
Qed.

Lemma wrap64_add_r a b : wrap64 (a + wrap64 b) = wrap64 (a + b).
Proof. rewrite (Z.add_comm a), wrap64_add_l. f_equal. lia. Qed.

Lemma totalQuantity_from h q a :
  foldl (λ total o, add64 total (RemainingQuantity (h !!! o))) (wrap64 a) q
  = wrap64 (a + sumRemaining h q).
Proof.
  revert a. induction q as [|o q IH]; intros a; simpl.
  - f_equal. lia.
  - unfold add64 at 2, RemainingQuantity, sub64.
    rewrite wrap64_add_l, wrap64_add_r, IH. f_equal. lia.
Qed.

Lemma totalQuantity_sum h q : totalQuantity h q = wrap64 (sumRemaining h q).
Proof. apply (totalQuantity_from h q 0). Qed.

Lemma ascendSnapshot_take h depth count acc tree :
  ascendSnapshot h depth count acc tree
  = acc ++ (snapshotOf h <$> take (Z.to_nat (depth - count)) tree).
Proof.
  revert count acc. induction tree as [|lvl tree IH]; intros count acc; simpl.
  - by rewrite take_nil, app_nil_r.
  - destruct (Z.geb_spec count depth) as [H|H].
    + replace (Z.to_nat (depth - count)) with 0%nat by lia.
      by rewrite app_nil_r.
    + rewrite IH.
      replace (Z.to_nat (depth - count))
        with (S (Z.to_nat (depth - (count + 1)))) by lia.
      simpl. by rewrite <- app_assoc.
Qed.

Lemma StronglySorted_take {A} (R : A → A → Prop) n l :
  StronglySorted R l → StronglySorted R (take n l).
Proof.
  intros H. rewrite <- (take_drop n l) in H.
  by apply StronglySorted_app_1_l in H.
Qed.

Lemma StronglySorted_fmap_impl {A B} (f : A → B) (R : A → A → Prop)
    (R' : B → B → Prop) l :
  (∀ a b, R a b → R' (f a) (f b)) →
  StronglySorted R l → StronglySorted R' (f <$> l).
Proof.
  intros HR. induction 1 as [|x l _ IH Hx]; simpl; constructor; [done|].
  apply Forall_fmap. eapply Forall_impl; [exact Hx|]. intros; by apply HR.
Qed.

Lemma makeSnapshots_Some maxCap cap :
  0 <= cap → cap <= 2 ^ 44 → cap <= maxCap →
  makeSnapshots maxCap cap = Some [].
Proof.
  intros H1 H2 H3. unfold makeSnapshots.
  destruct (Z.ltb_spec cap 0); [lia|].
  destruct (Z.ltb_spec (2 ^ 44) cap); [lia|].
  destruct (Z.ltb_spec maxCap cap); [lia|done].
Qed.

Lemma makeSnapshots_None maxCap cap :
  cap < 0 ∨ 2 ^ 44 < cap ∨ maxCap < cap → makeSnapshots maxCap cap = None.
Proof.
  intros H. unfold makeSnapshots.
  destruct (Z.ltb_spec cap 0); [done|].
  destruct (Z.ltb_spec (2 ^ 44) cap); [done|].
  destruct (Z.ltb_spec maxCap cap); [done|lia].
Qed.

Lemma GetOrderBookSnapshot_Some maxCap depth h ob :
  0 <= depth → depth <= 2 ^ 44 → depth <= maxCap →
  GetOrderBookSnapshot maxCap depth h ob
  = Some (ascendSnapshot h depth 0 [] (OrderBook.Bids ob),
          ascendSnapshot h depth 0 [] (OrderBook.Asks ob)).
Proof.
  intros H1 H2 H3. unfold GetOrderBookSnapshot.
  by rewrite makeSnapshots_Some.
Qed.

Lemma GetOrderBookSnapshot_None maxCap depth h ob :
  depth < 0 ∨ 2 ^ 44 < depth ∨ maxCap < depth →
  GetOrderBookSnapshot maxCap depth h ob = None.
Proof.
  intros H. unfold GetOrderBookSnapshot. by rewrite makeSnapshots_None.
Qed.

(** C6, as the code has it.  [GetOrderBookSnapshot] does not return for
    every depth: its two [make] panic on a negative depth and on a depth
    above 2^44, and fail on a depth for which the runtime has no memory.
    For any other depth it returns the first [depth] levels of each tree
    (all of them when there are fewer), so at most [depth] per side, bids
    in strictly descending and asks in strictly ascending price order; the
    quantity of an entry is the sum of quantity minus filled quantity over
    the queue of its level, in 64-bit arithmetic, and the exact sum when
    that fits.  Every one of these levels is emitted, whatever its
    quantity: the result is this function of the book and nothing else. *)
Theorem snapshot_emits_first_levels maxCap depth h ob :
  tree_sorted PriceLevelItem_Less (OrderBook.Bids ob) →
  tree_sorted PriceLevelItemAscending_Less (OrderBook.Asks ob) →
  (depth < 0 ∨ 2 ^ 44 < depth ∨ maxCap < depth →
   GetOrderBookSnapshot maxCap depth h ob = None) ∧
  (0 <= depth → depth <= 2 ^ 44 → depth <= maxCap →
   ∃ bids asks,
     GetOrderBookSnapshot maxCap depth h ob = Some (bids, asks) ∧
     bids = snapshotOf h <$> take (Z.to_nat depth) (OrderBook.Bids ob) ∧
     asks = snapshotOf h <$> take (Z.to_nat depth) (OrderBook.Asks ob) ∧
     Z.of_nat (length bids) <= depth ∧
     Z.of_nat (length asks) <= depth ∧
     StronglySorted Z.gt (OrderBookSnapshot.Price <$> bids) ∧
     StronglySorted Z.lt (OrderBookSnapshot.Price <$> asks) ∧
     ∀ s, s ∈ bids ++ asks →
          ∃ priceLevel,
            priceLevel ∈ OrderBook.Bids ob ++ OrderBook.Asks ob ∧
            OrderBookSnapshot.Price s = PriceLevel.Price priceLevel ∧
            OrderBookSnapshot.Quantity s
            = wrap64 (sumRemaining h (PriceLevel.Orders priceLevel)) ∧
            (int64 (sumRemaining h (PriceLevel.Orders priceLevel)) →
             OrderBookSnapshot.Quantity s
             = sumRemaining h (PriceLevel.Orders priceLevel))).
Proof.
  intros Hb Ha. split; [apply GetOrderBookSnapshot_None|].
  intros Hd H44 Hcap. rewrite GetOrderBookSnapshot_Some by done.
  rewrite !ascendSnapshot_take, Z.sub_0_r. simpl.
  eexists _, _. split; [done|]. split; [done|]. split; [done|].
  split; [rewrite length_fmap, length_take; lia|].
  split; [rewrite length_fmap, length_take; lia|].
  split.
  { rewrite <- list_fmap_compose.
    eapply StronglySorted_fmap_impl; [|by apply StronglySorted_take, Hb].
    intros a b. unfold PriceLevelItem_Less. simpl. lia. }
  split.
  { rewrite <- list_fmap_compose.
    eapply StronglySorted_fmap_impl; [|by apply StronglySorted_take, Ha].
    intros a b. unfold PriceLevelItemAscending_Less. simpl. lia. }
  intros s Hs. rewrite <- fmap_app in Hs.
  apply list_elem_of_fmap in Hs as (lvl & -> & Hl).
  exists lvl. split.
  { rewrite elem_of_app in Hl |- *.
    destruct Hl as [Hl|Hl]; [left|right];
      by apply (sublist_subseteq _ _ (sublist_take _ _)) in Hl. }
  simpl. rewrite totalQuantity_sum. split; [done|]. split; [done|].
  apply wrap64_id.
Qed.

Lemma snapshot_emits_first_levels_witness :
  GetOrderBookSnapshot 1000 10 snap_heap snap_book
  = Some ([OrderBookSnapshot.mk 15045 500],
          [OrderBookSnapshot.mk 15050 300; OrderBookSnapshot.mk 15052 400]) ∧
  GetOrderBookSnapshot 1000 1001 snap_heap snap_book = None.
Proof.
  assert (Hb : tree_sorted PriceLevelItem_Less (OrderBook.Bids snap_book))
    by (vm_compute; repeat constructor).
  assert (Ha : tree_sorted PriceLevelItemAscending_Less
                 (OrderBook.Asks snap_book))
    by (vm_compute; repeat constructor).
  split.
  - destruct (proj2 (snapshot_emits_first_levels 1000 10 snap_heap snap_book
                       Hb Ha))
      as (bids & asks & E & -> & -> & _); [lia..|].
    rewrite E. vm_compute. reflexivity.
  - apply (proj1 (snapshot_emits_first_levels 1000 1001 snap_heap snap_book
                    Hb Ha)).
    lia.
Defined.

(** The snapshot of the book that a sell of 500 at 15050 and a buy of 500 at
    15050 leave. *)
Lemma equal_quantities_levels :
  match run_equal_quantities with
  | Some (_, m) =>
      ascendSnapshot (Matcher.Heap m) 10 0 [] (OrderBook.Bids (bookOf "AAPL" m))
      = [] ∧
      ascendSnapshot (Matcher.Heap m) 10 0 [] (OrderBook.Asks (bookOf "AAPL" m))
      = [OrderBookSnapshot.mk 15050 0]
  | None => False
  end.
Proof. vm_compute. split; reflexivity. Qed.

(** C6, counterexample: after a sell of 500 at 15050 and a buy of 500 at
    15050 have traded, the snapshot of the book, wherever it finds the
    memory for ten entries, emits the ask level 15050 with the aggregate
    quantity 0. *)
Lemma snapshot_emits_zero_quantity_level :
  match run_equal_quantities with
  | Some (_, m) =>
      ∀ maxCap, 10 <= maxCap →
        GetOrderBookSnapshot maxCap 10 (Matcher.Heap m) (bookOf "AAPL" m)
        = Some ([], [OrderBookSnapshot.mk 15050 0])
  | None => False
  end.
Proof.
  pose proof equal_quantities_levels as H.
  destruct run_equal_quantities as [[? m]|]; [|done].
  destruct H as [Hb Ha]. intros maxCap Hcap.
  rewrite GetOrderBookSnapshot_Some by lia. by rewrite Hb, Ha.
Qed.

(** ** RemoveOrder and the cancel handler *)

Lemma tree_Get_None_keys p T : tree_Get p T = None ↔ p ∉ tree_keys T.
Proof.
  unfold tree_keys. induction T as [|x T IH]; simpl.
  - split; [intros _; apply not_elem_of_nil|done].
  - rewrite not_elem_of_cons.
    destruct (Z.eqb_spec (PriceLevel.Price x) p); [naive_solver|].
    rewrite IH. naive_solver.
Qed.

Lemma tree_Get_Delete p T :
  NoDup (tree_keys T) → tree_Get p (tree_Delete p T) = None.
Proof.
  unfold tree_keys. induction T as [|x T IH]; simpl; [done|].
  rewrite NoDup_cons. intros [Hx HT].
  destruct (Z.eqb_spec (PriceLevel.Price x) p) as [E|E]; simpl.
  - apply tree_Get_None_keys. by subst.
  - rewrite (proj2 (Z.eqb_neq _ _) E). auto.
Qed.

Lemma tree_keys_setOrders p q T : tree_keys (tree_setOrders p q T) = tree_keys T.
Proof.
  unfold tree_keys. induction T as [|x T IH]; simpl; [done|].
  destruct (_ =? _); simpl; by f_equal.
Qed.

Lemma tree_keys_Delete p T : tree_keys (tree_Delete p T) `sublist_of` tree_keys T.
Proof.
  unfold tree_keys. induction T as [|x T IH]; simpl; [done|].
  destruct (_ =? _); simpl; [by apply sublist_cons|by apply sublist_skip].
Qed.

Lemma removeByID_no_id h orderID q o :
  NoDup (idsOf h q) → o ∈ removeByID h orderID q →
  Order.ID (h !!! o) ≠ orderID.
Proof.
  unfold idsOf. induction q as [|x q IH]; simpl; [by rewrite elem_of_nil|].
  rewrite NoDup_cons. intros [Hx Hq].
  destruct (String.eqb_spec (Order.ID (h !!! x)) orderID) as [E|E].
  - intros Ho <-. apply Hx. rewrite E.
    apply list_elem_of_fmap. by exists o.
  - rewrite elem_of_cons. intros [->|Ho]; [done|by apply IH].
Qed.

Lemma RemoveOrder_Orders orderID h ob :
  OrderBook.Orders (RemoveOrder orderID h ob).2
  = delete orderID (OrderBook.Orders ob).
Proof.
  unfold RemoveOrder.
  destruct (OrderBook.Orders ob !! orderID) as [l|] eqn:E; simpl.
  - destruct (tree_Get _ _); simpl; [|done].
    destruct (_ =? _)%nat; simpl;
      by rewrite ?Orders_withTree, ?Orders_setLevelOrders.
  - by rewrite delete_id.
Qed.

Lemma RemoveOrder_queue orderID h ob l :
  keys_distinct ob → queue_ids_distinct h ob →
  OrderBook.Orders ob !! orderID = Some l →
  let side := Order.Side (h !!! l) in
  let price := Order.Price (h !!! l) in
  let ob' := (RemoveOrder orderID h ob).2 in
  (∀ o, o ∈ levelOrders side price ob' → Order.ID (h !!! o) ≠ orderID) ∧
  (∀ lvl, tree_Get price (treeOf side ob') = Some lvl →
          PriceLevel.Orders lvl ≠ []).
Proof.
  intros Hk Hq E side price ob'. subst ob'. unfold RemoveOrder. rewrite E.
  fold side price.
  destruct (tree_Get price (treeOf side ob)) as [lvl|] eqn:G; simpl.
  - assert (Hlvl : NoDup (idsOf h (PriceLevel.Orders lvl))).
    { apply tree_Get_Some in G as [_ G].
      by eapply Forall_forall in G; [|apply Hq]. }
    rewrite levelOrders_setLevelOrders, G.
    destruct (removeByID h orderID (PriceLevel.Orders lvl)) as [|x q] eqn:R;
      simpl.
    + unfold levelOrders.
      rewrite treeOf_with_Orders, treeOf_withTree, tree_Get_Delete.
      * split; [intros o; by rewrite elem_of_nil|done].
      * unfold setLevelOrders. rewrite treeOf_withTree.
        unfold tree_keys.
        replace (PriceLevel.Price <$> tree_setOrders price [] (treeOf side ob))
          with (PriceLevel.Price <$> treeOf side ob); [apply Hk|].
        clear. induction (treeOf side ob) as [|y T IH]; simpl; [done|].
        destruct (_ =? _); simpl; by f_equal.
    + rewrite levelOrders_with_Orders, treeOf_with_Orders.
      rewrite levelOrders_setLevelOrders, G.
      unfold setLevelOrders. rewrite treeOf_withTree, tree_Get_setOrders, G.
      simpl. split.
      * intros o Ho. eapply removeByID_no_id; [exact Hlvl|]. by rewrite R.
      * by intros ? [= <-].
  - unfold levelOrders. rewrite treeOf_with_Orders, G.
    split; [intros o; by rewrite elem_of_nil|done].
Qed.

Lemma filter_Forall_id {A} (P : A → Prop) `{!∀ x, Decision (P x)} (q : list A) :
  Forall P q → filter P q = q.
Proof.
  induction 1 as [|x q Hx _ IH]; [done|].
  by rewrite filter_cons_True, IH.
Qed.

(** Of a queue with distinct ids, [removeByID] takes out the order of the
    id and leaves every other order where it was. *)
Lemma removeByID_filter h orderID q :
  NoDup (idsOf h q) →
  removeByID h orderID q = filter (λ o, Order.ID (h !!! o) ≠ orderID) q.
Proof.
  unfold idsOf. induction q as [|x q IH]; simpl; [done|].
  rewrite NoDup_cons. intros [Hx Hq].
  destruct (String.eqb_spec (Order.ID (h !!! x)) orderID) as [E|E].
  - rewrite filter_cons_False by (intros H; by apply H).
    symmetry. apply filter_Forall_id. apply Forall_forall. intros o Ho Eo.
    apply Hx. rewrite E, <- Eo. apply list_elem_of_fmap. by exists o.
  - rewrite filter_cons_True by done. by rewrite IH.
Qed.

(** The book that [RemoveOrder] leaves for an indexed id: the queue of the
    level of the order has lost the order of that id and nothing else, every
    other level of either tree is as it was, and the levels are in the order
    in which they were. *)
Lemma RemoveOrder_exact orderID h ob l :
  keys_distinct ob → queue_ids_distinct h ob →
  OrderBook.Orders ob !! orderID = Some l →
  let side := Order.Side (h !!! l) in
  let price := Order.Price (h !!! l) in
  let ob' := (RemoveOrder orderID h ob).2 in
  levelOrders side price ob'
  = filter (λ o, Order.ID (h !!! o) ≠ orderID) (levelOrders side price ob) ∧
  (∀ side' p, side' ≠ side ∨ p ≠ price →
              tree_Get p (treeOf side' ob') = tree_Get p (treeOf side' ob)) ∧
  (∀ side', tree_keys (treeOf side' ob')
            `sublist_of` tree_keys (treeOf side' ob)) ∧
  OrderBook.Symbol ob' = OrderBook.Symbol ob.
Proof.
  intros Hk Hq E side price ob'. subst ob'.
  destruct (tree_Get price (treeOf side ob)) as [lvl|] eqn:G.
  2: { assert (EQ : levelOrders side price ob = [])
         by (unfold levelOrders; by rewrite G).
       rewrite EQ. unfold RemoveOrder. rewrite E. fold side price.
       rewrite G. simpl.
       unfold levelOrders. rewrite treeOf_with_Orders, G.
       split; [done|]. split; [intros; by rewrite treeOf_with_Orders|].
       split; [|by destruct ob]. intros side'.
       by rewrite treeOf_with_Orders. }
  assert (EQ : levelOrders side price ob = PriceLevel.Orders lvl)
    by (unfold levelOrders; by rewrite G).
  assert (Hlvl : NoDup (idsOf h (PriceLevel.Orders lvl))).
  { pose proof G as G'. apply tree_Get_Some in G' as [_ G'].
    by eapply Forall_forall in G'; [|apply Hq]. }
  rewrite EQ, <- (removeByID_filter h orderID _ Hlvl).
  unfold RemoveOrder. rewrite E. fold side price. rewrite G. simpl.
  rewrite levelOrders_setLevelOrders, G.
  set (q := removeByID h orderID (PriceLevel.Orders lvl)).
  assert (Hset : ∀ q', treeOf side (setLevelOrders side price q' ob)
                       = tree_setOrders price q' (treeOf side ob)).
  { intros q'. unfold setLevelOrders. by rewrite treeOf_withTree. }
  assert (Hother : ∀ side' T ob1, side' ≠ side →
                     treeOf side' (withTree side T ob1) = treeOf side' ob1).
  { intros side' T ob1 Hne. by apply treeOf_withTree_ne. }
  assert (Hsym : ∀ T ob1, OrderBook.Symbol (withTree side T ob1)
                          = OrderBook.Symbol ob1)
    by (intros T ob1; by destruct side).
  destruct (Nat.eqb_spec (length q) 0) as [El|El].
  - apply length_zero_iff_nil in El. split.
    { rewrite El. unfold levelOrders.
      rewrite treeOf_with_Orders, treeOf_withTree, tree_Get_Delete; [done|].
      rewrite Hset, tree_keys_setOrders. apply Hk. }
    split.
    { intros side' p Hne. rewrite treeOf_with_Orders.
      destruct (decide (side' = side)) as [->|Hs].
      - destruct Hne as [Hne|Hne]; [done|].
        rewrite treeOf_withTree, tree_Get_Delete_ne by done.
        rewrite Hset. by apply tree_Get_setOrders_ne.
      - rewrite Hother by done. unfold setLevelOrders. by rewrite Hother. }
    split.
    { intros side'. rewrite treeOf_with_Orders.
      destruct (decide (side' = side)) as [->|Hs].
      - rewrite treeOf_withTree. etrans; [apply tree_keys_Delete|].
        by rewrite Hset, tree_keys_setOrders.
      - rewrite Hother by done. unfold setLevelOrders. by rewrite Hother. }
    simpl. rewrite Hsym. unfold setLevelOrders. by rewrite Hsym.
  - split.
    { rewrite levelOrders_with_Orders, levelOrders_setLevelOrders.
      by rewrite G. }
    split.
    { intros side' p Hne. rewrite treeOf_with_Orders.
      destruct (decide (side' = side)) as [->|Hs].
      - destruct Hne as [Hne|Hne]; [done|].
        rewrite Hset. by apply tree_Get_setOrders_ne.
      - unfold setLevelOrders. by rewrite Hother. }
    split.
    { intros side'. rewrite treeOf_with_Orders.
      destruct (decide (side' = side)) as [->|Hs].
      - by rewrite Hset, tree_keys_setOrders.
      - unfold setLevelOrders. by rewrite Hother. }
    simpl. unfold setLevelOrders. by rewrite Hsym.
Qed.

Lemma findOrder_None orderID entries :
  findOrder orderID entries = None ↔
  ∀ k ob, (k, ob) ∈ entries → GetOrder orderID ob = None.
Proof.
  induction entries as [|[k ob] entries IH]; simpl.
  - split; [|done]. intros _ ??; by rewrite elem_of_nil.
  - destruct (GetOrder orderID ob) eqn:E.
    + split; [done|]. intros H. specialize (H k ob). rewrite E in H.
      exfalso. assert (Some n = None) by (apply H; left). done.
    + rewrite IH. split.
      * intros H k' ob'. rewrite elem_of_cons. intros [[= -> ->]|?]; eauto.
      * intros H k' ob' ?. apply (H k' ob'). by right.
Qed.

Lemma findOrder_Some orderID entries k ob l :
  findOrder orderID entries = Some (k, ob, l) →
  (k, ob) ∈ entries ∧ GetOrder orderID ob = Some l.
Proof.
  induction entries as [|[k' ob'] entries IH]; simpl; [done|].
  destruct (GetOrder orderID ob') eqn:E.
  - intros [= -> -> ->]. split; [left|done].
  - intros H. destruct (IH H). split; [by right|done].
Qed.

Lemma entries_lookup (entries : list (string * OrderBook.t))
    (M : gmap string OrderBook.t) k ob :
  entries ≡ₚ map_to_list M → (k, ob) ∈ entries ↔ M !! k = Some ob.
Proof. intros ->. apply elem_of_map_to_list. Qed.

(** C7: [CancelOrder] answers by what the id-maps hold.  Not found: no book
    indexes the id, and nothing changes.  Already filled: the id is indexed
    and its order is Filled, and nothing changes.  Cancelled otherwise, in
    particular for a PartialFill order: the order gets the status Cancelled
    and no other order of the heap changes; in its book the id leaves the
    id-map, the queue of its level loses the order of that id and keeps
    every other order in its place, the level is gone when that queue is
    empty, every other level of either tree is as it was, and the levels
    keep their order; no other book changes.  From then on no book indexes
    the id, so that a further cancel or a status lookup answers not found.
    The books are those of a matcher whose trees have one level per price
    and whose queues have distinct ids, with the id indexed by one book at
    most. *)
Theorem CancelOrder_outcome entries orderID m :
  entries ≡ₚ map_to_list (Matcher.OrderBooks m) →
  indexed_once orderID m →
  (∀ k ob, Matcher.OrderBooks m !! k = Some ob →
           keys_distinct ob ∧ queue_ids_distinct (Matcher.Heap m) ob) →
  let reply := (CancelOrder entries orderID m).1 in
  let m' := (CancelOrder entries orderID m).2 in
  match reply with
  | CancelNotFound =>
      m' = m ∧
      ∀ k ob, Matcher.OrderBooks m !! k = Some ob →
              GetOrder orderID ob = None
  | CancelAlreadyFilled =>
      m' = m ∧
      ∃ k ob l, Matcher.OrderBooks m !! k = Some ob ∧
                GetOrder orderID ob = Some l ∧
                Order.Status (Matcher.Heap m !!! l) = StatusFilled
  | CancelOK id =>
      id = orderID ∧
      ∃ k ob l ob',
        Matcher.OrderBooks m !! k = Some ob ∧
        GetOrder orderID ob = Some l ∧
        Order.Status (Matcher.Heap m !!! l) ≠ StatusFilled ∧
        Matcher.OrderBooks m' = <[k := ob']> (Matcher.OrderBooks m) ∧
        Matcher.Heap m'
        = <[l := SetStatus StatusCancelled (Matcher.Heap m !!! l)]>
            (Matcher.Heap m) ∧
        Order.Status (Matcher.Heap m' !!! l) = StatusCancelled ∧
        OrderBook.Orders ob' = delete orderID (OrderBook.Orders ob) ∧
        levelOrders (Order.Side (Matcher.Heap m !!! l))
          (Order.Price (Matcher.Heap m !!! l)) ob'
        = filter (λ o, Order.ID (Matcher.Heap m !!! o) ≠ orderID)
            (levelOrders (Order.Side (Matcher.Heap m !!! l))
               (Order.Price (Matcher.Heap m !!! l)) ob) ∧
        (∀ o, o ∈ levelOrders (Order.Side (Matcher.Heap m !!! l))
                    (Order.Price (Matcher.Heap m !!! l)) ob' →
              Order.ID (Matcher.Heap m !!! o) ≠ orderID) ∧
        (∀ lvl, tree_Get (Order.Price (Matcher.Heap m !!! l))
                  (treeOf (Order.Side (Matcher.Heap m !!! l)) ob') = Some lvl →
                PriceLevel.Orders lvl ≠ []) ∧
        (∀ side p,
           side ≠ Order.Side (Matcher.Heap m !!! l) ∨
           p ≠ Order.Price (Matcher.Heap m !!! l) →
           tree_Get p (treeOf side ob') = tree_Get p (treeOf side ob)) ∧
        (∀ side, tree_keys (treeOf side ob')
                 `sublist_of` tree_keys (treeOf side ob)) ∧
        OrderBook.Symbol ob' = OrderBook.Symbol ob ∧
        (∀ k' ob'', Matcher.OrderBooks m' !! k' = Some ob'' →
                    GetOrder orderID ob'' = None) ∧
        ∀ entries', entries' ≡ₚ map_to_list (Matcher.OrderBooks m') →
                    CancelOrder entries' orderID m' = (CancelNotFound, m') ∧
                    GetOrderStatus entries' orderID m' = StatusNotFound
  end ∧
  ∀ k ob l, Matcher.OrderBooks m !! k = Some ob →
            GetOrder orderID ob = Some l →
            Order.Status (Matcher.Heap m !!! l) ≠ StatusFilled →
            reply = CancelOK orderID.
Proof.
  intros Hperm Honce Hwf reply m'. subst reply m'. unfold CancelOrder.
  destruct (findOrder orderID entries) as [[[k ob] l]|] eqn:F; simpl.
  - apply findOrder_Some in F as [Hin Hget].
    rewrite (entries_lookup _ _ _ _ Hperm) in Hin.
    assert (Huniq : ∀ k' ob' l', Matcher.OrderBooks m !! k' = Some ob' →
                      GetOrder orderID ob' = Some l' → k' = k ∧ ob' = ob ∧ l' = l).
    { intros k' ob' l' H1 H2.
      assert (k' = k) as -> by (eapply Honce; eauto).
      rewrite Hin in H1. injection H1 as <-. rewrite Hget in H2.
      by injection H2 as <-. }
    unfold GetStatus.
    destruct (decide (Order.Status (Matcher.Heap m !!! l) = StatusFilled))
      as [Hs|Hs]; simpl.
    + split; [split; [done|by exists k, ob, l]|].
      intros k' ob' l' H1 H2 H3.
      destruct (Huniq _ _ _ H1 H2) as (-> & -> & ->). done.
    + split; [|done]. split; [done|].
      destruct (Hwf _ _ Hin) as [Hk Hq].
      destruct (RemoveOrder_queue orderID _ ob l Hk Hq Hget) as [Hq1 Hq2].
      destruct (RemoveOrder_exact orderID _ ob l Hk Hq Hget)
        as (Hx1 & Hx2 & Hx3 & Hx4).
      assert (Hall : ∀ k' ob'',
                <[k := (RemoveOrder orderID (Matcher.Heap m) ob).2]>
                  (Matcher.OrderBooks m) !! k' = Some ob'' →
                GetOrder orderID ob'' = None).
      { intros k' ob''. rewrite lookup_insert.
        destruct (decide (k = k')) as [->|Hne].
        - intros [= <-]. unfold GetOrder.
          by rewrite RemoveOrder_Orders, lookup_delete_eq.
        - intros H1. destruct (GetOrder orderID ob'') as [l'|] eqn:G; [|done].
          destruct (Huniq _ _ _ H1 G) as (-> & _). done. }
      exists k, ob, l, (RemoveOrder orderID (Matcher.Heap m) ob).2.
      split; [done|]. split; [done|]. split; [done|]. split; [done|].
      split; [done|]. split; [by rewrite lookup_total_insert_eq|].
      split; [apply RemoveOrder_Orders|]. split; [done|]. split; [done|].
      split; [done|]. split; [done|]. split; [done|]. split; [done|].
      split; [done|].
      intros entries' Hperm'. unfold GetOrderStatus.
      assert (findOrder orderID entries' = None) as ->; [|done].
      apply findOrder_None. intros k' ob''.
      rewrite (entries_lookup _ _ _ _ Hperm'). apply Hall.
  - split.
    + split; [done|]. intros k ob Hin.
      rewrite <- (entries_lookup _ _ _ _ Hperm) in Hin.
      by eapply findOrder_None in F.
    + intros k ob l Hin Hget _.
      rewrite <- (entries_lookup _ _ _ _ Hperm) in Hin.
      eapply findOrder_None in F; [|exact Hin]. congruence.
Qed.

Lemma CancelOrder_outcome_witness :
  let m := matcherOf run_partial_fill in
  let entries := map_to_list (Matcher.OrderBooks m) in
  GetOrder "b" (bookOf "AAPL" m) = Some 1%nat ∧
  Order.Status (Matcher.Heap m !!! 1%nat) = StatusPartialFill ∧
  (CancelOrder entries "b" m).1 = CancelOK "b" ∧
  let m2 := matcherOf run_two_asks in
  let entries2 := map_to_list (Matcher.OrderBooks m2) in
  levelOrders SideSell 15050 (bookOf "AAPL" m2) = [0%nat; 1%nat] ∧
  (CancelOrder entries2 "a1" m2).1 = CancelOK "a1" ∧
  levelOrders SideSell 15050 (bookOf "AAPL" (CancelOrder entries2 "a1" m2).2)
  = [1%nat].
Proof.
  intros m entries.
  assert (H2 : let m2 := matcherOf run_two_asks in
               let entries2 := map_to_list (Matcher.OrderBooks m2) in
               levelOrders SideSell 15050 (bookOf "AAPL" m2)
               = [0%nat; 1%nat] ∧
               (CancelOrder entries2 "a1" m2).1 = CancelOK "a1" ∧
               levelOrders SideSell 15050
                 (bookOf "AAPL" (CancelOrder entries2 "a1" m2).2)
               = [1%nat])
    by (vm_compute; repeat split; reflexivity).
  assert (E : Matcher.OrderBooks m = {["AAPL"%string := bookOf "AAPL" m]})
    by (vm_compute; reflexivity).
  assert (G : GetOrder "b" (bookOf "AAPL" m) = Some 1%nat)
    by (vm_compute; reflexivity).
  assert (S : Order.Status (Matcher.Heap m !!! 1%nat) = StatusPartialFill)
    by (vm_compute; reflexivity).
  split; [exact G|]. split; [exact S|]. split; [|exact H2].
  refine (proj2 (CancelOrder_outcome entries "b" m _ _ _)
            "AAPL"%string (bookOf "AAPL" m) 1%nat _ G _).
  - reflexivity.
  - intros k1 ob1 k2 ob2 L1 L2 _ _. rewrite E in L1, L2.
    apply lookup_singleton_Some in L1 as [<- _].
    by apply lookup_singleton_Some in L2 as [<- _].
  - intros k ob L. rewrite E in L.
    apply lookup_singleton_Some in L as [_ <-]. split.
    + intros []; compute_done.
    + intros []; compute_done.
  - rewrite E. apply lookup_singleton_eq.
  - rewrite S. discriminate.
Defined.

(** ** The matching walks *)

Lemma loop_rule {S : Type} (body : S → option (ctl S))
    (Inv Post : S → Prop) (μ : S → nat) :
  (∀ s, Inv s →
        ∃ c, body s = Some c ∧
             match c with
             | Continue s' => Inv s' ∧ (μ s' < μ s)%nat
             | Break s' => Post s'
             end) →
  ∀ fuel s, Inv s → (μ s < fuel)%nat →
            ∃ s', loop fuel body s = Some s' ∧ Post s'.
Proof.
  intros Hbody fuel. induction fuel as [|fuel IH]; intros s Hs Hμ; [lia|].
  destruct (Hbody s Hs) as ([s'|s'] & E & H); simpl; rewrite E.
  - destruct H as [H1 H2]. apply IH; [done|lia].
  - by exists s'.
Qed.

Lemma sublist_same_length {A} (l1 l2 : list A) :
  l1 `sublist_of` l2 → (length l2 ≤ length l1)%nat → l1 = l2.
Proof.
  induction 1 as [|x l1 l2 H IH|x l1 l2 H IH]; simpl; intros Hl.
  - done.
  - f_equal. apply IH. lia.
  - apply sublist_length in H. exfalso; lia.
Qed.

(** *** Orders *)

Lemma headerOf_Fill q o : headerOf (Fill q o) = headerOf o.
Proof. unfold Fill. simpl. by destruct (_ <=? _). Qed.

Lemma FilledQuantity_Fill q o :
  Order.FilledQuantity (Fill q o) = add64 (Order.FilledQuantity o) q.
Proof. unfold Fill. simpl. by destruct (_ <=? _). Qed.

Lemma Quantity_Fill q o : Order.Quantity (Fill q o) = Order.Quantity o.
Proof. unfold Fill. simpl. by destruct (_ <=? _). Qed.

Lemma headerOf_insert_Fill (h : heap) l q l' :
  headerOf (<[l := Fill q (h !!! l)]> h !!! l') = headerOf (h !!! l').
Proof.
  destruct (decide (l = l')) as [->|Hne].
  - by rewrite lookup_total_insert_eq, headerOf_Fill.
  - by rewrite lookup_total_insert_ne.
Qed.

Lemma headerOf_fields o o' :
  headerOf o = headerOf o' →
  Order.ID o = Order.ID o' ∧ Order.Side o = Order.Side o' ∧
  Order.Type_ o = Order.Type_ o' ∧ Order.Price o = Order.Price o' ∧
  Order.Quantity o = Order.Quantity o'.
Proof. unfold headerOf. by intros [= -> _ -> -> -> ->]. Qed.

(** Filling an order by all that remains of it leaves nothing. *)
Lemma Fill_all o :
  int64 (Order.Quantity o) →
  Order.FilledQuantity (Fill (RemainingQuantity o) o) = Order.Quantity o.
Proof.
  intros H. rewrite FilledQuantity_Fill. unfold add64, RemainingQuantity, sub64.
  rewrite wrap64_add_r.
  replace (Order.FilledQuantity o + (Order.Quantity o - Order.FilledQuantity o))
    with (Order.Quantity o) by lia.
  by apply wrap64_id.
Qed.

Lemma RemainingQuantity_full o :
  Order.FilledQuantity o = Order.Quantity o → RemainingQuantity o = 0.
Proof. unfold RemainingQuantity, sub64. intros ->. by rewrite Z.sub_diag. Qed.

(** *** Measures of a tree *)

Lemma queues_len_cons lvl T :
  queues_len (lvl :: T) = (length (PriceLevel.Orders lvl) + queues_len T)%nat.
Proof. unfold queues_len. simpl. by rewrite length_app. Qed.

Lemma queues_len_split p T :
  queues_len T = (queues_len (tree_Delete p T) + length (treeQueue p T))%nat.
Proof.
  unfold treeQueue. induction T as [|x T IH]; simpl; [done|].
  destruct (_ =? _); rewrite !queues_len_cons; lia.
Qed.

Lemma queues_len_Delete p T : (queues_len (tree_Delete p T) ≤ queues_len T)%nat.
Proof. rewrite (queues_len_split p T). lia. Qed.

Lemma tree_Delete_setOrders p q T :
  tree_Delete p (tree_setOrders p q T) = tree_Delete p T.
Proof.
  induction T as [|x T IH]; simpl; [done|].
  destruct (Z.eqb_spec (PriceLevel.Price x) p) as [E|E]; simpl.
  - by rewrite (proj2 (Z.eqb_eq _ _) E).
  - by rewrite (proj2 (Z.eqb_neq _ _) E), IH.
Qed.

Lemma tree_Delete_setOrders_ne p p' q T :
  p ≠ p' →
  tree_Delete p (tree_setOrders p' q T) = tree_setOrders p' q (tree_Delete p T).
Proof.
  intros Hne. induction T as [|x T IH]; simpl; [done|].
  destruct (Z.eqb_spec (PriceLevel.Price x) p') as [E|E]; simpl.
  - rewrite (proj2 (Z.eqb_neq (PriceLevel.Price x) p)) by lia. simpl.
    by rewrite (proj2 (Z.eqb_eq _ _) E).
  - destruct (Z.eqb_spec (PriceLevel.Price x) p) as [E'|E']; simpl; [done|].
    by rewrite (proj2 (Z.eqb_neq _ _) E), IH.
Qed.

Lemma tree_Delete_comm p p' T :
  tree_Delete p (tree_Delete p' T) = tree_Delete p' (tree_Delete p T)
  ∨ (queues_len (tree_Delete p (tree_Delete p' T))
     ≤ queues_len (tree_Delete p T))%nat.
Proof.
  destruct (decide (p = p')) as [->|Hne]; [by left|]. left.
  induction T as [|x T IH]; simpl; [done|].
  destruct (Z.eqb_spec (PriceLevel.Price x) p') as [E|E],
    (Z.eqb_spec (PriceLevel.Price x) p) as [E'|E']; simpl;
    rewrite ?(proj2 (Z.eqb_eq _ _) E), ?(proj2 (Z.eqb_neq _ _) E),
      ?(proj2 (Z.eqb_eq _ _) E'), ?(proj2 (Z.eqb_neq _ _) E');
    try done; try lia.
  by rewrite IH.
Qed.

Lemma queues_len_Delete_Delete p p' T :
  (queues_len (tree_Delete p (tree_Delete p' T))
   ≤ queues_len (tree_Delete p T))%nat.
Proof.
  destruct (tree_Delete_comm p p' T) as [->|H]; [|done].
  apply queues_len_Delete.
Qed.

Lemma queues_len_setOrders p q T :
  (length q ≤ length (treeQueue p T))%nat →
  (queues_len (tree_setOrders p q T) ≤ queues_len T)%nat.
Proof.
  unfold treeQueue. induction T as [|x T IH]; simpl; [done|].
  destruct (_ =? _); simpl; rewrite !queues_len_cons; simpl; [lia|].
  intros H. specialize (IH H). lia.
Qed.

Lemma treeQueue_Delete_ne p p' T :
  p ≠ p' → treeQueue p (tree_Delete p' T) = treeQueue p T.
Proof. intros. unfold treeQueue. by rewrite tree_Get_Delete_ne. Qed.

Lemma treeQueue_Delete p T :
  NoDup (tree_keys T) → treeQueue p (tree_Delete p T) = [].
Proof. intros. unfold treeQueue. by rewrite tree_Get_Delete. Qed.

Lemma levelOrders_treeQueue side p ob :
  levelOrders side p ob = treeQueue p (treeOf side ob).
Proof. done. Qed.

(** *** Books that shrink *)

Lemma tree_shrinks_refl T : tree_shrinks T T.
Proof. by repeat split. Qed.

Lemma tree_shrinks_trans T1 T2 T3 :
  tree_shrinks T1 T2 → tree_shrinks T2 T3 → tree_shrinks T1 T3.
Proof.
  intros (K1 & R1 & Q1) (K2 & R2 & Q2). repeat split.
  - etrans; [exact K1|exact K2].
  - intros p. specialize (R1 p). specialize (R2 p). lia.
  - intros p. etrans; [apply Q1|apply Q2].
Qed.

Lemma treeQueue_setOrders p q T :
  treeQueue p (tree_setOrders p q T) = if tree_Get p T is Some _ then q else [].
Proof. unfold treeQueue. rewrite tree_Get_setOrders. by destruct (tree_Get p T). Qed.

Lemma treeQueue_setOrders_ne p p' q T :
  p ≠ p' → treeQueue p (tree_setOrders p' q T) = treeQueue p T.
Proof. intros. unfold treeQueue. by rewrite tree_Get_setOrders_ne. Qed.

Lemma tree_shrinks_setOrders p q T :
  q `sublist_of` treeQueue p T → tree_shrinks (tree_setOrders p q T) T.
Proof.
  intros Hq. repeat split.
  - by rewrite tree_keys_setOrders.
  - intros p'. destruct (decide (p' = p)) as [->|Hne].
    + by rewrite tree_Delete_setOrders.
    + rewrite tree_Delete_setOrders_ne by done.
      apply queues_len_setOrders. rewrite treeQueue_Delete_ne by done.
      by apply sublist_length.
  - intros p'. destruct (decide (p' = p)) as [->|Hne].
    + rewrite treeQueue_setOrders. unfold treeQueue in *.
      destruct (tree_Get p T); [done|apply sublist_nil_l].
    + by rewrite treeQueue_setOrders_ne.
Qed.

Lemma tree_shrinks_Delete p T :
  NoDup (tree_keys T) → tree_shrinks (tree_Delete p T) T.
Proof.
  intros HT. repeat split.
  - apply tree_keys_Delete.
  - intros p'. apply queues_len_Delete_Delete.
  - intros p'. destruct (decide (p' = p)) as [->|Hne].
    + rewrite treeQueue_Delete by done. apply sublist_nil_l.
    + by rewrite treeQueue_Delete_ne.
Qed.

Lemma shrinks_refl ob : shrinks ob ob.
Proof. split; [done|]. intros; apply tree_shrinks_refl. Qed.

Lemma shrinks_trans ob1 ob2 ob3 :
  shrinks ob1 ob2 → shrinks ob2 ob3 → shrinks ob1 ob3.
Proof.
  intros [O1 T1] [O2 T2]. split; [etrans; [exact O1|exact O2]|].
  intros side. eapply tree_shrinks_trans; [apply T1|apply T2].
Qed.

Lemma shrinks_keys_distinct ob' ob :
  shrinks ob' ob → keys_distinct ob → keys_distinct ob'.
Proof.
  intros [_ H] Hk side. destruct (H side) as (K & _).
  eapply sublist_NoDup; [apply Hk|exact K].
Qed.

Lemma shrinks_withTree side T ob :
  tree_shrinks T (treeOf side ob) → shrinks (withTree side T ob) ob.
Proof.
  intros H. split; [by rewrite Orders_withTree|].
  intros side'. destruct (decide (side' = side)) as [->|Hne].
  - by rewrite treeOf_withTree.
  - rewrite treeOf_withTree_ne by done. apply tree_shrinks_refl.
Qed.

Lemma shrinks_with_Orders m ob :
  m ⊆ OrderBook.Orders ob → shrinks (OrderBook.with_Orders m ob) ob.
Proof.
  intros H. split; [done|]. intros side. rewrite treeOf_with_Orders.
  apply tree_shrinks_refl.
Qed.

Lemma shrinks_setLevelOrders side p q ob :
  q `sublist_of` levelOrders side p ob →
  shrinks (setLevelOrders side p q ob) ob.
Proof. intros H. by apply shrinks_withTree, tree_shrinks_setOrders. Qed.

Lemma shrinks_Delete side p ob :
  keys_distinct ob →
  shrinks (withTree side (tree_Delete p (treeOf side ob)) ob) ob.
Proof. intros H. apply shrinks_withTree, tree_shrinks_Delete, H. Qed.

Lemma shrinks_deleteOpposite o p ob :
  keys_distinct ob → shrinks (deleteOpposite o p ob) ob.
Proof.
  intros H. unfold deleteOpposite. destruct (Order.Side o).
  - apply (shrinks_Delete SideSell p ob H).
  - apply (shrinks_Delete SideBuy p ob H).
Qed.

Lemma removeByID_sublist h orderID q : removeByID h orderID q `sublist_of` q.
Proof.
  induction q as [|x q IH]; simpl; [done|].
  destruct (String.eqb _ _); [by apply sublist_cons|by apply sublist_skip].
Qed.

Lemma shrinks_RemoveOrder orderID h ob :
  keys_distinct ob → shrinks (RemoveOrder orderID h ob).2 ob.
Proof.
  intros Hk. unfold RemoveOrder.
  destruct (OrderBook.Orders ob !! orderID) as [l|]; simpl;
    [|apply shrinks_refl].
  set (side := Order.Side (h !!! l)). set (price := Order.Price (h !!! l)).
  destruct (tree_Get price (treeOf side ob)) as [lvl|] eqn:G; simpl.
  - set (ob1 := setLevelOrders side price _ ob).
    assert (H1 : shrinks ob1 ob).
    { apply shrinks_setLevelOrders. unfold levelOrders. rewrite G.
      apply removeByID_sublist. }
    assert (Hk1 := shrinks_keys_distinct _ _ H1 Hk).
    set (ob2 := if (length (levelOrders side price ob1) =? 0)%nat
                then _ else ob1).
    assert (H2 : shrinks ob2 ob1).
    { unfold ob2. destruct (_ =? _)%nat;
        [by apply shrinks_Delete|apply shrinks_refl]. }
    eapply shrinks_trans; [|by eapply shrinks_trans].
    apply shrinks_with_Orders, delete_subseteq.
  - apply shrinks_with_Orders, delete_subseteq.
Qed.

Lemma shrinks_levelOrders ob' ob side p :
  shrinks ob' ob → levelOrders side p ob' `sublist_of` levelOrders side p ob.
Proof. intros [_ H]. apply (H side). Qed.

Lemma shrinks_queues_len ob' ob side :
  shrinks ob' ob →
  (queues_len (treeOf side ob') ≤ queues_len (treeOf side ob))%nat.
Proof.
  intros [_ H]. destruct (H side) as (_ & R & Q).
  rewrite (queues_len_split 0 (treeOf side ob')),
    (queues_len_split 0 (treeOf side ob)).
  specialize (R 0). specialize (Q 0). apply sublist_length in Q. lia.
Qed.

Lemma shrinks_queues_len_lt ob' ob side p :
  shrinks ob' ob →
  levelOrders side p ob' = [] → levelOrders side p ob ≠ [] →
  (queues_len (treeOf side ob') < queues_len (treeOf side ob))%nat.
Proof.
  intros [_ H] E' E. destruct (H side) as (_ & R & _).
  rewrite (queues_len_split p (treeOf side ob')),
    (queues_len_split p (treeOf side ob)).
  specialize (R p). rewrite levelOrders_treeQueue in E', E. rewrite E'.
  destruct (treeQueue p (treeOf side ob)); [done|]. simpl. lia.
Qed.

Lemma shrinks_not_queued ob' ob (l : loc) :
  shrinks ob' ob →
  (∀ side p, l ∉ levelOrders side p ob) →
  ∀ side p, l ∉ levelOrders side p ob'.
Proof.
  intros H Hl side p Hin. apply (Hl side p).
  eapply sublist_subseteq; [|exact Hin]. by apply shrinks_levelOrders.
Qed.

Lemma shrinks_not_indexed ob' ob (l : loc) :
  shrinks ob' ob →
  (∀ id, OrderBook.Orders ob !! id ≠ Some l) →
  ∀ id, OrderBook.Orders ob' !! id ≠ Some l.
Proof.
  intros [H _] Hl id E. apply (Hl id). by eapply lookup_weaken.
Qed.

Lemma bestOf_cases h T :
  (bestOf h T).2 = false ∨
  ∃ lvl, bestOf h T = (PriceLevel.Price lvl,
                       totalQuantity h (PriceLevel.Orders lvl), true) ∧
         tree_Get (PriceLevel.Price lvl) T = Some lvl ∧
         PriceLevel.Orders lvl ≠ [].
Proof.
  unfold bestOf, tree_Len. destruct T as [|lvl T]; simpl; [by left|].
  destruct (PriceLevel.Orders lvl) as [|r q] eqn:E; simpl; [by left|].
  right. exists lvl. rewrite E, Z.eqb_refl. done.
Qed.

Lemma oppositeTree_treeOf side ob :
  oppositeTree side ob = treeOf (opposite side) ob.
Proof. by destruct side. Qed.


Lemma dropHead_cons (x : loc) q : dropHead (x :: q) = q.
Proof. unfold dropHead. by destruct q. Qed.

Lemma dropHead_sublist q : dropHead q `sublist_of` q.
Proof. destruct q; [done|]. rewrite dropHead_cons. by apply sublist_cons. Qed.

Lemma dropHead_length q : q ≠ [] → (length (dropHead q) < length q)%nat.
Proof. destruct q; [done|]. rewrite dropHead_cons. simpl. lia. Qed.

Section walk.
Variables (l : loc) (h0 : heap) (ob0 : OrderBook.t) (limit : bool).
Hypothesis Hkeys : keys_distinct ob0.
Hypothesis Hfresh : ∀ side p, l ∉ levelOrders side p ob0.
Hypothesis Hint : ∀ l', int64 (Order.Quantity (h0 !!! l')).

Local Abbreviation order := (h0 !!! l).
Local Abbreviation bestSide := (opposite (Order.Side (h0 !!! l))).
Local Abbreviation Inv := (walk_inv l h0 ob0 limit).

Lemma walk_inv_with_book ob s :
  Inv s → shrinks ob (w_book s) → Inv (with_book ob s).
Proof.
  intros [] Hs. split; simpl; try done. by eapply shrinks_trans.
Qed.

Lemma walk_inv_keys s : Inv s → keys_distinct (w_book s).
Proof. intros []. by eapply shrinks_keys_distinct. Qed.

Lemma walk_inv_fresh s side p : Inv s → l ∉ levelOrders side p (w_book s).
Proof. intros []. by eapply shrinks_not_queued. Qed.

Lemma walk_inv_side s : Inv s → Order.Side (w_heap s !!! l) = Order.Side order.
Proof. intros []. by destruct (headerOf_fields _ _ (wi_header0 l)) as (_&?&_). Qed.

Lemma walk_inv_filled_iff s :
  Inv s → IsFilled (w_heap s !!! l) = (w_remainingQty s <=? 0).
Proof.
  intros []. unfold IsFilled.
  destruct (headerOf_fields _ _ (wi_header0 l)) as (_&_&_&_&->).
  rewrite wi_filled0, wi_remaining0.
  destruct (Z.leb_spec (Order.Quantity order) (w_filled s)),
    (Z.leb_spec (Order.Quantity order - w_filled s) 0); lia.
Qed.

(** The state after an execution of [e] units against the resting order
    [r]. *)
Lemma walk_inv_trade s r p e :
  Inv s → crosses limit order p →
  r ∈ levelOrders bestSide p (w_book s) →
  0 < e → e <= w_remainingQty s →
  let h := w_heap s in
  let h1 := <[l := Fill e (h !!! l)]> h in
  let h2 := <[r := Fill e (h1 !!! r)]> h1 in
  let t := newTrade (h !!! l) (h !!! r) p e in
  add64 (w_filled s) e = w_filled s + e ∧
  sub64 (Order.Quantity (h2 !!! l)) (Order.FilledQuantity (h2 !!! l))
  = w_remainingQty s - e ∧
  sub64 (w_remainingQty s) e = w_remainingQty s - e ∧
  Inv (Walk h2 (w_book s) (w_trades s ++ [t]) (w_filled s + e)
         (w_remainingQty s - e)) ∧
  (e = RemainingQuantity (h !!! r) →
   IsFilled (h2 !!! r) = true ∧ RemainingQuantity (h2 !!! r) = 0).
Proof.
  intros HI Hx Hr He1 He2 h h1 h2 t.
  assert (Hrl : r ≠ l).
  { intros ->. by eapply walk_inv_fresh in Hr. }
  pose proof HI as [Hh Hf Hrem Hn Hb Hs Ht].
  assert (Hh2 : ∀ l', headerOf (h2 !!! l') = headerOf (h0 !!! l')).
  { intros l'. unfold h2. rewrite headerOf_insert_Fill. unfold h1.
    by rewrite headerOf_insert_Fill. }
  assert (Hl2 : h2 !!! l = Fill e (h !!! l)).
  { unfold h2. rewrite lookup_total_insert_ne by done. unfold h1.
    by rewrite lookup_total_insert_eq. }
  assert (Hr2 : h2 !!! r = Fill e (h !!! r)).
  { unfold h2. rewrite lookup_total_insert_eq. unfold h1.
    by rewrite lookup_total_insert_ne. }
  pose proof (Hint l) as HQ. unfold int64 in HQ.
  assert (Ha : add64 (w_filled s) e = w_filled s + e).
  { apply wrap64_id. unfold int64. lia. }
  assert (HF2 : Order.FilledQuantity (h2 !!! l) = w_filled s + e).
  { rewrite Hl2, FilledQuantity_Fill. unfold h. by rewrite Hf. }
  assert (HQ2 : Order.Quantity (h2 !!! l) = Order.Quantity order).
  { by destruct (headerOf_fields _ _ (Hh2 l)) as (_&_&_&_&?). }
  split; [done|]. split.
  { rewrite HF2, HQ2. unfold sub64. rewrite wrap64_id; unfold int64; lia. }
  split; [unfold sub64; rewrite wrap64_id; unfold int64; lia|]. split.
  - split; simpl; try done; try lia.
    apply Forall_app. split; [done|]. apply Forall_singleton.
    exists r. unfold t, newTrade.
    destruct (headerOf_fields _ _ (Hh l)) as (E1&E2&_&_&_).
    destruct (headerOf_fields _ _ (Hh r)) as (E3&_).
    fold h in E1, E2, E3. rewrite E1, E2, E3.
    pose proof (shrinks_levelOrders _ _ bestSide p Hs) as Hsub.
    apply (sublist_subseteq _ _ Hsub) in Hr.
    unfold crosses in Hx. destruct (Order.Side order); simpl; auto.
  - intros ->. rewrite Hr2.
    assert (Order.FilledQuantity (Fill (RemainingQuantity (h !!! r)) (h !!! r))
            = Order.Quantity (h !!! r)) as E.
    { apply Fill_all.
      destruct (headerOf_fields _ _ (Hh r)) as (_&_&_&_&E'). unfold h.
      rewrite E'. apply Hint. }
    split.
    + unfold IsFilled. rewrite E, Quantity_Fill. lia.
    + apply RemainingQuantity_full. by rewrite Quantity_Fill.
Qed.

Lemma levelOrders_cons_Get side p ob r q :
  levelOrders side p ob = r :: q → is_Some (tree_Get p (treeOf side ob)).
Proof. unfold levelOrders. destruct (tree_Get _ _); [by eexists|done]. Qed.

Lemma levelOrders_dropHead side p ob r q :
  levelOrders side p ob = r :: q →
  levelOrders side p (setLevelOrders side p (dropHead (r :: q)) ob) = q.
Proof.
  intros E. rewrite levelOrders_setLevelOrders, dropHead_cons.
  by destruct (levelOrders_cons_Get _ _ _ _ _ E) as [? ->].
Qed.

Lemma headLive_le h q : (headLive h q ≤ 1)%nat.
Proof. destruct q; simpl; [lia|]. destruct (_ <=? _); lia. Qed.

Lemma deleteOpposite_withTree o p ob :
  deleteOpposite o p ob
  = withTree (opposite (Order.Side o))
      (tree_Delete p (treeOf (opposite (Order.Side o)) ob)) ob.
Proof. unfold deleteOpposite. by destruct (Order.Side o). Qed.

(** One round of the loop of [matchLimitOrder] over a price level. *)
Lemma limitLevelBody_step p s :
  Inv s → crosses limit order p →
  ∃ c, limitLevelBody l bestSide p s = Some c ∧
       match c with
       | Continue s' =>
           Inv s' ∧ shrinks (w_book s') (w_book s) ∧
           (levelMeasure bestSide p s' < levelMeasure bestSide p s)%nat
       | Break s' =>
           Inv s' ∧ shrinks (w_book s') (w_book s) ∧
           (0 < w_remainingQty s' → levelOrders bestSide p (w_book s') = [])
       end.
Proof.
  intros HI Hx. unfold limitLevelBody.
  rewrite (walk_inv_filled_iff s HI).
  destruct (Z.ltb_spec 0 (w_remainingQty s)) as [Hrem|Hrem]; simpl.
  2: { eexists. split; [done|]. split; [done|]. split; [apply shrinks_refl|lia]. }
  rewrite (proj2 (Z.leb_gt _ _) Hrem). simpl.
  destruct (levelOrders bestSide p (w_book s)) as [|r q] eqn:Eq.
  { eexists. split; [done|]. split; [done|]. split; [apply shrinks_refl|done]. }
  assert (Hr : r ∈ levelOrders bestSide p (w_book s)) by (rewrite Eq; left).
  destruct (Z.leb_spec (RemainingQuantity (w_heap s !!! r)) 0) as [Hrr|Hrr].
  { (* the head of the queue has nothing left *)
    eexists. split; [done|]. simpl.
    assert (Hs : shrinks (setLevelOrders bestSide p (dropHead (r :: q))
                            (w_book s)) (w_book s)).
    { apply shrinks_setLevelOrders. rewrite Eq. apply dropHead_sublist. }
    split; [by apply walk_inv_with_book|]. split; [done|].
    unfold levelMeasure. simpl.
    rewrite !(levelOrders_dropHead _ _ _ _ _ Eq), Eq. simpl.
    rewrite (proj2 (Z.leb_le _ _) Hrr).
    pose proof (headLive_le (w_heap s) q). lia. }
  set (e := if w_remainingQty s >? RemainingQuantity (w_heap s !!! r)
            then RemainingQuantity (w_heap s !!! r) else w_remainingQty s).
  assert (He : 0 < e ∧ e <= w_remainingQty s ∧
               e <= RemainingQuantity (w_heap s !!! r) ∧
               (e < w_remainingQty s → e = RemainingQuantity (w_heap s !!! r))).
  { unfold e. destruct (Z.gtb_spec (w_remainingQty s)
                          (RemainingQuantity (w_heap s !!! r))); lia. }
  destruct He as (He1 & He2 & He3 & He4).
  rewrite (proj2 (Z.leb_gt _ _) He1).
  destruct (walk_inv_trade s r p e HI Hx Hr He1 He2)
    as (Ea & Er & _ & HI2 & Hfull).
  set (h1 := <[l := Fill e (w_heap s !!! l)]> (w_heap s)) in *.
  set (h2 := <[r := Fill e (h1 !!! r)]> h1) in *.
  rewrite Ea, Er.
  set (s2 := Walk h2 (w_book s) _ _ _) in *.
  pose proof (walk_inv_filled_iff s2 HI2) as Hif. simpl in Hif.
  rewrite Hif, orb_diag.
  destruct (Z.leb_spec (w_remainingQty s - e) 0) as [Hrem2|Hrem2].
  { eexists. split; [done|]. split; [done|].
    split; [apply shrinks_refl|simpl; lia]. }
  destruct (Hfull (He4 ltac:(lia))) as [Hf2 Hr2]. rewrite Hf2.
  set (ob1 := (RemoveOrder (Order.ID (h2 !!! r)) h2 (w_book s)).2).
  assert (Hs1 : shrinks ob1 (w_book s)).
  { apply shrinks_RemoveOrder. by eapply walk_inv_keys. }
  pose proof (walk_inv_with_book ob1 s2 HI2 Hs1) as HI3.
  destruct (Nat.eqb_spec (length (levelOrders bestSide p ob1)) 0) as [El|El].
  - eexists. split; [done|].
    assert (Hs2 : shrinks (deleteOpposite (h2 !!! l) p ob1) ob1).
    { apply shrinks_deleteOpposite.
      eapply shrinks_keys_distinct; [exact Hs1|by eapply walk_inv_keys]. }
    split; [by apply (walk_inv_with_book _ _ HI3)|].
    split; [by eapply shrinks_trans|]. intros _. simpl.
    apply sublist_nil_r. apply length_zero_iff_nil in El. rewrite <- El.
    by apply shrinks_levelOrders.
  - eexists. split; [done|]. split; [done|]. split; [done|].
    unfold levelMeasure. simpl. rewrite Eq. simpl.
    rewrite (proj2 (Z.leb_gt _ _) Hrr).
    pose proof (shrinks_levelOrders _ _ bestSide p Hs1) as Hsub.
    rewrite Eq in Hsub.
    destruct (decide (length (levelOrders bestSide p ob1) < length (r :: q))%nat)
      as [Hlt|Hge].
    + pose proof (headLive_le h2 (levelOrders bestSide p ob1)).
      simpl in Hlt. lia.
    + rewrite (sublist_same_length _ _ Hsub) by lia. simpl.
      rewrite Hr2. simpl. lia.
Qed.

(** One round of the inner loop of [matchMarketOrder]. *)
Lemma marketLevelBody_step p s :
  Inv s → crosses limit order p →
  ∃ c, marketLevelBody l bestSide p s = Some c ∧
       match c with
       | Continue s' =>
           Inv s' ∧ shrinks (w_book s') (w_book s) ∧
           (levelMeasure bestSide p s' < levelMeasure bestSide p s)%nat
       | Break s' =>
           Inv s' ∧ shrinks (w_book s') (w_book s) ∧
           (0 < w_remainingQty s' → levelOrders bestSide p (w_book s') = [])
       end.
Proof.
  intros HI Hx. unfold marketLevelBody.
  destruct (Z.ltb_spec 0 (w_remainingQty s)) as [Hrem|Hrem]; simpl.
  2: { eexists. split; [done|]. split; [done|]. split; [apply shrinks_refl|lia]. }
  destruct (levelOrders bestSide p (w_book s)) as [|r q] eqn:Eq.
  { eexists. split; [done|]. split; [done|]. split; [apply shrinks_refl|done]. }
  assert (Hr : r ∈ levelOrders bestSide p (w_book s)) by (rewrite Eq; left).
  destruct (Z.leb_spec (RemainingQuantity (w_heap s !!! r)) 0) as [Hrr|Hrr].
  { eexists. split; [done|]. simpl.
    assert (Hs : shrinks (setLevelOrders bestSide p (dropHead (r :: q))
                            (w_book s)) (w_book s)).
    { apply shrinks_setLevelOrders. rewrite Eq. apply dropHead_sublist. }
    split; [by apply walk_inv_with_book|]. split; [done|].
    unfold levelMeasure. simpl.
    rewrite !(levelOrders_dropHead _ _ _ _ _ Eq), Eq. simpl.
    rewrite (proj2 (Z.leb_le _ _) Hrr).
    pose proof (headLive_le (w_heap s) q). lia. }
  set (e := if w_remainingQty s >? RemainingQuantity (w_heap s !!! r)
            then RemainingQuantity (w_heap s !!! r) else w_remainingQty s).
  assert (He : 0 < e ∧ e <= w_remainingQty s ∧
               e <= RemainingQuantity (w_heap s !!! r) ∧
               (e < w_remainingQty s → e = RemainingQuantity (w_heap s !!! r))).
  { unfold e. destruct (Z.gtb_spec (w_remainingQty s)
                          (RemainingQuantity (w_heap s !!! r))); lia. }
  destruct He as (He1 & He2 & He3 & He4).
  destruct (walk_inv_trade s r p e HI Hx Hr He1 He2)
    as (Ea & _ & Er & HI2 & Hfull).
  set (h1 := <[l := Fill e (w_heap s !!! l)]> (w_heap s)) in *.
  set (h2 := <[r := Fill e (h1 !!! r)]> h1) in *.
  rewrite Ea, Er.
  set (s2 := Walk h2 (w_book s) _ _ _) in *.
  set (obR := (RemoveOrder (Order.ID (h2 !!! r)) h2 (w_book s)).2).
  assert (HsR : shrinks obR (w_book s)).
  { apply shrinks_RemoveOrder. by eapply walk_inv_keys. }
  set (obD := setLevelOrders bestSide p
                (dropHead (levelOrders bestSide p obR)) obR).
  assert (HsD : shrinks obD (w_book s)).
  { eapply shrinks_trans; [|exact HsR].
    apply shrinks_setLevelOrders, dropHead_sublist. }
  set (ob1 := if IsFilled (h2 !!! r) then obD else w_book s).
  assert (Hs1 : shrinks ob1 (w_book s)).
  { unfold ob1. destruct (IsFilled _); [done|apply shrinks_refl]. }
  pose proof (walk_inv_with_book ob1 s2 HI2 Hs1) as HI3.
  destruct (Z.leb_spec (w_remainingQty s - e) 0) as [Hrem2|Hrem2].
  { eexists. split; [done|]. split; [done|]. split; [done|simpl; lia]. }
  destruct (Nat.eqb_spec (length (levelOrders bestSide p ob1)) 0) as [El|El].
  - eexists. split; [done|].
    assert (Hs2 : shrinks (deleteOpposite (h2 !!! l) p ob1) ob1).
    { apply shrinks_deleteOpposite.
      eapply shrinks_keys_distinct; [exact Hs1|by eapply walk_inv_keys]. }
    split; [by apply (walk_inv_with_book _ _ HI3)|].
    split; [by eapply shrinks_trans|]. intros _. simpl.
    apply sublist_nil_r. apply length_zero_iff_nil in El. rewrite <- El.
    by apply shrinks_levelOrders.
  - eexists. split; [done|]. split; [done|]. split; [done|].
    unfold levelMeasure. simpl. rewrite Eq. simpl.
    rewrite (proj2 (Z.leb_gt _ _) Hrr).
    destruct (Hfull (He4 ltac:(lia))) as [Hf2 _].
    unfold ob1 in *. rewrite Hf2 in *.
    pose proof (shrinks_levelOrders _ _ bestSide p HsR) as Hsub.
    rewrite Eq in Hsub. apply sublist_length in Hsub. simpl in Hsub.
    unfold obD in *. rewrite levelOrders_setLevelOrders in *.
    destruct (tree_Get p (treeOf bestSide obR)); [|done].
    destruct (levelOrders bestSide p obR) as [|x qR]; [done|].
    rewrite dropHead_cons in *. simpl in Hsub.
    pose proof (headLive_le h2 qR). lia.
Qed.

(** The loops over a price level end, within the rounds granted. *)
Lemma level_loop body p s :
  (∀ s, Inv s → crosses limit order p →
        ∃ c, body s = Some c ∧
             match c with
             | Continue s' =>
                 Inv s' ∧ shrinks (w_book s') (w_book s) ∧
                 (levelMeasure bestSide p s' < levelMeasure bestSide p s)%nat
             | Break s' =>
                 Inv s' ∧ shrinks (w_book s') (w_book s) ∧
                 (0 < w_remainingQty s' →
                  levelOrders bestSide p (w_book s') = [])
             end) →
  Inv s → crosses limit order p →
  ∃ s', loop (levelFuel (levelOrders bestSide p (w_book s))) body s = Some s' ∧
        Inv s' ∧ shrinks (w_book s') (w_book s) ∧
        (0 < w_remainingQty s' → levelOrders bestSide p (w_book s') = []).
Proof.
  intros Hbody HI Hx.
  apply (loop_rule body
           (λ s', Inv s' ∧ shrinks (w_book s') (w_book s))
           (λ s', Inv s' ∧ shrinks (w_book s') (w_book s) ∧
                  (0 < w_remainingQty s' →
                   levelOrders bestSide p (w_book s') = []))
           (levelMeasure bestSide p)).
  - intros s1 [HI1 Hs1]. destruct (Hbody s1 HI1 Hx) as (c & E & H).
    exists c. split; [done|]. destruct c as [s'|s'].
    + destruct H as (? & ? & ?). split; [|done]. split; [done|].
      by eapply shrinks_trans.
    + destruct H as (? & ? & ?). split; [done|]. split; [|done].
      by eapply shrinks_trans.
  - split; [done|apply shrinks_refl].
  - unfold levelMeasure, levelFuel.
    pose proof (headLive_le (w_heap s) (levelOrders bestSide p (w_book s))).
    lia.
Qed.

(** One round of the loop of [matchLimitOrder] over the levels. *)
Lemma limitBody_step s :
  Inv s →
  ∃ c, limitBody l s = Some c ∧
       match c with
       | Continue s' =>
           Inv s' ∧ (walkMeasure bestSide s' < walkMeasure bestSide s)%nat
       | Break s' => Inv s'
       end.
Proof.
  intros HI. unfold limitBody.
  destruct (Z.ltb_spec 0 (w_remainingQty s)) as [Hrem|Hrem]; simpl;
    [|by eexists].
  rewrite (walk_inv_side s HI).
  destruct (headerOf_fields _ _ (wi_header _ _ _ _ _ HI l)) as (_&_&_&EP&_).
  rewrite EP.
  pose proof (λ p, level_loop (limitLevelBody l bestSide p) p s
                     (limitLevelBody_step p)) as Hloop.
  pose proof (λ s' p, shrinks_queues_len_lt (w_book s') (w_book s) bestSide p)
    as Hlt.
  unfold walkMeasure. rewrite (proj2 (Z.ltb_lt _ _) Hrem).
  unfold crosses in Hloop.
  destruct (Order.Side order) eqn:ES; simpl in Hloop, Hlt |- *.
  - unfold GetBestAsk, GetPriceLevelForAsk.
    destruct (bestOf_cases (w_heap s) (OrderBook.Asks (w_book s)))
      as [E|(lvl & E & G & Hne)].
    { destruct (bestOf _ _) as [[? ?] ?]. simpl in E. subst. by eexists. }
    rewrite E. simpl.
    destruct (Z.ltb_spec (Order.Price order) (PriceLevel.Price lvl));
      [by eexists|].
    rewrite G.
    destruct (Hloop (PriceLevel.Price lvl) HI ltac:(done))
      as (s' & El & HI' & Hs' & Hq').
    unfold levelOrders in El at 1. simpl in El. rewrite G in El.
    rewrite El. simpl.
    destruct (Z.leb_spec (w_remainingQty s') 0) as [H'|H'];
      eexists; (split; [done|]); [done|].
    split; [done|]. rewrite (proj2 (Z.ltb_lt _ _) H').
    assert (queues_len (OrderBook.Asks (w_book s'))
            < queues_len (OrderBook.Asks (w_book s)))%nat; [|lia].
    apply (Hlt s' (PriceLevel.Price lvl) Hs' (Hq' H')).
    unfold levelOrders. simpl. by rewrite G.
  - unfold GetBestBid, GetPriceLevelForBid.
    destruct (bestOf_cases (w_heap s) (OrderBook.Bids (w_book s)))
      as [E|(lvl & E & G & Hne)].
    { destruct (bestOf _ _) as [[? ?] ?]. simpl in E. subst. by eexists. }
    rewrite E. simpl.
    destruct (Z.gtb_spec (Order.Price order) (PriceLevel.Price lvl));
      [by eexists|].
    rewrite G.
    destruct (Hloop (PriceLevel.Price lvl) HI ltac:(intros; lia))
      as (s' & El & HI' & Hs' & Hq').
    unfold levelOrders in El at 1. simpl in El. rewrite G in El.
    rewrite El. simpl.
    destruct (Z.leb_spec (w_remainingQty s') 0) as [H'|H'];
      eexists; (split; [done|]); [done|].
    split; [done|]. rewrite (proj2 (Z.ltb_lt _ _) H').
    assert (queues_len (OrderBook.Bids (w_book s'))
            < queues_len (OrderBook.Bids (w_book s)))%nat; [|lia].
    apply (Hlt s' (PriceLevel.Price lvl) Hs' (Hq' H')).
    unfold levelOrders. simpl. by rewrite G.
Qed.

(** One round of the outer loop of [matchMarketOrder]. *)
Lemma marketBody_step s :
  Inv s → limit = false →
  ∃ c, marketBody l s = Some c ∧
       match c with
       | Continue s' =>
           Inv s' ∧ (walkMeasure bestSide s' < walkMeasure bestSide s)%nat
       | Break s' => Inv s'
       end.
Proof.
  intros HI Hlim. unfold marketBody.
  destruct (Z.ltb_spec 0 (w_remainingQty s)) as [Hrem|Hrem]; simpl;
    [|by eexists].
  rewrite (walk_inv_side s HI).
  pose proof (λ p, level_loop (marketLevelBody l bestSide p) p s
                     (marketLevelBody_step p)) as Hloop.
  pose proof (λ s' p, shrinks_queues_len_lt (w_book s') (w_book s) bestSide p)
    as Hlt.
  pose proof (λ s', shrinks_queues_len (w_book s') (w_book s) bestSide)
    as Hle.
  unfold walkMeasure. rewrite (proj2 (Z.ltb_lt _ _) Hrem).
  unfold crosses in Hloop.
  destruct (Order.Side order) eqn:ES; simpl in Hloop, Hlt, Hle |- *.
  - unfold GetBestAsk, GetPriceLevelForAsk.
    destruct (bestOf_cases (w_heap s) (OrderBook.Asks (w_book s)))
      as [E|(lvl & E & G & Hne)].
    { destruct (bestOf _ _) as [[? ?] ?]. simpl in E. subst. by eexists. }
    rewrite E. simpl. rewrite G.
    destruct (Hloop (PriceLevel.Price lvl) HI ltac:(congruence))
      as (s' & El & HI' & Hs' & Hq').
    unfold levelOrders in El at 1. simpl in El. rewrite G in El.
    rewrite El. simpl. eexists. split; [done|]. split; [done|].
    destruct (Z.ltb_spec 0 (w_remainingQty s')) as [H'|H'].
    + assert (queues_len (OrderBook.Asks (w_book s'))
              < queues_len (OrderBook.Asks (w_book s)))%nat; [|lia].
      apply (Hlt s' (PriceLevel.Price lvl) Hs' (Hq' H')).
      unfold levelOrders. simpl. by rewrite G.
    + specialize (Hle s' Hs'). lia.
  - unfold GetBestBid, GetPriceLevelForBid.
    destruct (bestOf_cases (w_heap s) (OrderBook.Bids (w_book s)))
      as [E|(lvl & E & G & Hne)].
    { destruct (bestOf _ _) as [[? ?] ?]. simpl in E. subst. by eexists. }
    rewrite E. simpl. rewrite G.
    destruct (Hloop (PriceLevel.Price lvl) HI ltac:(congruence))
      as (s' & El & HI' & Hs' & Hq').
    unfold levelOrders in El at 1. simpl in El. rewrite G in El.
    rewrite El. simpl. eexists. split; [done|]. split; [done|].
    destruct (Z.ltb_spec 0 (w_remainingQty s')) as [H'|H'].
    + assert (queues_len (OrderBook.Bids (w_book s'))
              < queues_len (OrderBook.Bids (w_book s)))%nat; [|lia].
      apply (Hlt s' (PriceLevel.Price lvl) Hs' (Hq' H')).
      unfold levelOrders. simpl. by rewrite G.
    + specialize (Hle s' Hs'). lia.
Qed.

Hypothesis Hfilled0 : Order.FilledQuantity order = 0.

Lemma walk_inv_start :
  Inv (Walk h0 ob0 [] 0 (Order.Quantity order)).
Proof.
  split; simpl; [done|done|lia|lia|by left|apply shrinks_refl|done].
Qed.

(** The walks end within the rounds granted, in a state of the invariant. *)
Lemma walk_loop body :
  (∀ s, Inv s →
        ∃ c, body s = Some c ∧
             match c with
             | Continue s' =>
                 Inv s' ∧
                 (walkMeasure bestSide s' < walkMeasure bestSide s)%nat
             | Break s' => Inv s'
             end) →
  ∃ s', loop (treeFuel (oppositeTree (Order.Side order) ob0)) body
          (Walk h0 ob0 [] 0 (Order.Quantity order)) = Some s' ∧
        Inv s'.
Proof.
  intros Hbody.
  apply (loop_rule body Inv Inv (walkMeasure bestSide) Hbody).
  - apply walk_inv_start.
  - unfold walkMeasure, treeFuel. simpl. rewrite oppositeTree_treeOf.
    unfold queues_len. destruct (0 <? _); lia.
Qed.

End walk.

(** ** Outcome of a limit order and prices of the trades *)

Lemma heap_typed_int64 h l : heap_typed h → int64 (Order.Quantity (h !!! l)).
Proof.
  intros H. rewrite lookup_total_alt.
  destruct (h !! l) as [o|] eqn:E; simpl.
  - by eapply map_Forall_lookup_1 in H.
  - unfold int64. simpl. lia.
Qed.

Lemma elem_of_concat_levels (l : loc) (T : btree) :
  l ∈ concat (PriceLevel.Orders <$> T) ↔
  ∃ lvl, lvl ∈ T ∧ l ∈ PriceLevel.Orders lvl.
Proof.
  induction T as [|x T IH]; simpl.
  - split; [by rewrite elem_of_nil|]. intros (? & H & _). by apply elem_of_nil in H.
  - rewrite elem_of_app, IH. split.
    + intros [H|(lvl & H1 & H2)]; [exists x; split; [left|done]|].
      exists lvl. split; [by right|done].
    + intros (lvl & H1 & H2). apply elem_of_cons in H1 as [->|H1]; [by left|].
      right. by exists lvl.
Qed.

Lemma not_in_book_queued l ob side p :
  ¬ in_book l ob → l ∉ levelOrders side p ob.
Proof.
  intros H Hin. apply H. unfold in_book, queuedOrders.
  rewrite !elem_of_app, !elem_of_concat_levels. left.
  unfold levelOrders in Hin.
  destruct (tree_Get p (treeOf side ob)) as [lvl|] eqn:G;
    [|by apply elem_of_nil in Hin].
  apply tree_Get_Some in G as [_ G]. destruct side; [left|right]; by exists lvl.
Qed.

Lemma not_in_book_indexed l ob id :
  ¬ in_book l ob → OrderBook.Orders ob !! id ≠ Some l.
Proof.
  intros H E. apply H. unfold in_book, indexedOrders.
  rewrite elem_of_app. right. apply list_elem_of_fmap.
  exists (id, l). split; [done|]. by apply elem_of_map_to_list.
Qed.

Lemma tree_Get_elem T lvl :
  NoDup (tree_keys T) → lvl ∈ T →
  tree_Get (PriceLevel.Price lvl) T = Some lvl.
Proof.
  unfold tree_keys. induction T as [|x T IH]; simpl.
  - intros _ H. by apply elem_of_nil in H.
  - rewrite NoDup_cons. intros [Hx HT] H.
    apply elem_of_cons in H as [->|H]; [by rewrite Z.eqb_refl|].
    destruct (Z.eqb_spec (PriceLevel.Price x) (PriceLevel.Price lvl)) as [E|E];
      [|by apply IH].
    exfalso. apply Hx. rewrite E. apply list_elem_of_fmap. by exists lvl.
Qed.

Lemma in_book_pointwise l ob :
  keys_distinct ob →
  (∀ side p, l ∉ levelOrders side p ob) →
  (∀ id, OrderBook.Orders ob !! id ≠ Some l) →
  ¬ in_book l ob.
Proof.
  intros Hk Hq Hi. unfold in_book, queuedOrders, indexedOrders.
  rewrite !elem_of_app, !elem_of_concat_levels.
  intros [[(lvl & H1 & H2)|(lvl & H1 & H2)]|H].
  - apply (Hq SideBuy (PriceLevel.Price lvl)). unfold levelOrders.
    by rewrite (tree_Get_elem _ _ (Hk SideBuy) H1).
  - apply (Hq SideSell (PriceLevel.Price lvl)). unfold levelOrders.
    by rewrite (tree_Get_elem _ _ (Hk SideSell) H1).
  - apply list_elem_of_fmap in H as ([id l'] & -> & H).
    apply elem_of_map_to_list in H. by apply (Hi id).
Qed.

(** C1: a limit order that is new to the book (nothing filled, a positive
    quantity, not held by the book) is matched and the result is one of
    three: nothing filled, status Accepted, and the order is indexed and is
    the last of the queue of the level of its side and price; filled in
    part, status PartialFill, and the order, with what remains of it, is
    indexed and is the last of that queue; filled in full, status Filled,
    and the order is in no queue and under no id of the book. *)
Theorem matchLimitOrder_outcome l h ob :
  keys_distinct ob → ¬ in_book l ob → heap_typed h →
  Order.FilledQuantity (h !!! l) = 0 → 0 < Order.Quantity (h !!! l) →
  ∃ result h' ob',
    matchLimitOrder l h ob = Some (Matched result, h', ob') ∧
    let order := h !!! l in
    let filled := MatchResult.FilledQuantity result in
    0 <= filled <= Order.Quantity order ∧
    MatchResult.RemainingQuantity result = Order.Quantity order - filled ∧
    headerOf (h' !!! l) = headerOf order ∧
    Order.FilledQuantity (h' !!! l) = filled ∧
    RemainingQuantity (h' !!! l) = Order.Quantity order - filled ∧
    (filled = 0 →
     MatchResult.Status result = StatusAccepted ∧ restsAtTail l order ob') ∧
    (0 < filled < Order.Quantity order →
     MatchResult.Status result = StatusPartialFill ∧
     restsAtTail l order ob') ∧
    (filled = Order.Quantity order →
     MatchResult.Status result = StatusFilled ∧ ¬ in_book l ob').
Proof.
  intros Hk Hnb Ht HF HQ.
  assert (Hfresh : ∀ side p, l ∉ levelOrders side p ob)
    by (intros; by apply not_in_book_queued).
  assert (Hint : ∀ l', int64 (Order.Quantity (h !!! l')))
    by (intros; by apply heap_typed_int64).
  destruct (walk_loop l h ob true HF (limitBody l)
              (limitBody_step l h ob true Hk Hfresh Hint))
    as (s & El & HI).
  unfold matchLimitOrder. rewrite El. simpl.
  pose proof HI as [Hh Hf Hrem Hn Hb Hs Htr].
  destruct (headerOf_fields _ _ (Hh l)) as (EID & ESide & _ & EPrice & EQ).
  pose proof (Hint l) as HQ64. unfold int64 in HQ64.
  assert (HR : RemainingQuantity (w_heap s !!! l)
               = Order.Quantity (h !!! l) - w_filled s).
  { unfold RemainingQuantity, sub64. rewrite EQ, Hf.
    apply wrap64_id. unfold int64. lia. }
  assert (Htail : restsAtTail l (h !!! l) (AddOrder l (w_heap s) (w_book s))).
  { destruct (AddOrder_spec l (w_heap s) (w_book s))
      as (E1 & E2 & _). simpl in E1, E2. rewrite EID in E1.
    rewrite ESide, EPrice in E2. split.
    - by rewrite E1, lookup_insert_eq.
    - by rewrite E2, last_snoc. }
  destruct (Z.eqb_spec (w_filled s) 0) as [E0|E0].
  { eexists _, _, _. split; [done|]. simpl.
    split; [lia|]. split; [done|]. split; [done|]. split; [done|].
    split; [done|]. split; [done|]. split; [lia|]. lia. }
  destruct (Z.ltb_spec 0 (w_remainingQty s)) as [E1|E1].
  { eexists _, _, _. split; [done|]. simpl.
    split; [lia|]. split; [done|]. split; [done|]. split; [done|].
    split; [done|]. split; [lia|]. split; [done|]. lia. }
  eexists _, _, _. split; [done|]. simpl.
  split; [lia|]. split; [done|]. split; [done|]. split; [done|].
  split; [done|]. split; [lia|]. split; [lia|]. intros _. split; [done|].
  apply in_book_pointwise.
  - by eapply shrinks_keys_distinct.
  - by eapply shrinks_not_queued.
  - eapply shrinks_not_indexed; [done|].
    intros id. by apply not_in_book_indexed.
Qed.

Lemma GetOrCreateOrderBook_bookOf symbol m :
  (GetOrCreateOrderBook symbol m).1 = bookOf symbol m ∧
  Matcher.Heap (GetOrCreateOrderBook symbol m).2 = Matcher.Heap m.
Proof.
  unfold GetOrCreateOrderBook, bookOf.
  by destruct (Matcher.OrderBooks m !! symbol).
Qed.

Lemma trade_ok_priced l h ob limit t :
  level_prices h ob →
  (Order.Type_ (h !!! l) = TypeLimit → limit = true) →
  trade_ok l h ob limit t → trade_priced (h !!! l) h ob t.
Proof.
  intros Hp Hlim (r & Hr & H). unfold levelOrders in Hr.
  destruct (tree_Get _ _) as [lvl|] eqn:G; [|by apply elem_of_nil in Hr].
  apply tree_Get_Some in G as [EP G].
  assert (Order.Price (h !!! r) = PriceLevel.Price lvl) as Er.
  { specialize (Hp (opposite (Order.Side (h !!! l)))).
    eapply Forall_forall in Hp; [|exact G].
    by eapply Forall_forall in Hp. }
  exists r, lvl. rewrite oppositeTree_treeOf. split; [done|].
  split; [done|]. split; [done|].
  destruct (Order.Side (h !!! l)); destruct H as (?&?&?);
    repeat split; auto; lia.
Qed.

(** The market order is turned down, and nothing changes, when the opposite
    side holds less than its quantity. *)
Lemma matchMarketOrder_insufficient l h ob :
  totalAvailableOf h (oppositeTree (Order.Side (h !!! l)) ob)
  < Order.Quantity (h !!! l) →
  matchMarketOrder l h ob
  = Some (InsufficientLiquidityError (Order.Quantity (h !!! l))
            (totalAvailableOf h (oppositeTree (Order.Side (h !!! l)) ob)),
          h, ob).
Proof.
  intros H. unfold matchMarketOrder.
  replace (match Order.Side (h !!! l) with
           | SideBuy => totalAvailableOf h (OrderBook.Asks ob)
           | SideSell => totalAvailableOf h (OrderBook.Bids ob)
           end)
    with (totalAvailableOf h (oppositeTree (Order.Side (h !!! l)) ob))
    by (by destruct (Order.Side (h !!! l))).
  by rewrite (proj2 (Z.ltb_lt _ _) H).
Qed.

(** C4: every trade that [MatchOrder] emits for an order new to the book is
    priced at the level of the resting order it executes against; the price
    of the buying order is at least the price of the trade and the price of
    the trade at least that of the selling order, where a market order on
    the incoming side sets no bound.  The book is one whose levels hold
    orders of their own price. *)
Theorem MatchOrder_trade_prices l m :
  let order := Matcher.Heap m !!! l in
  let ob := bookOf (Order.Symbol order) m in
  keys_distinct ob → ¬ in_book l ob → heap_typed (Matcher.Heap m) →
  Order.FilledQuantity order = 0 → level_prices (Matcher.Heap m) ob →
  ∃ res m',
    MatchOrder l m = Some (res, m') ∧
    ∀ result, res = Matched result →
              Forall (trade_priced order (Matcher.Heap m) ob)
                (MatchResult.Trades result).
Proof.
  intros order ob Hk Hnb Ht HF Hp. subst order.
  assert (Hfresh : ∀ side p, l ∉ levelOrders side p ob)
    by (intros; by apply not_in_book_queued).
  assert (Hint : ∀ l', int64 (Order.Quantity (Matcher.Heap m !!! l')))
    by (intros; by apply heap_typed_int64).
  unfold MatchOrder.
  destruct (GetOrCreateOrderBook_bookOf
              (Order.Symbol (Matcher.Heap m !!! l)) m) as [E1 E2].
  destruct (GetOrCreateOrderBook (Order.Symbol (Matcher.Heap m !!! l)) m)
    as [ob1 m1].
  simpl in E1, E2. subst ob1. fold ob. rewrite E2.
  destruct (decide (Order.Type_ (Matcher.Heap m !!! l) = TypeMarket))
    as [Hm|Hm].
  - unfold matchMarketOrder.
    destruct (_ <? _); simpl.
    { eexists _, _. split; [done|]. by intros result [=]. }
    destruct (walk_loop l (Matcher.Heap m) ob false HF (marketBody l)
                (λ s HI, marketBody_step l (Matcher.Heap m) ob false
                           Hk Hfresh Hint s HI eq_refl))
      as (s & El & HI).
    rewrite El. simpl.
    eexists _, _. split; [done|]. intros result [= <-]. simpl.
    eapply Forall_impl; [apply (wi_trades _ _ _ _ _ HI)|].
    intros t. apply trade_ok_priced; [done|]. congruence.
  - destruct (walk_loop l (Matcher.Heap m) ob true HF (limitBody l)
                (limitBody_step l (Matcher.Heap m) ob true Hk Hfresh Hint))
      as (s & El & HI).
    unfold matchLimitOrder. rewrite El. simpl.
    assert (Forall (trade_priced (Matcher.Heap m !!! l) (Matcher.Heap m) ob)
              (w_trades s)).
    { eapply Forall_impl; [apply (wi_trades _ _ _ _ _ HI)|].
      intros t. by apply trade_ok_priced. }
    destruct (_ =? _); [|destruct (_ <? _)]; simpl;
      (eexists _, _; split; [done|]); by intros result [= <-].
Qed.

Lemma matchLimitOrder_outcome_witness :
  ∃ result h' ob',
    matchLimitOrder 1%nat limit_heap limit_book
    = Some (Matched result, h', ob') ∧
    MatchResult.FilledQuantity result = 300 ∧
    MatchResult.Status result = StatusPartialFill ∧
    restsAtTail 1%nat (limit_heap !!! 1%nat) ob'.
Proof.
  destruct (matchLimitOrder_outcome 1%nat limit_heap limit_book)
    as (result & h' & ob' & E & _ & _ & _ & _ & _ & _ & H & _).
  - intros []; compute_done.
  - compute_done.
  - compute_done.
  - compute_done.
  - compute_done.
  - exists result, h', ob'. split; [exact E|].
    assert (F : MatchResult.FilledQuantity result = 300).
    { assert (E' : matchLimitOrder 1%nat limit_heap limit_book
                   ≫= (λ x, Some (match x.1.1 with
                                  | Matched r => MatchResult.FilledQuantity r
                                  | _ => 0
                                  end)) = Some 300) by compute_done.
      rewrite E in E'. simpl in E'. by injection E'. }
    split; [exact F|]. apply H. rewrite F.
    assert (Order.Quantity (limit_heap !!! 1%nat) = 500) as -> by compute_done.
    lia.
Defined.


Lemma MatchOrder_trade_prices_witness :
  ∃ res m',
    MatchOrder 1%nat limit_matcher = Some (res, m') ∧
    ∀ result, res = Matched result →
              Forall (trade_priced (limit_heap !!! 1%nat) limit_heap limit_book)
                (MatchResult.Trades result).
Proof.
  assert (E : bookOf (Order.Symbol (limit_heap !!! 1%nat)) limit_matcher
              = limit_book) by compute_done.
  pose proof (MatchOrder_trade_prices 1%nat limit_matcher) as H.
  cbv zeta in H. change (Matcher.Heap limit_matcher) with limit_heap in H.
  rewrite E in H. apply H.
  - intros []; compute_done.
  - compute_done.
  - compute_done.
  - compute_done.
  - intros []; compute_done.
Defined.

(** * Further properties *)

(** ** Sorted trees *)

Lemma lessOf_keyLess side a b :
  lessOf side a b = true ↔ keyLess side (PriceLevel.Price a) (PriceLevel.Price b).
Proof.
  destruct side; simpl;
    unfold PriceLevelItem_Less, PriceLevelItemAscending_Less.
  - rewrite Z.gtb_ltb, Z.ltb_lt. lia.
  - by rewrite Z.ltb_lt.
Qed.

Lemma tree_sorted_keys side T :
  tree_sorted (lessOf side) T ↔ StronglySorted (keyLess side) (tree_keys T).
Proof.
  unfold tree_sorted, tree_keys. induction T as [|x T IH]; simpl.
  - split; constructor.
  - rewrite !StronglySorted_cons, IH, Forall_fmap. 
    split; intros [H1 H2]; (split; [|done]);
      (eapply Forall_impl; [exact H1|]); intros y; simpl;
      by rewrite lessOf_keyLess.
Qed.

Lemma StronglySorted_sublist {A} (R : A → A → Prop) l1 l2 :
  l1 `sublist_of` l2 → StronglySorted R l2 → StronglySorted R l1.
Proof.
  induction 1 as [|x l1 l2 H IH|x l1 l2 H IH];
    rewrite ?StronglySorted_cons; [done| |].
  - intros [H1 H2]. split; [|by apply IH].
    rewrite Forall_forall in H1 |- *. intros y Hy. apply H1.
    by eapply sublist_subseteq.
  - intros [_ H2]. by apply IH.
Qed.

Lemma keyLess_NoDup side ks : StronglySorted (keyLess side) ks → NoDup ks.
Proof.
  induction ks as [|k ks IH]; [constructor|].
  rewrite StronglySorted_cons, NoDup_cons. intros [H1 H2]. split; [|by apply IH].
  intros Hin. rewrite Forall_forall in H1. specialize (H1 _ Hin).
  destruct side; simpl in H1; lia.
Qed.

Lemma book_sorted_keys_distinct ob : book_sorted ob → keys_distinct ob.
Proof.
  intros H side. eapply keyLess_NoDup. apply tree_sorted_keys, H.
Qed.

Lemma shrinks_book_sorted ob' ob :
  shrinks ob' ob → book_sorted ob → book_sorted ob'.
Proof.
  intros [_ Hs] H side. apply tree_sorted_keys.
  eapply StronglySorted_sublist; [apply (Hs side)|]. apply tree_sorted_keys, H.
Qed.

Lemma tree_keys_insert side item T :
  tree_keys (tree_ReplaceOrInsert (lessOf side) item T)
  ⊆ PriceLevel.Price item :: tree_keys T.
Proof.
  unfold tree_keys. induction T as [|x T IH]; simpl; [done|].
  destruct (lessOf side item x); simpl; [done|].
  destruct (lessOf side x item) eqn:E2; simpl.
  - intros k Hk. apply elem_of_cons in Hk as [->|Hk].
    + right; left.
    + apply IH in Hk. apply elem_of_cons in Hk as [->|Hk]; [left|].
      right; by right.
  - intros k Hk. apply elem_of_cons in Hk as [->|Hk]; [left|].
    right; by right.
Qed.

Lemma tree_ReplaceOrInsert_sorted side item T :
  tree_sorted (lessOf side) T →
  tree_sorted (lessOf side) (tree_ReplaceOrInsert (lessOf side) item T).
Proof.
  rewrite !tree_sorted_keys. induction T as [|x T IH]; simpl.
  - intros _. repeat constructor.
  - intros H. pose proof H as H0.
    apply StronglySorted_cons in H as [H1 H2].
    destruct (lessOf side item x) eqn:E1; simpl.
    + apply lessOf_keyLess in E1. apply StronglySorted_cons. split; [|done].
      constructor; [done|]. eapply Forall_impl; [exact H1|].
      intros k Hk. destruct side; simpl in *; lia.
    + destruct (lessOf side x item) eqn:E2; simpl.
      * apply lessOf_keyLess in E2. apply StronglySorted_cons.
        split; [|by apply IH].
        rewrite Forall_forall in H1 |- *. intros k Hk.
        apply tree_keys_insert in Hk.
        apply elem_of_cons in Hk as [->|Hk]; [done|by apply H1].
      * apply StronglySorted_cons. split; [|done].
        assert (PriceLevel.Price item = PriceLevel.Price x) as ->; [|done].
        by apply (lessOf_neither side).
Qed.

Lemma AddOrder_tree l h ob :
  let o := h !!! l in
  let T := treeOf (Order.Side o) ob in
  tree_keys (treeOf (Order.Side o) (AddOrder l h ob))
  = tree_keys
      (match tree_Get (Order.Price o) T with
       | Some _ => T
       | None =>
           tree_ReplaceOrInsert (lessOf (Order.Side o))
             (PriceLevel.mk (Order.Price o) []) T
       end).
Proof.
  intros o T. unfold AddOrder. fold o.
  set (ob1 := OrderBook.with_Orders _ ob).
  assert (Ht : treeOf (Order.Side o) ob1 = T) by apply treeOf_with_Orders.
  rewrite Ht. unfold setLevelOrders.
  rewrite treeOf_withTree, tree_keys_setOrders.
  destruct (tree_Get (Order.Price o) T); [by rewrite Ht|].
  by rewrite treeOf_withTree.
Qed.

Lemma AddOrder_sorted l h ob :
  book_sorted ob → book_sorted (AddOrder l h ob).
Proof.
  intros H side.
  destruct (decide (side = Order.Side (h !!! l))) as [->|Hs].
  - apply tree_sorted_keys. rewrite AddOrder_tree.
    destruct (tree_Get _ _); apply tree_sorted_keys; [apply H|].
    apply tree_ReplaceOrInsert_sorted, H.
  - destruct (AddOrder_spec l h ob) as (_ & _ & _ & E).
    rewrite (E side Hs). apply H.
Qed.

(** X1: [AddOrder] keeps the trees of a book sorted: when the bids are in
    strictly descending and the asks in strictly ascending order of price
    before the call, they are so after it, whether the order joins a level
    or a level is inserted for it. *)
Theorem AddOrder_keeps_sorted l h ob :
  book_sorted ob → book_sorted (AddOrder l h ob).
Proof. apply AddOrder_sorted. Qed.


(** X2: on a book with sorted trees [RemoveOrder] only takes away.  After
    the call the id is not indexed, whatever the call returns, and every
    other id is indexed as before; every queue is a sublist of what it was
    and so are the prices of each tree, which stay sorted; the call returns
    true only for an id that was indexed, and for an id that was not it
    returns false and leaves the book as it is. *)
Theorem RemoveOrder_only_removes orderID h ob :
  book_sorted ob →
  let removed := (RemoveOrder orderID h ob).1 in
  let ob' := (RemoveOrder orderID h ob).2 in
  GetOrder orderID ob' = None ∧
  (∀ id, id ≠ orderID → GetOrder id ob' = GetOrder id ob) ∧
  (∀ side p, levelOrders side p ob' `sublist_of` levelOrders side p ob) ∧
  (∀ side, tree_keys (treeOf side ob') `sublist_of` tree_keys (treeOf side ob)) ∧
  book_sorted ob' ∧
  (removed = true → is_Some (GetOrder orderID ob)) ∧
  (GetOrder orderID ob = None → removed = false ∧ ob' = ob).
Proof.
  intros Hb removed ob'. subst removed ob'.
  pose proof (shrinks_RemoveOrder orderID h ob
                (book_sorted_keys_distinct ob Hb)) as Hs.
  unfold GetOrder. rewrite RemoveOrder_Orders.
  split; [apply lookup_delete_eq|].
  split; [intros id Hid; by apply lookup_delete_ne|].
  split; [intros side p; by apply shrinks_levelOrders|].
  split; [intros side; apply Hs|].
  split; [by eapply shrinks_book_sorted|].
  unfold RemoveOrder. destruct (OrderBook.Orders ob !! orderID); simpl.
  - split; [by eexists|done].
  - split; [done|]. done.
Qed.


(** ** Adding and removing an order *)

Lemma tree_setOrders_setOrders p q q' T :
  tree_setOrders p q (tree_setOrders p q' T) = tree_setOrders p q T.
Proof.
  induction T as [|x T IH]; simpl; [done|].
  destruct (Z.eqb_spec (PriceLevel.Price x) p) as [E|E]; simpl.
  - by rewrite (proj2 (Z.eqb_eq _ _) E).
  - rewrite (proj2 (Z.eqb_neq _ _) E). by f_equal.
Qed.

Lemma tree_setOrders_id p T lvl :
  tree_Get p T = Some lvl → tree_setOrders p (PriceLevel.Orders lvl) T = T.
Proof.
  induction T as [|x T IH]; simpl; [done|].
  destruct (PriceLevel.Price x =? p).
  - intros [= <-]. by destruct x.
  - intros H. f_equal. by apply IH.
Qed.

Lemma tree_setOrders_insert side p q q' T :
  tree_Get p T = None →
  tree_setOrders p q' (tree_ReplaceOrInsert (lessOf side) (PriceLevel.mk p q) T)
  = tree_ReplaceOrInsert (lessOf side) (PriceLevel.mk p q') T.
Proof.
  induction T as [|x T IH]; simpl.
  - intros _. by rewrite Z.eqb_refl.
  - destruct (Z.eqb_spec (PriceLevel.Price x) p) as [E|E]; [done|].
    intros H.
    assert (EL : ∀ q, lessOf side (PriceLevel.mk p q) x
                      = lessOf side (PriceLevel.mk p []) x)
      by (intros; by destruct side).
    assert (ER : ∀ q, lessOf side x (PriceLevel.mk p q)
                      = lessOf side x (PriceLevel.mk p []))
      by (intros; by destruct side).
    rewrite (EL q), (EL q'), (ER q), (ER q').
    destruct (lessOf side _ x) eqn:E1; simpl; [by rewrite Z.eqb_refl|].
    destruct (lessOf side x _) eqn:E2; simpl.
    + rewrite (proj2 (Z.eqb_neq _ _) E). f_equal. by apply IH.
    + by rewrite Z.eqb_refl.
Qed.

Lemma tree_Delete_insert_new side p q T :
  tree_Get p T = None →
  tree_Delete p (tree_ReplaceOrInsert (lessOf side) (PriceLevel.mk p q) T) = T.
Proof.
  induction T as [|x T IH]; simpl.
  - intros _. by rewrite Z.eqb_refl.
  - destruct (Z.eqb_spec (PriceLevel.Price x) p) as [E|E]; [done|].
    intros H.
    destruct (lessOf side _ x) eqn:E1; simpl; [by rewrite Z.eqb_refl|].
    destruct (lessOf side x _) eqn:E2; simpl.
    + rewrite (proj2 (Z.eqb_neq _ _) E). f_equal. by apply IH.
    + apply (lessOf_neither side) in E1; [|done]. simpl in E1. congruence.
Qed.

Lemma removeByID_snoc h id q l :
  id ∉ idsOf h q → Order.ID (h !!! l) = id → removeByID h id (q ++ [l]) = q.
Proof.
  unfold idsOf. intros Hq El. induction q as [|x q IH]; simpl.
  - by rewrite El, String.eqb_refl.
  - simpl in Hq. apply not_elem_of_cons in Hq as [Hx Hq].
    destruct (String.eqb_spec (Order.ID (h !!! x)) id) as [E|E];
      [congruence|]. f_equal. by apply IH.
Qed.

Lemma withTree_treeOf side ob : withTree side (treeOf side ob) ob = ob.
Proof. by destruct ob, side. Qed.

Lemma withTree_withTree side T T' ob :
  withTree side T (withTree side T' ob) = withTree side T ob.
Proof. by destruct ob, side. Qed.

Lemma with_Orders_withTree side T m ob :
  OrderBook.with_Orders m (withTree side T ob)
  = withTree side T (OrderBook.with_Orders m ob).
Proof. by destruct ob, side. Qed.

Lemma with_Orders_with_Orders m m' ob :
  OrderBook.with_Orders m (OrderBook.with_Orders m' ob)
  = OrderBook.with_Orders m ob.
Proof. by destruct ob. Qed.

Lemma with_Orders_id ob : OrderBook.with_Orders (OrderBook.Orders ob) ob = ob.
Proof. by destruct ob. Qed.

Lemma AddOrder_eq l h ob :
  let o := h !!! l in
  let side := Order.Side o in
  let p := Order.Price o in
  let T := treeOf side ob in
  AddOrder l h ob
  = withTree side
      (match tree_Get p T with
       | Some lvl => tree_setOrders p (PriceLevel.Orders lvl ++ [l]) T
       | None => tree_ReplaceOrInsert (lessOf side) (PriceLevel.mk p [l]) T
       end)
      (OrderBook.with_Orders (<[Order.ID o := l]> (OrderBook.Orders ob)) ob).
Proof.
  intros o side p T. unfold AddOrder. fold o side p.
  set (ob1 := OrderBook.with_Orders _ ob).
  assert (Ht : treeOf side ob1 = T) by apply treeOf_with_Orders.
  rewrite Ht. destruct (tree_Get p T) as [lvl|] eqn:G.
  - unfold setLevelOrders, levelOrders. by rewrite Ht, G.
  - unfold setLevelOrders, levelOrders. rewrite treeOf_withTree.
    rewrite tree_Get_insert_new by done. simpl.
    by rewrite withTree_withTree, tree_setOrders_insert.
Qed.

Lemma RemoveOrder_eq orderID h ob l lvl :
  OrderBook.Orders ob !! orderID = Some l →
  let side := Order.Side (h !!! l) in
  let p := Order.Price (h !!! l) in
  let T := treeOf side ob in
  tree_Get p T = Some lvl →
  RemoveOrder orderID h ob
  = (true,
     OrderBook.with_Orders (delete orderID (OrderBook.Orders ob))
       (withTree side
          (match removeByID h orderID (PriceLevel.Orders lvl) with
           | [] => tree_Delete p (tree_setOrders p [] T)
           | q => tree_setOrders p q T
           end) ob)).
Proof.
  intros E side p T G. unfold RemoveOrder. rewrite E. fold side p T.
  rewrite G. rewrite levelOrders_setLevelOrders. fold T. rewrite G.
  f_equal. unfold setLevelOrders. fold T.
  destruct (removeByID h orderID (PriceLevel.Orders lvl)) as [|r q]; simpl.
  - by rewrite treeOf_withTree, withTree_withTree, !Orders_withTree.
  - by rewrite Orders_withTree.
Qed.

(** X3: [RemoveOrder] undoes [AddOrder].  When the id of the order is not
    indexed, no order queued at its side and price has its id, and the level
    of that side and price, if there is one, is not empty, then adding the
    order and removing its id returns true and gives back the book as it
    was: the level that was inserted for the order is deleted again. *)
Theorem RemoveOrder_AddOrder l h ob :
  let o := h !!! l in
  GetOrder (Order.ID o) ob = None →
  Order.ID o ∉ idsOf h (levelOrders (Order.Side o) (Order.Price o) ob) →
  (∀ lvl, tree_Get (Order.Price o) (treeOf (Order.Side o) ob) = Some lvl →
          PriceLevel.Orders lvl ≠ []) →
  RemoveOrder (Order.ID o) h (AddOrder l h ob) = (true, ob).
Proof.
  intros o Hid Hq Hlvl. unfold GetOrder in Hid. unfold levelOrders in Hq.
  rewrite AddOrder_eq. fold o.
  set (side := Order.Side o) in *. set (p := Order.Price o) in *.
  set (T := treeOf side ob) in *.
  set (M := OrderBook.Orders ob) in *.
  destruct (tree_Get p T) as [lvl|] eqn:G.
  - erewrite RemoveOrder_eq; cycle 1.
    { rewrite Orders_withTree. simpl. apply lookup_insert_eq. }
    { fold o side p. rewrite treeOf_withTree, tree_Get_setOrders, G. done. }
    fold o side p. simpl. rewrite removeByID_snoc by done.
    rewrite treeOf_withTree, Orders_withTree. simpl.
    f_equal.
    destruct (PriceLevel.Orders lvl) as [|r q] eqn:EQ;
      [by destruct (Hlvl lvl)|].
    rewrite withTree_withTree, tree_setOrders_setOrders, <- EQ.
    rewrite tree_setOrders_id by done.
    rewrite with_Orders_withTree, with_Orders_with_Orders.
    fold M. rewrite delete_insert_id by done.
    unfold M, T. by rewrite with_Orders_id, withTree_treeOf.
  - erewrite RemoveOrder_eq; cycle 1.
    { rewrite Orders_withTree. simpl. apply lookup_insert_eq. }
    { fold o side p. rewrite treeOf_withTree.
      by apply tree_Get_insert_new. }
    fold o side p. simpl. rewrite String.eqb_refl.
    rewrite treeOf_withTree, Orders_withTree. simpl.
    f_equal.
    rewrite withTree_withTree, tree_setOrders_insert by done.
    rewrite tree_Delete_insert_new by done.
    rewrite with_Orders_withTree, with_Orders_with_Orders.
    fold M. rewrite delete_insert_id by done.
    unfold M, T. by rewrite with_Orders_id, withTree_treeOf.
Qed.


(** ** The best price *)

Lemma bestOf_true h T p q :
  bestOf h T = (p, q, true) →
  ∃ lvl T', T = lvl :: T' ∧ PriceLevel.Price lvl = p ∧
            PriceLevel.Orders lvl ≠ [] ∧
            q = totalQuantity h (PriceLevel.Orders lvl).
Proof.
  unfold bestOf, tree_Len. destruct T as [|lvl T]; simpl; [done|].
  destruct (PriceLevel.Orders lvl) as [|r q'] eqn:E; simpl; [done|].
  intros [= <- <-]. exists lvl, T. by rewrite E.
Qed.

(** X4: on a book with sorted trees, the price that [GetBestBid] returns
    with [ok] is the highest price of the bid tree and the one that
    [GetBestAsk] returns is the lowest price of the ask tree; the level of
    that price has a queue that is not empty, and the quantity returned is
    the 64-bit sum of what remains of the orders of that queue. *)
Theorem best_price_is_extreme h ob p q :
  book_sorted ob →
  (GetBestBid h ob = (p, q, true) →
   levelOrders SideBuy p ob ≠ [] ∧
   q = totalQuantity h (levelOrders SideBuy p ob) ∧
   ∀ lvl, lvl ∈ OrderBook.Bids ob → PriceLevel.Price lvl <= p) ∧
  (GetBestAsk h ob = (p, q, true) →
   levelOrders SideSell p ob ≠ [] ∧
   q = totalQuantity h (levelOrders SideSell p ob) ∧
   ∀ lvl, lvl ∈ OrderBook.Asks ob → p <= PriceLevel.Price lvl).
Proof.
  intros Hs. unfold GetBestBid, GetBestAsk, levelOrders. split; intros H.
  - apply bestOf_true in H as (lvl & T' & ET & EP & HQ & ->).
    specialize (Hs SideBuy). simpl in *. rewrite ET in *. simpl.
    rewrite EP, Z.eqb_refl. split; [done|]. split; [done|].
    apply StronglySorted_cons in Hs as [Hs _]. rewrite Forall_forall in Hs.
    intros x Hx. apply elem_of_cons in Hx as [->|Hx]; [lia|].
    specialize (Hs x Hx). unfold PriceLevelItem_Less in Hs. lia.
  - apply bestOf_true in H as (lvl & T' & ET & EP & HQ & ->).
    specialize (Hs SideSell). simpl in *. rewrite ET in *. simpl.
    rewrite EP, Z.eqb_refl. split; [done|]. split; [done|].
    apply StronglySorted_cons in Hs as [Hs _]. rewrite Forall_forall in Hs.
    intros x Hx. apply elem_of_cons in Hx as [->|Hx]; [lia|].
    specialize (Hs x Hx). unfold PriceLevelItemAscending_Less in Hs. lia.
Qed.

Lemma loop_S {S : Type} fuel (body : S → option (ctl S)) s :
  loop (Datatypes.S fuel) body s
  = match body s with
    | None => None
    | Some (Break s') => Some s'
    | Some (Continue s') => loop fuel body s'
    end.
Proof. done. Qed.

Lemma treeFuel_S T : treeFuel T = S (treeFuel T - 1).
Proof. unfold treeFuel. lia. Qed.

Lemma limitBody_empty_head l s lvl T :
  oppositeTree (Order.Side (w_heap s !!! l)) (w_book s) = lvl :: T →
  PriceLevel.Orders lvl = [] →
  limitBody l s = Some (Break s).
Proof.
  intros ET EQ. unfold limitBody.
  destruct (0 <? w_remainingQty s); simpl; [|done].
  unfold GetBestAsk, GetBestBid, bestOf, tree_Len.
  destruct (Order.Side (w_heap s !!! l)); simpl in ET; rewrite ET; simpl;
    by rewrite EQ.
Qed.

Lemma marketBody_empty_head l s lvl T :
  oppositeTree (Order.Side (w_heap s !!! l)) (w_book s) = lvl :: T →
  PriceLevel.Orders lvl = [] →
  marketBody l s = Some (Break s).
Proof.
  intros ET EQ. unfold marketBody.
  destruct (0 <? w_remainingQty s); simpl; [|done].
  unfold GetBestAsk, GetBestBid, bestOf, tree_Len.
  destruct (Order.Side (w_heap s !!! l)); simpl in ET; rewrite ET; simpl;
    by rewrite EQ.
Qed.

(** X5: a level with an empty queue at the head of the opposite tree hides
    every level behind it.  [GetBestBid] and [GetBestAsk] answer that there
    is no best price, so a limit order, whatever its price and whatever the
    other levels hold, trades nothing and is added to the book with the
    status Accepted; a market order for which the other levels hold enough
    is answered with the status Filled, nothing filled and no trade, and
    the book is left as it is. *)
Theorem empty_best_level_hides_the_rest l h ob lvl T :
  let order := h !!! l in
  oppositeTree (Order.Side order) ob = lvl :: T →
  PriceLevel.Orders lvl = [] →
  matchLimitOrder l h ob
  = Some (Matched (MatchResult.mk StatusAccepted 0 (Order.Quantity order) []),
          h, AddOrder l h ob) ∧
  (Order.Quantity order <= totalAvailableOf h T →
   matchMarketOrder l h ob
   = Some (Matched (MatchResult.mk StatusFilled 0 (Order.Quantity order) []),
           h, ob)).
Proof.
  intros order ET EQ. split.
  - unfold matchLimitOrder. rewrite treeFuel_S, loop_S.
    by rewrite (limitBody_empty_head l _ lvl T).
  - intros Hav. unfold matchMarketOrder.
    assert (match Order.Side (h !!! l) with
            | SideBuy => totalAvailableOf h (OrderBook.Asks ob)
            | SideSell => totalAvailableOf h (OrderBook.Bids ob)
            end = totalAvailableOf h T) as ->.
    { replace (match Order.Side (h !!! l) with
               | SideBuy => totalAvailableOf h (OrderBook.Asks ob)
               | SideSell => totalAvailableOf h (OrderBook.Bids ob)
               end)
        with (totalAvailableOf h (oppositeTree (Order.Side (h !!! l)) ob))
        by (by destruct (Order.Side (h !!! l))).
      fold order. rewrite ET. unfold totalAvailableOf. simpl. by rewrite EQ. }
    fold order. destruct (Z.ltb_spec (totalAvailableOf h T) (Order.Quantity order));
      [lia|].
    rewrite treeFuel_S, loop_S.
    by rewrite (marketBody_empty_head l _ lvl T).
Qed.


(** ** The walks of [MatchOrder] *)

Lemma GetOrCreateOrderBook_insert symbol m ob :
  <[symbol := ob]> (Matcher.OrderBooks (GetOrCreateOrderBook symbol m).2)
  = <[symbol := ob]> (Matcher.OrderBooks m).
Proof.
  unfold GetOrCreateOrderBook.
  destruct (Matcher.OrderBooks m !! symbol); simpl; [done|].
  apply insert_insert_eq.
Qed.

Lemma MatchOrder_walk l m :
  let h := Matcher.Heap m in
  let order := h !!! l in
  let ob := bookOf (Order.Symbol order) m in
  keys_distinct ob → ¬ in_book l ob → heap_typed h →
  Order.FilledQuantity order = 0 →
  ∃ res h' ob',
    MatchOrder l m
    = Some (res,
            Matcher.mk h'
              (<[Order.Symbol order := ob']> (Matcher.OrderBooks m))) ∧
    match res with
    | InsufficientLiquidityError req avail =>
        Order.Type_ order = TypeMarket ∧ h' = h ∧ ob' = ob ∧
        req = Order.Quantity order ∧
        avail = totalAvailableOf h (oppositeTree (Order.Side order) ob) ∧
        avail < req
    | Matched result =>
        ∃ s,
          loop (treeFuel (oppositeTree (Order.Side order) ob))
            (bodyOf (isLimit order) l)
            (Walk h ob [] 0 (Order.Quantity order)) = Some s ∧
          walk_inv l h ob (isLimit order) s ∧
          h' = w_heap s ∧
          MatchResult.FilledQuantity result = w_filled s ∧
          MatchResult.RemainingQuantity result = w_remainingQty s ∧
          MatchResult.Trades result = w_trades s ∧
          (if isLimit order
           then (MatchResult.Status result = StatusFilled ∧ ob' = w_book s) ∨
                (((MatchResult.Status result = StatusAccepted ∧
                   w_filled s = 0) ∨
                  (MatchResult.Status result = StatusPartialFill ∧
                   0 < w_remainingQty s)) ∧
                 ob' = AddOrder l (w_heap s) (w_book s))
           else MatchResult.Status result = StatusFilled ∧ ob' = w_book s ∧
                Order.Quantity order
                <= totalAvailableOf h (oppositeTree (Order.Side order) ob))
    end.
Proof.
  intros h order ob Hk Hnb Ht HF. subst h order.
  assert (Hfresh : ∀ side p, l ∉ levelOrders side p ob)
    by (intros; by apply not_in_book_queued).
  assert (Hint : ∀ l', int64 (Order.Quantity (Matcher.Heap m !!! l')))
    by (intros; by apply heap_typed_int64).
  unfold MatchOrder.
  pose proof (GetOrCreateOrderBook_insert
                (Order.Symbol (Matcher.Heap m !!! l)) m) as EI.
  destruct (GetOrCreateOrderBook_bookOf
              (Order.Symbol (Matcher.Heap m !!! l)) m) as [E1 E2].
  destruct (GetOrCreateOrderBook (Order.Symbol (Matcher.Heap m !!! l)) m)
    as [ob1 m1].
  simpl in E1, E2, EI. subst ob1. fold ob. rewrite E2.
  unfold isLimit.
  destruct (decide (Order.Type_ (Matcher.Heap m !!! l) = TypeMarket))
    as [Hm|Hm].
  - rewrite bool_decide_eq_false_2 by (intros H; by apply H).
    unfold matchMarketOrder.
    replace (match Order.Side (Matcher.Heap m !!! l) with
             | SideBuy => totalAvailableOf (Matcher.Heap m) (OrderBook.Asks ob)
             | SideSell => totalAvailableOf (Matcher.Heap m) (OrderBook.Bids ob)
             end)
      with (totalAvailableOf (Matcher.Heap m)
              (oppositeTree (Order.Side (Matcher.Heap m !!! l)) ob))
      by (by destruct (Order.Side (Matcher.Heap m !!! l))).
    destruct (Z.ltb_spec
                (totalAvailableOf (Matcher.Heap m)
                   (oppositeTree (Order.Side (Matcher.Heap m !!! l)) ob))
                (Order.Quantity (Matcher.Heap m !!! l))) as [Hlt|Hge]; simpl.
    { eexists _, _, _. rewrite EI. split; [done|]. simpl. done. }
    destruct (walk_loop l (Matcher.Heap m) ob false HF (marketBody l)
                (λ s HI, marketBody_step l (Matcher.Heap m) ob false
                           Hk Hfresh Hint s HI eq_refl))
      as (s & El & HI).
    rewrite El. simpl. rewrite EI.
    eexists _, _, _. split; [done|]. simpl. exists s. done.
  - rewrite bool_decide_eq_true_2 by done.
    destruct (walk_loop l (Matcher.Heap m) ob true HF (limitBody l)
                (limitBody_step l (Matcher.Heap m) ob true Hk Hfresh Hint))
      as (s & El & HI).
    unfold matchLimitOrder. rewrite El. simpl.
    destruct (Z.eqb_spec (w_filled s) 0);
      [|destruct (Z.ltb_spec 0 (w_remainingQty s))]; simpl; rewrite EI;
      (eexists _, _, _; split; [done|]); simpl; exists s;
      repeat (split; [done|]);
      [right; split; [by left|done]|right; split; [by right|done]|by left].
Qed.


Lemma bookOf_insert symbol ob h M :
  bookOf symbol (Matcher.mk h (<[symbol := ob]> M)) = ob.
Proof. unfold bookOf. simpl. by rewrite lookup_insert_eq. Qed.

(** X6: [MatchOrder] on an order that is new to its book returns, keeps
    the trees of that book sorted, and leaves the book of every other
    symbol as it was. *)
Theorem MatchOrder_keeps_sorted l m :
  let order := Matcher.Heap m !!! l in
  let ob := bookOf (Order.Symbol order) m in
  book_sorted ob → ¬ in_book l ob → heap_typed (Matcher.Heap m) →
  Order.FilledQuantity order = 0 →
  ∃ res m',
    MatchOrder l m = Some (res, m') ∧
    book_sorted (bookOf (Order.Symbol order) m') ∧
    ∀ symbol, symbol ≠ Order.Symbol order →
              Matcher.OrderBooks m' !! symbol = Matcher.OrderBooks m !! symbol.
Proof.
  intros order ob Hs Hnb Ht HF.
  destruct (MatchOrder_walk l m (book_sorted_keys_distinct _ Hs) Hnb Ht HF)
    as (res & h' & ob' & E & H).
  fold order ob in E, H. eexists _, _. split; [exact E|].
  rewrite bookOf_insert. simpl. split.
  - destruct res as [result|req avail].
    + destruct H as (s & _ & HI & _ & _ & _ & _ & H).
      assert (book_sorted (w_book s))
        by (eapply shrinks_book_sorted; [apply HI|done]).
      destruct (isLimit order).
      * destruct H as [[_ ->]|[_ ->]]; [done|by apply AddOrder_sorted].
      * by destruct H as (_ & -> & _).
    + by destruct H as (_ & _ & -> & _).
  - intros symbol Hne. by rewrite lookup_insert_ne.
Qed.

(** X7: [MatchOrder] on an order that is new to its book returns and
    changes the id, symbol, side, type, price and quantity of no order of
    the heap: fills change the filled quantity and the status only. *)
Theorem MatchOrder_keeps_headers l m :
  let order := Matcher.Heap m !!! l in
  let ob := bookOf (Order.Symbol order) m in
  keys_distinct ob → ¬ in_book l ob → heap_typed (Matcher.Heap m) →
  Order.FilledQuantity order = 0 →
  ∃ res m',
    MatchOrder l m = Some (res, m') ∧
    ∀ l', headerOf (Matcher.Heap m' !!! l') = headerOf (Matcher.Heap m !!! l').
Proof.
  intros order ob Hk Hnb Ht HF.
  destruct (MatchOrder_walk l m Hk Hnb Ht HF) as (res & h' & ob' & E & H).
  fold order ob in E, H. eexists _, _. split; [exact E|]. simpl.
  destruct res as [result|req avail].
  - destruct H as (s & _ & HI & -> & _). apply HI.
  - by destruct H as (_ & -> & _).
Qed.

(** X9: [MatchOrder] on a market order that is new to its book returns,
    and the order is in no queue and under no id of the book afterwards;
    the id-map is a part of what it was and every queue a sublist of what
    it was.  When the order is matched the status is Filled, the filled
    quantity is not negative, the remaining quantity is the quantity less
    the filled quantity, and the order has that filled quantity in the
    heap; when it is turned down the heap and the book are unchanged and
    the error carries the quantity of the order and the 64-bit total of the
    opposite tree, which is less. *)
Theorem market_order_never_rests l m :
  let order := Matcher.Heap m !!! l in
  let ob := bookOf (Order.Symbol order) m in
  Order.Type_ order = TypeMarket →
  keys_distinct ob → ¬ in_book l ob → heap_typed (Matcher.Heap m) →
  Order.FilledQuantity order = 0 →
  ∃ res m',
    MatchOrder l m = Some (res, m') ∧
    let ob' := bookOf (Order.Symbol order) m' in
    ¬ in_book l ob' ∧
    OrderBook.Orders ob' ⊆ OrderBook.Orders ob ∧
    (∀ side p, levelOrders side p ob' `sublist_of` levelOrders side p ob) ∧
    match res with
    | Matched result =>
        MatchResult.Status result = StatusFilled ∧
        0 <= MatchResult.FilledQuantity result ∧
        MatchResult.RemainingQuantity result
        = Order.Quantity order - MatchResult.FilledQuantity result ∧
        Order.FilledQuantity (Matcher.Heap m' !!! l)
        = MatchResult.FilledQuantity result
    | InsufficientLiquidityError req avail =>
        Matcher.Heap m' = Matcher.Heap m ∧ ob' = ob ∧
        req = Order.Quantity order ∧
        avail = totalAvailableOf (Matcher.Heap m)
                  (oppositeTree (Order.Side order) ob) ∧
        avail < req
    end.
Proof.
  intros order ob Hm Hk Hnb Ht HF.
  destruct (MatchOrder_walk l m Hk Hnb Ht HF) as (res & h' & ob' & E & H).
  fold order ob in E, H. eexists _, _. split; [exact E|].
  rewrite bookOf_insert. simpl.
  assert (EL : isLimit order = false).
  { unfold isLimit. apply bool_decide_eq_false_2. intros H'. by apply H'. }
  rewrite EL in H.
  destruct res as [result|req avail].
  - destruct H as (s & _ & HI & -> & EF & ER & _ & ES & -> & _).
    destruct HI as [Hh Hf Hrem Hn Hb Hsh Htr].
    split.
    { apply in_book_pointwise.
      - by eapply shrinks_keys_distinct.
      - eapply shrinks_not_queued; [done|].
        intros; by apply not_in_book_queued.
      - eapply shrinks_not_indexed; [done|].
        intros id. by apply not_in_book_indexed. }
    split; [apply Hsh|].
    split; [intros; by apply shrinks_levelOrders|].
    rewrite EF, ER. repeat split; try done.
  - destruct H as (_ & -> & -> & -> & -> & Hlt).
    repeat split; try done.
Qed.


(** ** The trades of a match *)

Lemma loop_preserves {S : Type} (body : S → option (ctl S)) (I : S → Prop) :
  (∀ s c, I s → body s = Some c → I (ctl_state c)) →
  ∀ fuel s s', loop fuel body s = Some s' → I s → I s'.
Proof.
  intros Hbody fuel. induction fuel as [|fuel IH]; intros s s'; simpl; [done|].
  destruct (body s) as [[s1|s1]|] eqn:E; [| |done].
  - intros El Hs. apply (IH s1 s' El). apply (Hbody s _ Hs E).
  - intros [= <-] Hs. apply (Hbody s _ Hs E).
Qed.

Lemma tradedQuantity_snoc trades t :
  tradedQuantity (trades ++ [t]) = tradedQuantity trades + Trade.Quantity t.
Proof.
  unfold tradedQuantity. induction trades as [|x tr IH]; simpl; lia.
Qed.

Lemma Quantity_newTrade o r p e : Trade.Quantity (newTrade o r p e) = e.
Proof. unfold newTrade. by destruct (Order.Side o). Qed.

Lemma trades_add_up_with_book ob s :
  trades_add_up s → trades_add_up (with_book ob s).
Proof. done. Qed.

Section adds_up.
Variables (l : loc) (h0 : heap) (ob0 : OrderBook.t).
Hypothesis Hkeys : keys_distinct ob0.
Hypothesis Hfresh : ∀ side p, l ∉ levelOrders side p ob0.
Hypothesis Hint : ∀ l', int64 (Order.Quantity (h0 !!! l')).

Local Abbreviation Inv := (walk_inv l h0 ob0 false).
Local Abbreviation bestSide := (opposite (Order.Side (h0 !!! l))).

Lemma trades_add_up_trade s o r p e :
  Inv s → trades_add_up s → 0 < e → e <= w_remainingQty s →
  ∀ h ob rem,
    trades_add_up
      (Walk h ob (w_trades s ++ [newTrade o r p e]) (add64 (w_filled s) e) rem).
Proof.
  intros HI [HJ1 HJ2] He Hle h ob rem.
  destruct HI as [_ _ Hrem Hn _ _ _].
  pose proof (Hint l) as HQ. unfold int64 in HQ.
  split; simpl.
  - rewrite tradedQuantity_snoc, Quantity_newTrade, HJ1.
    unfold add64. rewrite wrap64_id; [done|]. unfold int64. lia.
  - apply Forall_app. split; [done|]. constructor; [|done].
    by rewrite Quantity_newTrade.
Qed.

Lemma limitLevelBody_adds_up side p s c :
  Inv s → trades_add_up s →
  limitLevelBody l side p s = Some c → trades_add_up (ctl_state c).
Proof.
  intros HI HJ. unfold limitLevelBody.
  destruct (negb _); [by intros [= <-]|].
  destruct (levelOrders side p (w_book s)) as [|r q]; [by intros [= <-]|].
  destruct (_ <=? 0); [by intros [= <-]|].
  set (e := if _ >? _ then _ else _).
  destruct (Z.leb_spec e 0) as [He|He]; [by intros [= <-]|].
  assert (Hle : e <= w_remainingQty s).
  { unfold e. destruct (Z.gtb_spec (w_remainingQty s)
                          (RemainingQuantity (w_heap s !!! r))); lia. }
  pose proof (trades_add_up_trade s (w_heap s !!! l) (w_heap s !!! r) p e
                HI HJ He Hle) as HT.
  destruct (_ || _); [intros [= <-]; apply HT|].
  destruct (_ =? _)%nat; intros [= <-]; apply HT.
Qed.

Lemma marketLevelBody_adds_up side p s c :
  Inv s → trades_add_up s →
  marketLevelBody l side p s = Some c → trades_add_up (ctl_state c).
Proof.
  intros HI HJ. unfold marketLevelBody.
  destruct (Z.ltb_spec 0 (w_remainingQty s)) as [Hrem|Hrem]; simpl;
    [|by intros [= <-]].
  destruct (levelOrders side p (w_book s)) as [|r q]; [by intros [= <-]|].
  destruct (Z.leb_spec (RemainingQuantity (w_heap s !!! r)) 0) as [Hr|Hr];
    [by intros [= <-]|].
  set (e := if _ >? _ then _ else _).
  assert (He : 0 < e ∧ e <= w_remainingQty s).
  { unfold e. destruct (Z.gtb_spec (w_remainingQty s)
                          (RemainingQuantity (w_heap s !!! r))); lia. }
  pose proof (trades_add_up_trade s (w_heap s !!! l) (w_heap s !!! r) p e
                HI HJ (proj1 He) (proj2 He)) as HT.
  destruct (_ <=? 0); [intros [= <-]; apply HT|].
  destruct (_ =? _)%nat; intros [= <-]; apply HT.
Qed.

Local Abbreviation Both := (λ s, Inv s ∧ trades_add_up s).

Lemma crosses_false o p : crosses false o p.
Proof. by intros ?. Qed.

Lemma limitLevel_both p s c :
  Both s → limitLevelBody l bestSide p s = Some c → Both (ctl_state c).
Proof.
  intros [HI HJ] E. split; [|by eapply limitLevelBody_adds_up].
  destruct (limitLevelBody_step l h0 ob0 false Hkeys Hfresh Hint p s HI
              (crosses_false _ _)) as (c' & E' & H).
  rewrite E in E'. injection E' as <-. destruct c; apply H.
Qed.

Lemma marketLevel_both p s c :
  Both s → marketLevelBody l bestSide p s = Some c → Both (ctl_state c).
Proof.
  intros [HI HJ] E. split; [|by eapply marketLevelBody_adds_up].
  destruct (marketLevelBody_step l h0 ob0 false Hkeys Hfresh Hint p s HI
              (crosses_false _ _)) as (c' & E' & H).
  rewrite E in E'. injection E' as <-. destruct c; apply H.
Qed.

Lemma limitBody_adds_up s c :
  Both s → limitBody l s = Some c → trades_add_up (ctl_state c).
Proof.
  intros [HI HJ]. unfold limitBody.
  destruct (negb _); [by intros [= <-]|].
  rewrite (walk_inv_side l h0 ob0 false s HI).
  destruct (Order.Side (h0 !!! l)) eqn:ES.
  - destruct (GetBestAsk _ _) as [[askPrice ?] hasAsk].
    destruct (negb hasAsk); [by intros [= <-]|].
    destruct (_ <? _); [by intros [= <-]|].
    destruct (GetPriceLevelForAsk _ _) as [lvl|]; [|by intros [= <-]].
    destruct (loop _ _ s) as [s'|] eqn:El; simpl; [|done].
    assert (Both s') as [_ HJ'].
    { eapply (loop_preserves _ Both); [|exact El|done].
      intros s1 c1. pose proof (limitLevel_both askPrice s1 c1) as H.
      by rewrite ES in H. }
    destruct (_ <=? _); by intros [= <-].
  - destruct (GetBestBid _ _) as [[bidPrice ?] hasBid].
    destruct (negb hasBid); [by intros [= <-]|].
    destruct (_ >? _); [by intros [= <-]|].
    destruct (GetPriceLevelForBid _ _) as [lvl|]; [|by intros [= <-]].
    destruct (loop _ _ s) as [s'|] eqn:El; simpl; [|done].
    assert (Both s') as [_ HJ'].
    { eapply (loop_preserves _ Both); [|exact El|done].
      intros s1 c1. pose proof (limitLevel_both bidPrice s1 c1) as H.
      by rewrite ES in H. }
    destruct (_ <=? _); by intros [= <-].
Qed.

Lemma marketBody_adds_up s c :
  Both s → marketBody l s = Some c → trades_add_up (ctl_state c).
Proof.
  intros [HI HJ]. unfold marketBody.
  destruct (negb _); [by intros [= <-]|].
  rewrite (walk_inv_side l h0 ob0 false s HI).
  destruct (Order.Side (h0 !!! l)) eqn:ES.
  - destruct (GetBestAsk _ _) as [[askPrice ?] hasAsk].
    destruct (negb hasAsk); [by intros [= <-]|].
    destruct (GetPriceLevelForAsk _ _) as [lvl|]; [|by intros [= <-]].
    destruct (loop _ _ s) as [s'|] eqn:El; simpl; [|done].
    assert (Both s') as [_ HJ'].
    { eapply (loop_preserves _ Both); [|exact El|done].
      intros s1 c1. pose proof (marketLevel_both askPrice s1 c1) as H.
      by rewrite ES in H. }
    by intros [= <-].
  - destruct (GetBestBid _ _) as [[bidPrice ?] hasBid].
    destruct (negb hasBid); [by intros [= <-]|].
    destruct (GetPriceLevelForBid _ _) as [lvl|]; [|by intros [= <-]].
    destruct (loop _ _ s) as [s'|] eqn:El; simpl; [|done].
    assert (Both s') as [_ HJ'].
    { eapply (loop_preserves _ Both); [|exact El|done].
      intros s1 c1. pose proof (marketLevel_both bidPrice s1 c1) as H.
      by rewrite ES in H. }
    by intros [= <-].
Qed.

Lemma walk_adds_up limit s :
  Order.FilledQuantity (h0 !!! l) = 0 →
  loop (treeFuel (oppositeTree (Order.Side (h0 !!! l)) ob0))
    (bodyOf limit l) (Walk h0 ob0 [] 0 (Order.Quantity (h0 !!! l))) = Some s →
  trades_add_up s.
Proof.
  intros HF El.
  assert (Both s) as [_ HJ]; [|done].
  eapply (loop_preserves _ Both); [|exact El|].
  - intros s1 c1 [HI HJ]. destruct limit; simpl; intros E.
    + split; [|by eapply limitBody_adds_up].
      destruct (limitBody_step l h0 ob0 false Hkeys Hfresh Hint s1 HI)
        as (c' & E' & H).
      rewrite E in E'. injection E' as <-. destruct c1; apply H.
    + split; [|by eapply marketBody_adds_up].
      destruct (marketBody_step l h0 ob0 false Hkeys Hfresh Hint s1 HI eq_refl)
        as (c' & E' & H).
      rewrite E in E'. injection E' as <-. destruct c1; apply H.
  - split; [by apply walk_inv_start|]. split; [done|constructor].
Qed.

End adds_up.

(** X8: [MatchOrder] on an order that is new to its book returns, and when
    it matches, every trade has a positive quantity, the quantities of the
    trades add up to the filled quantity of the result, which is also the
    filled quantity that the order has in the heap afterwards, and the
    filled and the remaining quantity of the result add up to the quantity
    of the order. *)
Theorem MatchOrder_trades_add_up l m :
  let order := Matcher.Heap m !!! l in
  let ob := bookOf (Order.Symbol order) m in
  keys_distinct ob → ¬ in_book l ob → heap_typed (Matcher.Heap m) →
  Order.FilledQuantity order = 0 →
  ∃ res m',
    MatchOrder l m = Some (res, m') ∧
    ∀ result, res = Matched result →
      Forall (λ t, 0 < Trade.Quantity t) (MatchResult.Trades result) ∧
      tradedQuantity (MatchResult.Trades result)
      = MatchResult.FilledQuantity result ∧
      Order.FilledQuantity (Matcher.Heap m' !!! l)
      = MatchResult.FilledQuantity result ∧
      MatchResult.FilledQuantity result + MatchResult.RemainingQuantity result
      = Order.Quantity order.
Proof.
  intros order ob Hk Hnb Ht HF.
  destruct (MatchOrder_walk l m Hk Hnb Ht HF) as (res & h' & ob' & E & H).
  fold order ob in E, H. eexists _, _. split; [exact E|]. simpl.
  intros result ->. destruct H as (s & El & HI & -> & -> & -> & -> & _).
  assert (Hfresh : ∀ side p, l ∉ levelOrders side p ob)
    by (intros; by apply not_in_book_queued).
  assert (Hint : ∀ l', int64 (Order.Quantity (Matcher.Heap m !!! l')))
    by (intros; by apply heap_typed_int64).
  destruct (walk_adds_up l (Matcher.Heap m) ob Hk Hfresh Hint _ s HF El)
    as [HJ1 HJ2].
  destruct HI as [_ Hf Hrem _ _ _ _]. fold order in Hrem.
  repeat split; try done. lia.
Qed.


(** ** Fill and GetOrCreateOrderBook *)

(** X10: [Fill], where the 64-bit arithmetic does not wrap around, takes
    the quantity off [RemainingQuantity], whether or not that leaves it
    negative; [IsFilled] holds afterwards exactly when nothing remains, the
    status is Filled in that case and PartialFill otherwise, whatever it
    was before, and no other field of the order changes. *)
Theorem Fill_remaining quantity o :
  int64 (Order.FilledQuantity o + quantity) →
  int64 (Order.Quantity o - Order.FilledQuantity o) →
  int64 (Order.Quantity o - Order.FilledQuantity o - quantity) →
  RemainingQuantity (Fill quantity o) = RemainingQuantity o - quantity ∧
  IsFilled (Fill quantity o)
  = bool_decide (RemainingQuantity (Fill quantity o) <= 0) ∧
  GetStatus (Fill quantity o)
  = (if IsFilled (Fill quantity o) then StatusFilled else StatusPartialFill) ∧
  headerOf (Fill quantity o) = headerOf o ∧
  Order.Timestamp (Fill quantity o) = Order.Timestamp o.
Proof.
  intros H1 H2 H3.
  assert (EF : Order.FilledQuantity (Fill quantity o)
               = Order.FilledQuantity o + quantity).
  { rewrite FilledQuantity_Fill. unfold add64. by apply wrap64_id. }
  assert (ER : RemainingQuantity (Fill quantity o)
               = RemainingQuantity o - quantity).
  { unfold RemainingQuantity, sub64. rewrite Quantity_Fill, EF.
    rewrite !wrap64_id; [lia|done|]. 
    replace (Order.Quantity o - (Order.FilledQuantity o + quantity))
      with (Order.Quantity o - Order.FilledQuantity o - quantity) by lia.
    done. }
  split; [done|].
  assert (EI : IsFilled (Fill quantity o)
               = bool_decide (RemainingQuantity (Fill quantity o) <= 0)).
  { unfold IsFilled. rewrite Quantity_Fill, EF, ER.
    unfold RemainingQuantity, sub64. rewrite wrap64_id by done.
    destruct (Z.leb_spec (Order.Quantity o)
                (Order.FilledQuantity o + quantity)).
    - rewrite bool_decide_eq_true_2; [done|lia].
    - rewrite bool_decide_eq_false_2; [done|lia]. }
  split; [done|]. split.
  - unfold IsFilled. rewrite Quantity_Fill, EF.
    unfold GetStatus, Fill. simpl.
    unfold add64. rewrite wrap64_id by done.
    by destruct (_ <=? _).
  - split; [apply headerOf_Fill|].
    unfold Fill. simpl. by destruct (_ <=? _).
Qed.

Lemma GetOrCreateOrderBook_spec symbol m :
  let ob := (GetOrCreateOrderBook symbol m).1 in
  let m' := (GetOrCreateOrderBook symbol m).2 in
  Matcher.OrderBooks m' !! symbol = Some ob ∧
  ob = bookOf symbol m ∧
  (Matcher.OrderBooks m !! symbol = None → ob = NewOrderBook symbol) ∧
  (is_Some (Matcher.OrderBooks m !! symbol) → m' = m) ∧
  Matcher.Heap m' = Matcher.Heap m ∧
  (∀ other, other ≠ symbol →
            Matcher.OrderBooks m' !! other = Matcher.OrderBooks m !! other) ∧
  GetOrCreateOrderBook symbol m' = (ob, m').
Proof.
  unfold GetOrCreateOrderBook, bookOf.
  destruct (Matcher.OrderBooks m !! symbol) as [ob|] eqn:E; simpl.
  - rewrite E. by destruct m.
  - rewrite lookup_insert_eq. repeat split; try done.
    intros other Hne. by rewrite lookup_insert_ne.
Qed.

(** X11: [GetOrCreateOrderBook] returns the book that the matcher holds
    for the symbol afterwards: the book it held before, in which case the
    matcher is unchanged, or a new empty book.  The heap and the books of
    the other symbols are left as they were, and a second call returns the
    same book and changes nothing. *)
Theorem GetOrCreateOrderBook_idempotent symbol m :
  let ob := (GetOrCreateOrderBook symbol m).1 in
  let m' := (GetOrCreateOrderBook symbol m).2 in
  Matcher.OrderBooks m' !! symbol = Some ob ∧
  ob = bookOf symbol m ∧
  (Matcher.OrderBooks m !! symbol = None → ob = NewOrderBook symbol) ∧
  (is_Some (Matcher.OrderBooks m !! symbol) → m' = m) ∧
  Matcher.Heap m' = Matcher.Heap m ∧
  (∀ other, other ≠ symbol →
            Matcher.OrderBooks m' !! other = Matcher.OrderBooks m !! other) ∧
  GetOrCreateOrderBook symbol m' = (ob, m').
Proof. apply GetOrCreateOrderBook_spec. Qed.


(** ** Well-formed matchers *)

Lemma in_book_cases l ob :
  keys_distinct ob →
  in_book l ob ↔
  (∃ side p, l ∈ levelOrders side p ob) ∨
  (∃ id, OrderBook.Orders ob !! id = Some l).
Proof.
  intros Hk. split.
  - unfold in_book, queuedOrders, indexedOrders.
    rewrite !elem_of_app, !elem_of_concat_levels.
    intros [[(lvl & H1 & H2)|(lvl & H1 & H2)]|H].
    + left. exists SideBuy, (PriceLevel.Price lvl). unfold levelOrders.
      by rewrite (tree_Get_elem _ _ (Hk SideBuy) H1).
    + left. exists SideSell, (PriceLevel.Price lvl). unfold levelOrders.
      by rewrite (tree_Get_elem _ _ (Hk SideSell) H1).
    + right. apply list_elem_of_fmap in H as ([id l'] & -> & H).
      apply elem_of_map_to_list in H. by exists id.
  - intros H. destruct (decide (in_book l ob)) as [|Hn]; [done|]. exfalso.
    destruct H as [(side & p & H)|(id & H)].
    + by apply (not_in_book_queued l ob side p Hn).
    + by apply (not_in_book_indexed l ob id Hn).
Qed.

Lemma level_prices_pointwise h ob :
  keys_distinct ob →
  level_prices h ob ↔
  ∀ side p r, r ∈ levelOrders side p ob → Order.Price (h !!! r) = p.
Proof.
  intros Hk. unfold level_prices. split.
  - intros H side p r Hr. unfold levelOrders in Hr.
    destruct (tree_Get p (treeOf side ob)) as [lvl|] eqn:G;
      [|by apply elem_of_nil in Hr].
    apply tree_Get_Some in G as [<- G].
    specialize (H side). rewrite Forall_forall in H.
    specialize (H lvl G). rewrite Forall_forall in H. by apply H.
  - intros H side. apply Forall_forall. intros lvl Hl.
    apply Forall_forall. intros r Hr.
    apply (H side). unfold levelOrders.
    by rewrite (tree_Get_elem _ _ (Hk side) Hl).
Qed.

Lemma in_book_shrinks l ob' ob :
  shrinks ob' ob → keys_distinct ob → in_book l ob' → in_book l ob.
Proof.
  intros Hs Hk H. destruct (decide (in_book l ob)) as [|Hn]; [done|].
  exfalso. revert H. apply in_book_pointwise.
  - by eapply shrinks_keys_distinct.
  - eapply shrinks_not_queued; [done|]. intros; by apply not_in_book_queued.
  - eapply shrinks_not_indexed; [done|].
    intros; by apply not_in_book_indexed.
Qed.

Lemma in_book_AddOrder l' l h ob :
  book_sorted ob → in_book l' (AddOrder l h ob) → l' = l ∨ in_book l' ob.
Proof.
  intros Hs H.
  pose proof (book_sorted_keys_distinct _ Hs) as Hk.
  pose proof (book_sorted_keys_distinct _ (AddOrder_sorted l h ob Hs))
    as Hk'.
  destruct (AddOrder_spec l h ob) as (E1 & E2 & E3 & E4).
  simpl in E1, E2, E3, E4.
  apply (in_book_cases _ _ Hk') in H. rewrite (in_book_cases _ _ Hk).
  destruct H as [(side & p & H)|(id & H)].
  - destruct (decide (side = Order.Side (h !!! l))) as [->|Hside].
    + destruct (decide (p = Order.Price (h !!! l))) as [->|Hp].
      * rewrite E2 in H. apply elem_of_app in H as [H|H].
        -- right. left. eauto.
        -- left. by apply list_elem_of_singleton in H.
      * rewrite (E3 p Hp) in H. right. left. eauto.
    + right. left. exists side, p. unfold levelOrders in *.
      by rewrite (E4 side Hside) in H.
  - rewrite E1 in H. apply lookup_insert_Some in H as [[_ <-]|[_ H]].
    + by left.
    + right. right. eauto.
Qed.

Lemma level_prices_shrinks h ob' ob :
  shrinks ob' ob → keys_distinct ob → level_prices h ob → level_prices h ob'.
Proof.
  intros Hs Hk H.
  rewrite level_prices_pointwise in H by done.
  rewrite level_prices_pointwise by (by eapply shrinks_keys_distinct).
  intros side p r Hr. apply (H side).
  eapply sublist_subseteq; [|exact Hr]. by apply shrinks_levelOrders.
Qed.

Lemma level_prices_headers (h h' : heap) ob :
  (∀ l, headerOf (h' !!! l) = headerOf (h !!! l)) →
  level_prices h ob → level_prices h' ob.
Proof.
  intros Hh H side. specialize (H side).
  eapply Forall_impl; [exact H|]. intros lvl Hl. simpl in *.
  eapply Forall_impl; [exact Hl|]. intros r Hr. simpl in *.
  destruct (headerOf_fields _ _ (Hh r)) as (_&_&_&EP&_). by rewrite EP.
Qed.

Lemma level_prices_AddOrder l h ob :
  book_sorted ob → level_prices h ob → level_prices h (AddOrder l h ob).
Proof.
  intros Hs H.
  pose proof (book_sorted_keys_distinct _ Hs) as Hk.
  pose proof (book_sorted_keys_distinct _ (AddOrder_sorted l h ob Hs))
    as Hk'.
  destruct (AddOrder_spec l h ob) as (E1 & E2 & E3 & E4).
  simpl in E1, E2, E3, E4.
  rewrite level_prices_pointwise in H by done.
  rewrite level_prices_pointwise by done.
  intros side p r Hr.
  destruct (decide (side = Order.Side (h !!! l))) as [->|Hside].
  - destruct (decide (p = Order.Price (h !!! l))) as [->|Hp].
    + rewrite E2 in Hr. apply elem_of_app in Hr as [Hr|Hr].
      * by apply (H (Order.Side (h !!! l))).
      * by apply list_elem_of_singleton in Hr as ->.
    + rewrite (E3 p Hp) in Hr. by apply (H (Order.Side (h !!! l))).
  - apply (H side). unfold levelOrders in *.
    by rewrite (E4 side Hside) in Hr.
Qed.

Lemma heap_typed_headers (h h' : heap) :
  (∀ l, headerOf (h' !!! l) = headerOf (h !!! l)) →
  heap_typed h → heap_typed h'.
Proof.
  intros Hh H l o E.
  assert (o = h' !!! l) as -> by (by rewrite lookup_total_alt, E).
  destruct (headerOf_fields _ _ (Hh l)) as (_&_&_&_&->).
  by apply heap_typed_int64.
Qed.

(** Matching writes to the heap, and takes nothing out of it. *)
Lemma limitLevelBody_dom l side p s c :
  limitLevelBody l side p s = Some c →
  dom (w_heap s) ⊆ dom (w_heap (ctl_state c)).
Proof.
  unfold limitLevelBody.
  repeat (match goal with
          | |- context [if ?b then _ else _] => destruct b
          | |- context [match ?q with [] => _ | _ :: _ => _ end] => destruct q
          end; try (intros [= <-]; simpl; set_solver)).
Qed.

Lemma marketLevelBody_dom l side p s c :
  marketLevelBody l side p s = Some c →
  dom (w_heap s) ⊆ dom (w_heap (ctl_state c)).
Proof.
  unfold marketLevelBody.
  repeat (match goal with
          | |- context [if ?b then _ else _] => destruct b
          | |- context [match ?q with [] => _ | _ :: _ => _ end] => destruct q
          end; try (intros [= <-]; simpl; set_solver)).
Qed.

Lemma level_loop_dom fuel body s s' :
  (∀ s c, body s = Some c → dom (w_heap s) ⊆ dom (w_heap (ctl_state c))) →
  loop fuel body s = Some s' → dom (w_heap s) ⊆ dom (w_heap s').
Proof.
  intros Hbody El.
  apply (loop_preserves body (λ s1, dom (w_heap s) ⊆ dom (w_heap s1)))
    with fuel s; [|done|done].
  intros s1 c H1 E. etrans; [exact H1|by apply Hbody].
Qed.

Lemma limitBody_dom l s c :
  limitBody l s = Some c → dom (w_heap s) ⊆ dom (w_heap (ctl_state c)).
Proof.
  unfold limitBody.
  destruct (negb _); [by intros [= <-]|].
  destruct (Order.Side _).
  - destruct (GetBestAsk _ _) as [[askPrice ?] hasAsk].
    destruct (negb hasAsk); [by intros [= <-]|].
    destruct (_ <? _); [by intros [= <-]|].
    destruct (GetPriceLevelForAsk _ _) as [lvl|]; [|by intros [= <-]].
    destruct (loop _ _ s) as [s'|] eqn:El; simpl; [|done].
    apply level_loop_dom in El; [|apply limitLevelBody_dom].
    destruct (_ <=? _); by intros [= <-].
  - destruct (GetBestBid _ _) as [[bidPrice ?] hasBid].
    destruct (negb hasBid); [by intros [= <-]|].
    destruct (_ >? _); [by intros [= <-]|].
    destruct (GetPriceLevelForBid _ _) as [lvl|]; [|by intros [= <-]].
    destruct (loop _ _ s) as [s'|] eqn:El; simpl; [|done].
    apply level_loop_dom in El; [|apply limitLevelBody_dom].
    destruct (_ <=? _); by intros [= <-].
Qed.

Lemma marketBody_dom l s c :
  marketBody l s = Some c → dom (w_heap s) ⊆ dom (w_heap (ctl_state c)).
Proof.
  unfold marketBody.
  destruct (negb _); [by intros [= <-]|].
  destruct (Order.Side _).
  - destruct (GetBestAsk _ _) as [[askPrice ?] hasAsk].
    destruct (negb hasAsk); [by intros [= <-]|].
    destruct (GetPriceLevelForAsk _ _) as [lvl|]; [|by intros [= <-]].
    destruct (loop _ _ s) as [s'|] eqn:El; simpl; [|done].
    apply level_loop_dom in El; [|apply marketLevelBody_dom].
    by intros [= <-].
  - destruct (GetBestBid _ _) as [[bidPrice ?] hasBid].
    destruct (negb hasBid); [by intros [= <-]|].
    destruct (GetPriceLevelForBid _ _) as [lvl|]; [|by intros [= <-]].
    destruct (loop _ _ s) as [s'|] eqn:El; simpl; [|done].
    apply level_loop_dom in El; [|apply marketLevelBody_dom].
    by intros [= <-].
Qed.

Lemma bodyOf_dom limit l s c :
  bodyOf limit l s = Some c → dom (w_heap s) ⊆ dom (w_heap (ctl_state c)).
Proof. destruct limit; [apply limitBody_dom|apply marketBody_dom]. Qed.

Lemma book_ok_new h symbol : book_ok h (NewOrderBook symbol).
Proof.
  split; [|split].
  - intros []; constructor.
  - intros []; constructor.
  - intros l H. unfold in_book, queuedOrders, indexedOrders in H. simpl in H.
    rewrite map_to_list_empty in H. by apply elem_of_nil in H.
Qed.

Lemma book_ok_bookOf symbol m : matcher_ok m → book_ok (Matcher.Heap m) (bookOf symbol m).
Proof.
  intros [_ H]. unfold bookOf.
  destruct (Matcher.OrderBooks m !! symbol) as [ob|] eqn:E; simpl;
    [by apply (H symbol)|apply book_ok_new].
Qed.

(** A change of the heap that keeps the headers and the locations. *)
Lemma book_ok_heap (h h' : heap) ob :
  (∀ l, headerOf (h' !!! l) = headerOf (h !!! l)) →
  dom h ⊆ dom h' → book_ok h ob → book_ok h' ob.
Proof.
  intros Hh Hd (H1 & H2 & H3). split; [done|]. split.
  - by eapply level_prices_headers.
  - intros l Hl. apply Hd. by apply H3.
Qed.

Lemma book_ok_shrinks h ob' ob :
  shrinks ob' ob → book_ok h ob → book_ok h ob'.
Proof.
  intros Hs (H1 & H2 & H3).
  pose proof (book_sorted_keys_distinct _ H1) as Hk.
  split; [by eapply shrinks_book_sorted|]. split.
  - by eapply level_prices_shrinks.
  - intros l Hl. apply H3. by eapply in_book_shrinks.
Qed.

Lemma book_ok_AddOrder l h ob :
  l ∈ dom h → book_ok h ob → book_ok h (AddOrder l h ob).
Proof.
  intros Hl (H1 & H2 & H3). split; [by apply AddOrder_sorted|]. split.
  - by apply level_prices_AddOrder.
  - intros l' H. apply in_book_AddOrder in H as [->|H]; auto.
Qed.

(** [MatchOrder] keeps the matcher well formed *)
Lemma MatchOrder_keeps_ok l m :
  let order := Matcher.Heap m !!! l in
  matcher_ok m → l ∈ dom (Matcher.Heap m) →
  ¬ in_book l (bookOf (Order.Symbol order) m) →
  Order.FilledQuantity order = 0 →
  ∃ res m', MatchOrder l m = Some (res, m') ∧ matcher_ok m' ∧
            dom (Matcher.Heap m) ⊆ dom (Matcher.Heap m').
Proof.
  intros order Hok Hl Hnb HF.
  pose proof (book_ok_bookOf (Order.Symbol order) m Hok) as Hb.
  pose proof Hok as [Ht Hbooks].
  pose proof Hb as (Hs & Hp & Hd).
  destruct (MatchOrder_walk l m (book_sorted_keys_distinct _ Hs) Hnb Ht HF)
    as (res & h' & ob' & E & H).
  fold order in E, H. eexists _, _. split; [exact E|]. simpl.
  assert (Hh : (∀ l', headerOf (h' !!! l') = headerOf (Matcher.Heap m !!! l'))
               ∧ dom (Matcher.Heap m) ⊆ dom h' ∧ book_ok h' ob').
  { destruct res as [result|req avail].
    - destruct H as (s & El & HI & -> & _ & _ & _ & H).
      assert (Hdom : dom (Matcher.Heap m) ⊆ dom (w_heap s)).
      { apply level_loop_dom in El; [done|]. apply bodyOf_dom. }
      pose proof (wi_header _ _ _ _ _ HI) as Hhd.
      split; [done|]. split; [done|].
      assert (Hw : book_ok (w_heap s) (w_book s)).
      { eapply book_ok_heap; [done|done|].
        eapply book_ok_shrinks; [apply HI|done]. }
      destruct (isLimit order).
      + destruct H as [[_ ->]|[_ ->]]; [done|].
        apply book_ok_AddOrder; [|done]. by apply Hdom.
      + by destruct H as (_ & -> & _).
    - destruct H as (_ & -> & -> & _). done. }
  destruct Hh as (Hhd & Hdom & Hob'). split; [|done]. split.
  - by eapply heap_typed_headers.
  - intros symbol ob. simpl.
    destruct (decide (symbol = Order.Symbol order)) as [->|Hne].
    + rewrite lookup_insert_eq. by intros [= <-].
    + rewrite lookup_insert_ne by done. intros Hsym.
      eapply book_ok_heap; [done|done|]. by apply (Hbooks symbol).
Qed.

Lemma matcher_ok_GetOrCreateOrderBook symbol m :
  matcher_ok m → matcher_ok (GetOrCreateOrderBook symbol m).2.
Proof.
  intros [Ht Hb]. unfold GetOrCreateOrderBook.
  destruct (Matcher.OrderBooks m !! symbol) as [ob|] eqn:E; simpl; [done|].
  split; [done|]. simpl. intros k ob.
  destruct (decide (k = symbol)) as [->|Hne].
  - rewrite lookup_insert_eq. intros [= <-]. apply book_ok_new.
  - rewrite lookup_insert_ne by done. apply Hb.
Qed.

Lemma matcher_ok_allocOrder o m :
  matcher_ok m → int64 (Order.Quantity o) →
  let l := (allocOrder o m).1 in
  let m' := (allocOrder o m).2 in
  matcher_ok m' ∧ l ∈ dom (Matcher.Heap m') ∧ Matcher.Heap m' !!! l = o ∧
  Matcher.OrderBooks m' = Matcher.OrderBooks m ∧
  ∀ symbol, ¬ in_book l (bookOf symbol m').
Proof.
  intros Hok Ho. unfold allocOrder. simpl.
  set (l := fresh (dom (Matcher.Heap m))).
  assert (Hl : l ∉ dom (Matcher.Heap m)) by apply is_fresh.
  pose proof Hok as [Ht Hb].
  split; [|split; [|split; [|split]]].
  - split; simpl.
    + by apply map_Forall_insert_2.
    + intros symbol ob E. destruct (Hb symbol ob E) as (H1 & H2 & H3).
      pose proof (book_sorted_keys_distinct _ H1) as Hk.
      split; [done|]. split.
      * rewrite level_prices_pointwise in H2 by done.
        rewrite level_prices_pointwise by done.
        intros side p r Hr.
        assert (r ≠ l).
        { intros ->. apply Hl, H3. apply in_book_cases; [done|].
          left. eauto. }
        rewrite lookup_total_insert_ne by done. by apply (H2 side).
      * intros l' Hl'. apply elem_of_dom. 
        destruct (decide (l' = l)) as [->|Hne].
        -- rewrite lookup_insert_eq. by eexists.
        -- rewrite lookup_insert_ne by done. apply elem_of_dom. by apply H3.
  - simpl. apply elem_of_dom. rewrite lookup_insert_eq. by eexists.
  - simpl. apply lookup_total_insert_eq.
  - done.
  - intros symbol H. apply Hl.
    assert (book_ok (Matcher.Heap m) (bookOf symbol m)) as (_ & _ & H3)
      by (by apply book_ok_bookOf).
    by apply H3.
Qed.

Lemma SubmitOrder_ok orderID now req m :
  matcher_ok m → int64 (SubmitOrderRequest.Quantity req) →
  ∃ reply m', SubmitOrder orderID now req m = Some (reply, m') ∧
              matcher_ok m'.
Proof.
  intros Hok Hq. unfold SubmitOrder.
  destruct (validateSubmitOrderRequest req); [by eexists _, _|].
  unfold submitValidated.
  destruct (matcher_ok_allocOrder (orderOfRequest orderID now req) m Hok Hq)
    as (Hok1 & Hl & El & _ & Hnb).
  destruct (allocOrder (orderOfRequest orderID now req) m) as [l m1].
  simpl in Hok1, Hl, El, Hnb.
  destruct (MatchOrder_keeps_ok l m1 Hok1 Hl (Hnb _))
    as (res & m2 & E & Hok2 & _).
  { by rewrite El. }
  rewrite E. simpl. destruct res as [result|req' avail].
  - by eexists _, _.
  - pose proof (matcher_ok_GetOrCreateOrderBook
                  (SubmitOrderRequest.Symbol req) m2 Hok2) as Hok3.
    destruct (GetOrCreateOrderBook (SubmitOrderRequest.Symbol req) m2)
      as [ob3 m3]. by eexists _, _.
Qed.

(** X12: on a well-formed matcher (sorted trees, every order queued at the
    price of its level, books that hold orders of the heap only, 64-bit
    quantities) [SubmitOrder] returns a reply for every request whose
    quantity is a 64-bit integer, within the rounds granted to its loops,
    and leaves a well-formed matcher. *)
Theorem SubmitOrder_keeps_ok orderID now req m :
  matcher_ok m → int64 (SubmitOrderRequest.Quantity req) →
  ∃ reply m', SubmitOrder orderID now req m = Some (reply, m') ∧
              matcher_ok m'.
Proof. apply SubmitOrder_ok. Qed.

Lemma CancelOrder_ok entries orderID m :
  matcher_ok m →
  (∀ k ob, (k, ob) ∈ entries → Matcher.OrderBooks m !! k = Some ob) →
  matcher_ok (CancelOrder entries orderID m).2.
Proof.
  intros Hok Hent. unfold CancelOrder.
  destruct (findOrder orderID entries) as [[[symbol ob] l]|] eqn:Ef; [|done].
  destruct (decide (GetStatus (Matcher.Heap m !!! l) = StatusFilled));
    [done|]. simpl.
  apply findOrder_Some in Ef as [Hin Hget]. apply Hent in Hin.
  pose proof Hok as [Ht Hb].
  set (h' := <[l := _]> (Matcher.Heap m)).
  assert (Hh : ∀ l', headerOf (h' !!! l') = headerOf (Matcher.Heap m !!! l')).
  { intros l'. unfold h'. destruct (decide (l' = l)) as [->|Hne].
    - by rewrite lookup_total_insert_eq.
    - by rewrite lookup_total_insert_ne. }
  assert (Hd : dom (Matcher.Heap m) ⊆ dom h').
  { unfold h'. set_solver. }
  split; simpl.
  - by eapply heap_typed_headers.
  - intros k ob'. destruct (decide (k = symbol)) as [->|Hne].
    + rewrite lookup_insert_eq. intros [= <-].
      pose proof (Hb symbol ob Hin) as Hbo.
      eapply book_ok_heap; [done|done|].
      eapply book_ok_shrinks; [|done].
      apply shrinks_RemoveOrder, book_sorted_keys_distinct, Hbo.
    + rewrite lookup_insert_ne by done. intros E.
      eapply book_ok_heap; [done|done|]. by apply (Hb k).
Qed.

(** X13: [CancelOrder], run on books that the matcher holds, leaves a
    well-formed matcher well formed, whatever it replies. *)
Theorem CancelOrder_keeps_ok entries orderID m :
  matcher_ok m →
  (∀ k ob, (k, ob) ∈ entries → Matcher.OrderBooks m !! k = Some ob) →
  matcher_ok (CancelOrder entries orderID m).2.
Proof. apply CancelOrder_ok. Qed.


(** ** The order-book endpoint, the latency window and the reachable states *)

Lemma envPositive_pos env dflt : 0 < dflt → 0 < envPositive env dflt.
Proof.
  intros H. unfold envPositive. destruct env as [parsed|]; [|done].
  destruct (Z.gtb_spec parsed 0); lia.
Qed.

Lemma depthOf_bounds envDepth envMaxDepth query :
  0 < depthOf envDepth envMaxDepth query <= envPositive envMaxDepth 1000.
Proof.
  unfold depthOf.
  pose proof (envPositive_pos envDepth 10 ltac:(lia)).
  pose proof (envPositive_pos envMaxDepth 1000 ltac:(lia)).
  destruct query as [| |d]; [| |destruct (Z.leb_spec d 0)];
    match goal with
    | |- context [?a >? ?b] => destruct (Z.gtb_spec a b)
    end; lia.
Qed.

(** X16: the depth that [GetOrderBook] uses is positive and at most the
    maximum depth, whatever the query and the environment hold, and the
    call leaves the heap as it was and a book for the symbol in the
    matcher, an empty one that it creates for an unknown symbol, also when
    it then panics.  It answers exactly when the runtime allots the slices
    of the snapshot: for a depth above 2^44, which [ORDERBOOK_MAX_DEPTH]
    and the query can ask for, or above what the memory gives, there is no
    response; for any other depth the response carries the symbol, the
    time and the first [depth] levels of each tree of the book, each with
    its price and the 64-bit sum of what remains of its queue. *)
Theorem GetOrderBook_depth maxCap envDepth envMaxDepth query symbol now m :
  let depth := depthOf envDepth envMaxDepth query in
  let ob := bookOf symbol m in
  let reply := GetOrderBook maxCap envDepth envMaxDepth query symbol now m in
  0 < depth <= envPositive envMaxDepth 1000 ∧
  Matcher.Heap reply.2 = Matcher.Heap m ∧
  Matcher.OrderBooks reply.2 = <[symbol := ob]> (Matcher.OrderBooks m) ∧
  (2 ^ 44 < depth ∨ maxCap < depth → reply.1 = None) ∧
  (depth <= 2 ^ 44 → depth <= maxCap →
   ∃ response,
     reply.1 = Some response ∧
     OrderBookResponse.Symbol response = symbol ∧
     OrderBookResponse.Timestamp response = now ∧
     OrderBookResponse.Bids response
     = levelInfo (Matcher.Heap m)
         <$> take (Z.to_nat depth) (OrderBook.Bids ob) ∧
     OrderBookResponse.Asks response
     = levelInfo (Matcher.Heap m)
         <$> take (Z.to_nat depth) (OrderBook.Asks ob) ∧
     Z.of_nat (length (OrderBookResponse.Bids response)) <= depth ∧
     Z.of_nat (length (OrderBookResponse.Asks response)) <= depth).
Proof.
  intros depth ob reply.
  pose proof (depthOf_bounds envDepth envMaxDepth query) as Hd. fold depth in Hd.
  subst reply. unfold GetOrderBook. fold depth.
  destruct (GetOrCreateOrderBook_spec symbol m)
    as (E1 & E2 & _ & E4 & E5 & _).
  assert (E6 : Matcher.OrderBooks (GetOrCreateOrderBook symbol m).2
               = <[symbol := ob]> (Matcher.OrderBooks m)).
  { unfold GetOrCreateOrderBook, ob, bookOf.
    destruct (Matcher.OrderBooks m !! symbol) eqn:E; simpl; [|done].
    by rewrite insert_id. }
  destruct (GetOrCreateOrderBook symbol m) as [ob1 m1].
  simpl in E1, E2, E5, E6. subst ob1. fold ob. rewrite E5.
  split; [done|].
  assert (Hm : ∀ r : option (list OrderBookSnapshot.t
                             * list OrderBookSnapshot.t),
            (match r with
             | Some (bidsLevels, asksLevels) =>
                 (Some (OrderBookResponse.mk symbol now
                          ((λ level, (OrderBookSnapshot.Price level,
                                      OrderBookSnapshot.Quantity level))
                             <$> bidsLevels)
                          ((λ level, (OrderBookSnapshot.Price level,
                                      OrderBookSnapshot.Quantity level))
                             <$> asksLevels)), m1)
             | None => (None, m1)
             end).2 = m1)
    by (intros [[? ?]|]; done).
  rewrite Hm. split; [done|]. split; [done|]. split.
  - intros H. rewrite GetOrderBookSnapshot_None; [done|]. lia.
  - intros H44 Hcap. rewrite GetOrderBookSnapshot_Some by lia. simpl.
    rewrite !ascendSnapshot_take, Z.sub_0_r. simpl.
    eexists. split; [done|]. simpl. rewrite <- !list_fmap_compose.
    split; [done|]. split; [done|]. split; [done|]. split; [done|].
    rewrite !length_fmap, !length_take. lia.
Qed.

(** X17: [recordLatency] with the [maxLatencies] that [NewOrderHandler]
    sets does not panic; the window it leaves is a suffix of the old window
    followed by the new latency, ends with the new latency, and has as many
    entries as the old window and one more, or [maxLatencies] if that is
    less. *)
Theorem recordLatency_window envMax latency latencies :
  let maxLatencies := NewOrderHandler_maxLatencies envMax in
  Z.of_nat (length latencies) + 1 < 2 ^ 63 →
  ∃ latencies',
    recordLatency latency maxLatencies latencies = Some latencies' ∧
    latencies' `suffix_of` latencies ++ [latency] ∧
    last latencies' = Some latency ∧
    Z.of_nat (length latencies')
    = Z.min (Z.of_nat (length latencies) + 1) maxLatencies.
Proof.
  intros maxLatencies Hl.
  assert (Hm : 0 < maxLatencies) by (by apply envPositive_pos).
  unfold recordLatency. rewrite length_app. simpl.
  replace (Z.of_nat (length latencies + 1))
    with (Z.of_nat (length latencies) + 1) by lia.
  set (n := Z.of_nat (length latencies) + 1) in *.
  destruct (Z.gtb_spec n maxLatencies) as [Hgt|Hle].
  - unfold sub64. rewrite wrap64_id by (unfold int64; lia).
    destruct (Z.ltb_spec (n - maxLatencies) 0); [lia|].
    destruct (Z.ltb_spec n (n - maxLatencies)); [lia|]. simpl.
    eexists. split; [done|]. split; [apply suffix_drop|].
    split.
    + rewrite drop_app_le by lia. apply last_snoc.
    + rewrite length_drop, length_app. simpl. lia.
  - eexists. split; [done|]. split; [done|].
    rewrite length_app. simpl. split; [apply last_snoc|lia].
Qed.

Lemma GetOrderBook_matcher maxCap envDepth envMaxDepth query symbol now m :
  (GetOrderBook maxCap envDepth envMaxDepth query symbol now m).2
  = (GetOrCreateOrderBook symbol m).2.
Proof.
  unfold GetOrderBook. destruct (GetOrCreateOrderBook symbol m) as [ob1 m1].
  by destruct (GetOrderBookSnapshot _ _ _ _) as [[? ?]|].
Qed.

Lemma matcher_ok_new : matcher_ok NewMatcher.
Proof.
  split; [apply map_Forall_empty|]. intros symbol ob.
  unfold NewMatcher. simpl. by rewrite lookup_empty.
Qed.

Lemma reachable_matcher_ok m : reachable m → matcher_ok m.
Proof.
  induction 1 as [|m orderID now req reply m' _ IH Hq E
                  |m entries orderID _ IH Hent
                  |m maxCap envDepth envMaxDepth query symbol now _ IH].
  - apply matcher_ok_new.
  - destruct (SubmitOrder_ok orderID now req m IH Hq)
      as (reply' & m'' & E' & Hok).
    rewrite E in E'. by injection E' as <- <-.
  - apply CancelOrder_ok; [done|].
    intros k ob. by rewrite (entries_lookup _ _ _ _ Hent).
  - rewrite GetOrderBook_matcher.
    by apply matcher_ok_GetOrCreateOrderBook.
Qed.

Lemma reachable_andThenSubmit orderID now req run :
  reachable (matcherOf run) → int64 (SubmitOrderRequest.Quantity req) →
  reachable (matcherOf (andThenSubmit orderID now req run)).
Proof.
  intros Hr Hq. unfold andThenSubmit.
  destruct run as [[reply m]|]; simpl in *; [|constructor].
  destruct (SubmitOrder orderID now req m) as [[reply' m']|] eqn:E; simpl;
    [|constructor].
  by eapply reach_submit.
Qed.

(** X14: every state that [SubmitOrder], [CancelOrder] and [GetOrderBook]
    reach from the empty matcher is well formed, and on every such state
    [SubmitOrder] returns a reply for every request whose quantity is a
    64-bit integer. *)
Theorem reachable_ok m :
  reachable m →
  matcher_ok m ∧
  ∀ orderID now req,
    int64 (SubmitOrderRequest.Quantity req) →
    ∃ reply m', SubmitOrder orderID now req m = Some (reply, m') ∧
                reachable m'.
Proof.
  intros Hr. pose proof (reachable_matcher_ok m Hr) as Hok.
  split; [done|]. intros orderID now req Hq.
  destruct (SubmitOrder_ok orderID now req m Hok Hq) as (reply & m' & E & _).
  exists reply, m'. split; [done|]. by eapply reach_submit.
Qed.

(** X15: when the opposite side holds less in total than a valid market
    request asks for, [SubmitOrder] replies with insufficient liquidity and
    reports as available the quantity of the best level of the opposite
    side as [GetBestBid] or [GetBestAsk] gives it, not the total that the
    matcher compared with; the order has been allocated, the book of the
    symbol is the one the matcher had (an empty one when it had none), and
    the other books are unchanged. *)
Theorem SubmitOrder_insufficient_liquidity orderID now req m :
  validateSubmitOrderRequest req = None →
  SubmitOrderRequest.Type_ req = "MARKET"%string →
  let order := orderOfRequest orderID now req in
  let h := <[fresh (dom (Matcher.Heap m)) := order]> (Matcher.Heap m) in
  let ob := bookOf (SubmitOrderRequest.Symbol req) m in
  let tree := oppositeTree (Order.Side order) ob in
  totalAvailableOf h tree < SubmitOrderRequest.Quantity req →
  SubmitOrder orderID now req m
  = Some (SubmitInsufficientLiquidity (bestOf h tree).1.2
            (SubmitOrderRequest.Quantity req),
          Matcher.mk h
            (<[SubmitOrderRequest.Symbol req := ob]> (Matcher.OrderBooks m))).
Proof.
  intros Hv Hty order h ob tree Hlt.
  unfold SubmitOrder. rewrite Hv. unfold submitValidated, allocOrder.
  set (l := fresh (dom (Matcher.Heap m))) in *. fold order. fold h.
  unfold MatchOrder. cbn [Matcher.Heap Matcher.OrderBooks].
  assert (El : h !!! l = order) by apply lookup_total_insert_eq.
  rewrite El.
  assert (Esym : Order.Symbol order = SubmitOrderRequest.Symbol req) by done.
  assert (Etype : Order.Type_ order = TypeMarket).
  { unfold order, orderOfRequest. by rewrite Hty. }
  rewrite Esym.
  set (m1 := Matcher.mk h (Matcher.OrderBooks m)).
  pose proof (GetOrCreateOrderBook_insert (SubmitOrderRequest.Symbol req) m1)
    as EI.
  destruct (GetOrCreateOrderBook_bookOf (SubmitOrderRequest.Symbol req) m1)
    as [E1 E2].
  destruct (GetOrCreateOrderBook (SubmitOrderRequest.Symbol req) m1)
    as [ob1 m2].
  simpl in E1, E2, EI.
  assert (ob1 = ob) as -> by (by rewrite E1).
  rewrite E2, El.
  destruct (decide (Order.Type_ order = TypeMarket)); [|done].
  rewrite matchMarketOrder_insufficient by (by rewrite El).
  simpl. rewrite EI.
  unfold GetOrCreateOrderBook. simpl. rewrite lookup_insert_eq.
  cbn [Matcher.Heap]. rewrite El.
  unfold GetBestAsk, GetBestBid, tree. by destruct (Order.Side order).
Qed.


(** ** The rate limiter *)

Lemma string_append_cons x (a b : string) :
  String x a +:+ b = String x (a +:+ b).
Proof. done. Qed.

Lemma string_length_append (a b : string) :
  String.length (a +:+ b) = (String.length a + String.length b)%nat.
Proof.
  induction a as [|c a IH]; [done|].
  rewrite string_append_cons. simpl. by rewrite IH.
Qed.

Lemma substring_append (a b : string) :
  String.substring 0 (String.length a) (a +:+ b) = a.
Proof.
  induction a as [|c a IH]; [by destruct b|].
  rewrite string_append_cons. simpl. by rewrite IH.
Qed.

Lemma string_append_assoc (a b c : string) :
  (a +:+ b) +:+ c = a +:+ (b +:+ c).
Proof.
  induction a as [|x a IH]; [done|].
  by rewrite !string_append_cons, IH.
Qed.

Lemma string_append_inj (a b c : string) : a +:+ b = a +:+ c → b = c.
Proof.
  induction a as [|x a IH]; [done|].
  rewrite !string_append_cons. intros [= H]. auto.
Qed.

Lemma pretty_N_go_nonempty x s :
  s ≠ EmptyString → pretty_N_go x s ≠ EmptyString.
Proof.
  revert s. induction (N.lt_wf_0 x) as [x _ IH]; intros s Hs.
  assert (x = 0 ∨ 0 < x)%N as [->|?] by lia.
  - by rewrite pretty_N_go_0.
  - rewrite pretty_N_go_step by done. apply IH; [by apply N.div_lt|done].
Qed.

Lemma pretty_Z_nonempty (z : Z) : pretty z ≠ EmptyString.
Proof.
  destruct z as [|p|p]; [done| |done].
  unfold pretty, pretty_Z, pretty, pretty_positive, pretty, pretty_N.
  destruct (decide (N.pos p = 0%N)); [done|].
  rewrite pretty_N_go_step by lia. by apply pretty_N_go_nonempty.
Qed.

Lemma hasClientPrefix_key clientIP (z : Z) :
  hasClientPrefix clientIP (clientIP +:+ "_" +:+ pretty z) = true.
Proof.
  unfold hasClientPrefix. rewrite <- string_append_assoc.
  rewrite substring_append, String.eqb_refl, andb_true_r.
  apply Nat.ltb_lt. rewrite (string_length_append (clientIP +:+ "_")).
  pose proof (pretty_Z_nonempty z). destruct (pretty z); [done|]. simpl. lia.
Qed.

Lemma getWindowKey_Some seconds rl clientIP now :
  seconds (RateLimiter.windowDuration rl) ≠ 0 →
  getWindowKey seconds rl clientIP now
  = Some (clientIP +:+ "_"
          +:+ pretty (wrap64 (Z.quot now
                                (seconds (RateLimiter.windowDuration rl))))).
Proof.
  intros H. unfold getWindowKey. by rewrite (proj2 (Z.eqb_neq _ _) H).
Qed.

(** X18: when the window of the limiter has no whole second,
    [getWindowKey] and with it [Allow] panic on a division by zero;
    otherwise [getWindowKey] returns a key, and the keys of one client at
    two times are the same exactly when the times fall into the same
    window. *)
Theorem getWindowKey_window seconds rl clientIP now1 now2 :
  let d := seconds (RateLimiter.windowDuration rl) in
  (d = 0 →
   getWindowKey seconds rl clientIP now1 = None ∧
   Allow seconds clientIP now1 rl = None) ∧
  (d ≠ 0 →
   is_Some (getWindowKey seconds rl clientIP now1) ∧
   (getWindowKey seconds rl clientIP now1
    = getWindowKey seconds rl clientIP now2 ↔
    wrap64 (Z.quot now1 d) = wrap64 (Z.quot now2 d))).
Proof.
  intros d. split; intros Hd.
  - unfold Allow, getWindowKey. fold d. by rewrite Hd.
  - rewrite !getWindowKey_Some by done. fold d. split; [by eexists|]. split.
    + intros [= H]. apply string_append_inj, string_append_inj in H.
      by apply (inj pretty) in H.
    + by intros ->.
Qed.

(** X19: [Allow] for a client, when the window has a whole second,
    returns; it leaves the limit and the window as they are and changes no
    counter whose key fails the prefix test of the client.  When the
    current window of the client has no counter, the request is allowed,
    the counter is set to 1, and every other counter whose key passes the
    prefix test of the client is deleted, which includes the counters of a
    client whose own id starts with that prefix; when it has one, the
    request is allowed exactly when the counter is below the limit, and no
    other counter changes. *)
Theorem Allow_touches_own_keys seconds clientIP now rl :
  seconds (RateLimiter.windowDuration rl) ≠ 0 →
  ∃ key allowed rl',
    getWindowKey seconds rl clientIP now = Some key ∧
    Allow seconds clientIP now rl = Some (allowed, rl') ∧
    hasClientPrefix clientIP key = true ∧
    RateLimiter.maxRequests rl' = RateLimiter.maxRequests rl ∧
    RateLimiter.windowDuration rl' = RateLimiter.windowDuration rl ∧
    (∀ k, hasClientPrefix clientIP k = false →
          RateLimiter.counters rl' !! k = RateLimiter.counters rl !! k) ∧
    (RateLimiter.counters rl !! key = None →
     allowed = true ∧ RateLimiter.counters rl' !! key = Some 1 ∧
     ∀ k, k ≠ key → hasClientPrefix clientIP k = true →
          RateLimiter.counters rl' !! k = None) ∧
    (∀ count, RateLimiter.counters rl !! key = Some count →
              allowed = bool_decide (count < RateLimiter.maxRequests rl) ∧
              ∀ k, k ≠ key →
                   RateLimiter.counters rl' !! k
                   = RateLimiter.counters rl !! k).
Proof.
  intros Hd. pose proof (getWindowKey_Some seconds rl clientIP now Hd) as Ek.
  set (key := _ +:+ _) in Ek.
  assert (Hkey : hasClientPrefix clientIP key = true)
    by apply hasClientPrefix_key.
  unfold Allow, removeOldWindows. rewrite Ek. simpl.
  destruct (RateLimiter.counters rl !! key) as [count|] eqn:Ec.
  - destruct (Z.geb_spec count (RateLimiter.maxRequests rl)) as [Hge|Hlt].
    + eexists key, _, _. do 5 (split; [done|]). split; [done|].
      split; [congruence|].
      intros c Hc. assert (c = count) as -> by congruence.
      rewrite bool_decide_eq_false_2 by lia. done.
    + eexists key, _, _. do 5 (split; [done|]). simpl.
      split; [|split; [congruence|]].
      * intros k Hk. rewrite lookup_insert_ne; [done|]. congruence.
      * intros c Hc. assert (c = count) as -> by congruence.
        rewrite bool_decide_eq_true_2 by lia.
        split; [done|]. intros k Hk. by rewrite lookup_insert_ne.
  - eexists key, _, _. do 5 (split; [done|]). simpl.
    split; [|split; [|congruence]].
    + intros k Hk. rewrite lookup_insert_ne by congruence.
      destruct (RateLimiter.counters rl !! k) as [x|] eqn:E.
      * apply map_lookup_filter_Some. split; [done|]. simpl.
        intros [_ H]. congruence.
      * apply map_lookup_filter_None. by left.
    + intros _. split; [done|]. split; [by rewrite lookup_insert_eq|].
      intros k Hk Hp. rewrite lookup_insert_ne by done.
      apply map_lookup_filter_None. right. intros x _ H. simpl in H.
      apply H. done.
Qed.

Lemma AllowAll_counted seconds clientIP nows rl w (k : nat) :
  let d := seconds (RateLimiter.windowDuration rl) in
  let limit := Z.max 1 (RateLimiter.maxRequests rl) in
  d ≠ 0 →
  Forall (λ now, wrap64 (Z.quot now d) = w) nows →
  RateLimiter.maxRequests rl < 2 ^ 63 →
  (Z.of_nat k < limit) →
  RateLimiter.counters rl !! (clientIP +:+ "_" +:+ pretty w)
  = Some (limit - Z.of_nat k) →
  ∃ rl', AllowAll seconds clientIP nows rl
         = Some (replicate (min (length nows) k) true
                 ++ replicate (length nows - k) false, rl').
Proof.
  intros d limit Hd Hw Hmax. subst d limit.
  revert rl k Hd Hw Hmax. induction nows as [|now nows IH];
    intros rl k Hd Hw Hmax Hk Hc; simpl.
  { by eexists. }
  apply Forall_cons in Hw as [Hnow Hw].
  unfold Allow. rewrite getWindowKey_Some by done. rewrite Hnow. simpl.
  rewrite Hc.
  set (limit := Z.max 1 (RateLimiter.maxRequests rl)) in *.
  destruct (Z.geb_spec (limit - Z.of_nat k) (RateLimiter.maxRequests rl))
    as [Hge|Hlt]; simpl.
  - assert (k = 0%nat) as -> by lia.
    destruct (IH rl 0%nat Hd Hw Hmax Hk Hc) as (rl' & ->). simpl.
    rewrite Nat.min_0_r, Nat.sub_0_r. simpl. by eexists.
  - destruct k as [|k]; [lia|].
    set (rl1 := RateLimiter.with_counters _ rl).
    destruct (IH rl1 k) as (rl' & ->); try done.
    + unfold rl1. simpl. fold limit. lia.
    + unfold rl1. simpl. fold limit. rewrite lookup_insert_eq. f_equal.
      unfold add64. rewrite wrap64_id; [lia|]. unfold int64. lia.
    + simpl. by eexists.
Qed.

(** X20: of the requests of one client that fall into one window, the
    first of which finds no counter for that window, [Allow] admits the
    first [maxRequests] and turns down all that follow; with a limit below
    1 it still admits the first. *)
Theorem AllowAll_window_limit seconds clientIP now nows rl w :
  let d := seconds (RateLimiter.windowDuration rl) in
  let limit := Z.to_nat (Z.max 1 (RateLimiter.maxRequests rl)) in
  d ≠ 0 →
  Forall (λ now, wrap64 (Z.quot now d) = w) (now :: nows) →
  RateLimiter.maxRequests rl < 2 ^ 63 →
  RateLimiter.counters rl !! (clientIP +:+ "_" +:+ pretty w) = None →
  ∃ rl', AllowAll seconds clientIP (now :: nows) rl
         = Some (replicate (min (S (length nows)) limit) true
                 ++ replicate (S (length nows) - limit) false, rl').
Proof.
  intros d limit Hd Hw Hmax Hc. subst d.
  apply Forall_cons in Hw as [Hnow Hw]. simpl.
  unfold Allow, removeOldWindows. rewrite getWindowKey_Some by done.
  rewrite Hnow. simpl. rewrite Hc. simpl.
  set (rl1 := RateLimiter.with_counters (<[_ := 1]> _) _).
  destruct (AllowAll_counted seconds clientIP nows rl1 w (limit - 1)%nat)
    as (rl' & ->); try done.
  - unfold limit. simpl. lia.
  - simpl. rewrite lookup_insert_eq. f_equal. unfold limit. lia.
  - simpl. exists rl'. do 2 f_equal.
    destruct limit as [|n] eqn:E; [unfold limit in E; lia|].
    simpl. rewrite Nat.sub_0_r. done.
Qed.

(** ** The status of a submitted order and the head of the snapshot *)

Lemma GetOrderStatus_NotFound entries orderID m :
  entries ≡ₚ map_to_list (Matcher.OrderBooks m) →
  unindexed orderID m →
  GetOrderStatus entries orderID m = StatusNotFound.
Proof.
  intros He Hu. unfold GetOrderStatus.
  assert (findOrder orderID entries = None) as ->; [|done].
  apply findOrder_None. intros k ob Hin. apply (Hu k).
  by apply (entries_lookup _ _ _ _ He).
Qed.

Lemma GetOrderStatus_found entries orderID m symbol ob l :
  entries ≡ₚ map_to_list (Matcher.OrderBooks m) →
  Matcher.OrderBooks m !! symbol = Some ob →
  GetOrder orderID ob = Some l →
  (∀ k ob', k ≠ symbol → Matcher.OrderBooks m !! k = Some ob' →
            GetOrder orderID ob' = None) →
  GetOrderStatus entries orderID m = StatusOK (Matcher.Heap m !!! l).
Proof.
  intros He Hs Hg Hu. unfold GetOrderStatus.
  destruct (findOrder orderID entries) as [[[k ob'] l']|] eqn:Ef.
  - apply findOrder_Some in Ef as [Hin Hg'].
    apply (entries_lookup _ _ _ _ He) in Hin.
    destruct (decide (k = symbol)) as [->|Hne].
    + rewrite Hs in Hin. injection Hin as <-. rewrite Hg in Hg'.
      by injection Hg' as <-.
    + rewrite (Hu k ob' Hne Hin) in Hg'. done.
  - exfalso. rewrite findOrder_None in Ef.
    rewrite (Ef symbol ob) in Hg; [done|].
    by apply (entries_lookup _ _ _ _ He).
Qed.

(** X21: on a well-formed matcher none of whose books indexes the id,
    [SubmitOrder] with that id and a 64-bit quantity returns, and a
    status lookup of the id right afterwards agrees with the reply: after
    201 Created and 202 Accepted it finds the order, with the requested
    quantity and the filled quantity of the reply, which is below the
    requested one; after 200 OK (the order is filled, or is a market
    order), after insufficient liquidity and after a bad request it finds
    nothing. *)
Theorem GetOrderStatus_after_SubmitOrder orderID now req m :
  matcher_ok m → int64 (SubmitOrderRequest.Quantity req) →
  unindexed orderID m →
  ∃ reply m',
    SubmitOrder orderID now req m = Some (reply, m') ∧
    ∀ entries, entries ≡ₚ map_to_list (Matcher.OrderBooks m') →
      match reply with
      | SubmitCreated response | SubmitAccepted response =>
          ∃ o, GetOrderStatus entries orderID m' = StatusOK o ∧
               Order.ID o = orderID ∧
               Order.Quantity o = SubmitOrderRequest.Quantity req ∧
               Order.FilledQuantity o
               = SubmitOrderResponse.FilledQuantity response ∧
               SubmitOrderResponse.FilledQuantity response
               < SubmitOrderRequest.Quantity req
      | SubmitOK _ | SubmitInsufficientLiquidity _ _ | SubmitBadRequest _ =>
          GetOrderStatus entries orderID m' = StatusNotFound
      end.
Proof.
  intros Hok Hq Hu. unfold SubmitOrder.
  destruct (validateSubmitOrderRequest req) eqn:Ev.
  { eexists _, _. split; [done|]. intros entries He.
    by apply GetOrderStatus_NotFound. }
  assert (Hpos : 0 < SubmitOrderRequest.Quantity req).
  { apply validate_None_iff in Ev. unfold invalidRequest in Ev.
    destruct (Z.ltb_spec 0 (SubmitOrderRequest.Quantity req)); [done|].
    exfalso. apply Ev. right. right. right. by left. }
  unfold submitValidated.
  destruct (matcher_ok_allocOrder (orderOfRequest orderID now req) m Hok Hq)
    as (Hok1 & Hl & El & Eb & Hnb).
  destruct (allocOrder (orderOfRequest orderID now req) m) as [l m1].
  simpl in Hok1, Hl, El, Eb, Hnb.
  set (sym := SubmitOrderRequest.Symbol req).
  assert (Esym : Order.Symbol (Matcher.Heap m1 !!! l) = sym) by (by rewrite El).
  pose proof (book_ok_bookOf sym m1 Hok1) as (Hs & _ & _).
  pose proof Hok1 as [Ht _].
  assert (HF : Order.FilledQuantity (Matcher.Heap m1 !!! l) = 0)
    by (by rewrite El).
  pose proof (MatchOrder_walk l m1) as H. cbv zeta in H. rewrite Esym in H.
  destruct (H (book_sorted_keys_distinct _ Hs) (Hnb _) Ht HF)
    as (res & h' & ob' & E & Hres).
  clear H. rewrite E. simpl. rewrite Eb in *.
  assert (Hub : OrderBook.Orders (bookOf sym m1) !! orderID = None).
  { unfold bookOf. rewrite Eb.
    destruct (Matcher.OrderBooks m !! sym) as [ob|] eqn:Eo; simpl; [|done].
    by apply (Hu sym). }
  set (m2 := Matcher.mk h' (<[sym := ob']> (Matcher.OrderBooks m))).
  assert (Hothers : ∀ k ob, k ≠ sym → Matcher.OrderBooks m2 !! k = Some ob →
                            GetOrder orderID ob = None).
  { intros k ob Hne. unfold m2. simpl. rewrite lookup_insert_ne by done.
    apply Hu. }
  assert (Hnone : OrderBook.Orders ob' !! orderID = None →
                  ∀ entries, entries ≡ₚ map_to_list (Matcher.OrderBooks m2) →
                             GetOrderStatus entries orderID m2 = StatusNotFound).
  { intros Hn entries He. apply GetOrderStatus_NotFound; [done|].
    intros k ob. destruct (decide (k = sym)) as [->|Hne].
    - unfold m2. simpl. rewrite lookup_insert_eq. by intros [= <-].
    - by apply Hothers. }
  destruct res as [result|req' avail].
  - destruct Hres as (s & _ & HI & -> & EF & ER & _ & Hcase).
    pose proof HI as [Hh Hf Hrem Hn Hb Hsh Htr].
    assert (Hw : OrderBook.Orders (w_book s) !! orderID = None).
    { destruct Hsh as [Hsub _].
      destruct (OrderBook.Orders (w_book s) !! orderID) eqn:Ew; [|done].
      eapply lookup_weaken in Ew; [|exact Hsub]. congruence. }
    eexists _, _. split; [done|]. fold m2. intros entries He.
    unfold submitReply.
    destruct (isLimit (Matcher.Heap m1 !!! l)).
    + destruct Hcase as [[ES ->]|[ES ->]].
      * rewrite ES. simpl. by apply Hnone.
      * destruct (headerOf_fields _ _ (Hh l)) as (EID & _ & _ & _ & EQ).
        rewrite El in EID, EQ, Hrem. simpl in EID, EQ, Hrem.
        assert (Hfound : GetOrderStatus entries orderID m2
                         = StatusOK (w_heap s !!! l)).
        { apply (GetOrderStatus_found entries orderID m2 sym
                   (AddOrder l (w_heap s) (w_book s)) l He).
          - unfold m2. simpl. apply lookup_insert_eq.
          - destruct (AddOrder_spec l (w_heap s) (w_book s)) as (E1 & _).
            simpl in E1. unfold GetOrder. rewrite E1, EID.
            apply lookup_insert_eq.
          - exact Hothers. }
        assert (Hlt : w_filled s < SubmitOrderRequest.Quantity req).
        { destruct ES as [[_ E0]|[_ E0]]; lia. }
        destruct ES as [[ES _]|[ES _]]; rewrite ES; simpl;
          (eexists; split; [exact Hfound|]); rewrite EF; done.
    + destruct Hcase as (ES & -> & _). rewrite ES. simpl. by apply Hnone.
  - destruct Hres as (_ & -> & -> & _).
    assert (GetOrCreateOrderBook sym m2 = (bookOf sym m1, m2)) as ->.
    { unfold GetOrCreateOrderBook, m2. simpl. by rewrite lookup_insert_eq. }
    eexists _, _. split; [done|]. by apply Hnone.
Qed.

Lemma ascendSnapshot_head h depth tree lvl T :
  0 < depth → tree = lvl :: T →
  ascendSnapshot h depth 0 [] tree
  = snapshotOf h lvl :: ascendSnapshot h depth 1 [] T.
Proof.
  intros Hd ->. rewrite !ascendSnapshot_take. simpl.
  replace (Z.to_nat (depth - 0)) with (S (Z.to_nat (depth - 1))) by lia.
  done.
Qed.

(** X22: with a positive depth for which the runtime allots the slices
    (2^44 at most, and within what the memory gives)
    [GetOrderBookSnapshot] returns, and the first level it lists on a side
    is the best price of that side: when [GetBestBid] ([GetBestAsk])
    returns ok, the first bid (ask) of the snapshot has that price and
    that quantity; when it does not, the side of the snapshot is empty or
    starts with a level of quantity 0 whose queue is empty. *)
Theorem snapshot_head_is_best maxCap depth h ob side :
  0 < depth → depth <= 2 ^ 44 → depth <= maxCap →
  ∃ bids asks,
    GetOrderBookSnapshot maxCap depth h ob = Some (bids, asks) ∧
    let levels := match side with SideBuy => bids | SideSell => asks end in
    let best := match side with
                | SideBuy => GetBestBid h ob
                | SideSell => GetBestAsk h ob
                end in
    (∀ p q, best = (p, q, true) →
            head levels = Some (OrderBookSnapshot.mk p q)) ∧
    (best.2 = false →
     levels = [] ∨
     ∃ p, head levels = Some (OrderBookSnapshot.mk p 0) ∧
          levelOrders side p ob = []).
Proof.
  intros Hd H44 Hcap. rewrite GetOrderBookSnapshot_Some by lia.
  eexists _, _. split; [done|].
  cbv zeta.
  assert (HT : ∀ T,
    (∀ p q, bestOf h T = (p, q, true) →
            head (ascendSnapshot h depth 0 [] T)
            = Some (OrderBookSnapshot.mk p q)) ∧
    ((bestOf h T).2 = false →
     ascendSnapshot h depth 0 [] T = [] ∨
     ∃ p, head (ascendSnapshot h depth 0 [] T)
          = Some (OrderBookSnapshot.mk p 0) ∧
          match tree_Get p T with
          | Some lvl => PriceLevel.Orders lvl
          | None => []
          end = [])).
  { intros T. split.
    - intros p q Hb. apply bestOf_true in Hb as (lvl & T' & -> & <- & _ & ->).
      by rewrite (ascendSnapshot_head h depth _ lvl T').
    - intros Hb. destruct T as [|lvl T']; [by left|]. right.
      exists (PriceLevel.Price lvl).
      rewrite (ascendSnapshot_head h depth _ lvl T') by done. simpl.
      rewrite Z.eqb_refl. unfold bestOf, tree_Len in Hb. simpl in Hb.
      destruct (PriceLevel.Orders lvl) as [|r q'] eqn:EQ; [|done].
      unfold snapshotOf. by rewrite EQ. }
  destruct side; unfold GetBestBid, GetBestAsk, levelOrders; simpl; apply HT.
Qed.


(** ** Price-time priority *)

Lemma treeQueue_cons p lvl T :
  treeQueue p (lvl :: T)
  = if PriceLevel.Price lvl =? p then PriceLevel.Orders lvl
    else treeQueue p T.
Proof. unfold treeQueue. simpl. by destruct (_ =? _). Qed.

Lemma treeQueue_not_key p T : p ∉ tree_keys T → treeQueue p T = [].
Proof.
  intros H. unfold treeQueue. by rewrite (proj2 (tree_Get_None_keys p T) H).
Qed.

Lemma treeResting_sublist T' T :
  NoDup (tree_keys T) →
  tree_keys T' `sublist_of` tree_keys T →
  (∀ p, treeQueue p T' `sublist_of` treeQueue p T) →
  treeResting T' `sublist_of` treeResting T.
Proof.
  revert T'. induction T as [|x T IH]; intros T' Hnd Hk Hq.
  { apply sublist_nil_r in Hk. apply fmap_nil_inv in Hk. by subst. }
  apply NoDup_cons in Hnd as [Hx Hnd].
  destruct T' as [|y T']; [apply sublist_nil_l|].
  change (tree_keys (x :: T)) with (PriceLevel.Price x :: tree_keys T) in Hk.
  apply sublist_cons_r in Hk as [Hk|(ks & Ek & Hk)].
  - change (treeResting (x :: T))
      with ((pair (PriceLevel.Price x) <$> PriceLevel.Orders x)
            ++ treeResting T).
    apply sublist_inserts_l. apply IH; [done|done|].
    intros p. specialize (Hq p). rewrite (treeQueue_cons p x T) in Hq.
    destruct (Z.eqb_spec (PriceLevel.Price x) p) as [Heq|Hne]; [|done].
    rewrite treeQueue_not_key; [apply sublist_nil_l|]. rewrite <- Heq.
    intros Hin. apply Hx. by eapply sublist_subseteq.
  - change (tree_keys (y :: T')) with (PriceLevel.Price y :: tree_keys T')
      in Ek.
    injection Ek as Ey <-.
    change (treeResting (x :: T))
      with ((pair (PriceLevel.Price x) <$> PriceLevel.Orders x)
            ++ treeResting T).
    change (treeResting (y :: T'))
      with ((pair (PriceLevel.Price y) <$> PriceLevel.Orders y)
            ++ treeResting T').
    apply sublist_app.
    + rewrite Ey. apply fmap_sublist. specialize (Hq (PriceLevel.Price x)).
      rewrite !treeQueue_cons, Ey, Z.eqb_refl in Hq. done.
    + apply IH; [done|done|]. intros p. specialize (Hq p).
      rewrite !treeQueue_cons, Ey in Hq.
      destruct (Z.eqb_spec (PriceLevel.Price x) p) as [Heq|Hne]; [|done].
      rewrite treeQueue_not_key; [apply sublist_nil_l|]. rewrite <- Heq.
      intros Hin. apply Hx. by eapply sublist_subseteq.
Qed.

Lemma restingOrders_shrinks side ob' ob :
  keys_distinct ob → shrinks ob' ob →
  restingOrders side ob' `sublist_of` restingOrders side ob.
Proof.
  intros Hk [_ Hs]. destruct (Hs side) as (H1 & _ & H3).
  by apply treeResting_sublist.
Qed.

Lemma bestAt_shrinks p T' T :
  NoDup (tree_keys T) → tree_keys T' `sublist_of` tree_keys T →
  bestAt p T → bestAt p T'.
Proof.
  intros Hnd Hk Hb lvl' Hg.
  assert (Hin' : p ∈ tree_keys T').
  { destruct (decide (p ∈ tree_keys T')) as [|Hn]; [done|].
    apply tree_Get_None_keys in Hn. congruence. }
  assert (Hin : p ∈ tree_keys T) by (by eapply sublist_subseteq).
  destruct (tree_Get p T) as [lvl|] eqn:Eg.
  2: { by apply tree_Get_None_keys in Eg. }
  specialize (Hb lvl Eg). destruct T as [|x T]; [done|].
  simpl in Hb. injection Hb as ->.
  apply tree_Get_Some in Eg as [Ep _].
  apply NoDup_cons in Hnd as [Hx _].
  change (tree_keys (lvl :: T)) with (PriceLevel.Price lvl :: tree_keys T)
    in Hk.
  destruct T' as [|y T']; [done|].
  apply sublist_cons_r in Hk as [Hk|(ks & Ek & Hk)].
  - exfalso. apply Hx. rewrite Ep. by eapply sublist_subseteq.
  - change (tree_keys (y :: T')) with (PriceLevel.Price y :: tree_keys T')
      in Ek.
    injection Ek as Ey <-. simpl in Hg. rewrite Ey, Ep, Z.eqb_refl in Hg.
    by injection Hg as <-.
Qed.

Lemma bestOf_bestAt h T p q : bestOf h T = (p, q, true) → bestAt p T.
Proof.
  intros H. apply bestOf_true in H as (lvl & T' & -> & <- & _).
  intros lvl'. simpl. rewrite Z.eqb_refl. by intros [= <-].
Qed.

Lemma bestAt_resting side p ob r q :
  bestAt p (treeOf side ob) → levelOrders side p ob = r :: q →
  ∃ X, restingOrders side ob = (p, r) :: X.
Proof.
  unfold levelOrders, restingOrders. intros Hb.
  destruct (tree_Get p (treeOf side ob)) as [lvl|] eqn:Eg; [|done].
  specialize (Hb lvl Eg). apply tree_Get_Some in Eg as [Ep _].
  destruct (treeOf side ob) as [|x T]; [done|]. simpl in Hb.
  injection Hb as ->. intros Eq. unfold treeResting. simpl.
  rewrite Eq, Ep. simpl. by eexists.
Qed.

Lemma pending_shrink R0 h rem R R' rs :
  R' `sublist_of` R → pending R0 h rem R rs → pending R0 h rem R' rs.
Proof.
  intros Hs [HA|(rs' & pr & X & -> & -> & HB & Hd)].
  - left. etrans; [|exact HA]. by apply sublist_app.
  - apply sublist_cons_r in Hs as [Hs|(X' & -> & Hs)].
    + left. etrans; [|exact HB]. rewrite <- (assoc_L (++)). simpl.
      apply sublist_app; [done|]. by constructor.
    + right. exists rs', pr, X'. repeat split; try done.
      etrans; [|exact HB]. apply sublist_app; [done|]. by constructor.
Qed.

Lemma pending_final R0 h rem R rs : pending R0 h rem R rs → rs `sublist_of` R0.
Proof.
  intros [HA|(rs' & pr & X & -> & -> & HB & _)].
  - etrans; [|exact HA]. by apply sublist_inserts_r.
  - etrans; [|exact HB]. apply sublist_app; [done|].
    constructor. apply sublist_nil_l.
Qed.

Section priority.
Variables (l : loc) (h0 : heap) (ob0 : OrderBook.t).
Hypothesis Hkeys : keys_distinct ob0.
Hypothesis Hfresh : ∀ side p, l ∉ levelOrders side p ob0.
Hypothesis Hint : ∀ l', int64 (Order.Quantity (h0 !!! l')).

Local Abbreviation Inv := (walk_inv l h0 ob0 false).
Local Abbreviation bestSide := (opposite (Order.Side (h0 !!! l))).
Local Abbreviation Prio := (priority l h0 ob0).

Lemma priority_shrink s s' :
  Inv s → Prio s →
  w_trades s' = w_trades s → w_heap s' = w_heap s →
  w_remainingQty s' = w_remainingQty s →
  shrinks (w_book s') (w_book s) → Prio s'.
Proof.
  intros HI (rs & HF & HP) Et Eh Er Hs. exists rs. rewrite Et, Eh, Er.
  split; [done|]. eapply pending_shrink; [|exact HP].
  apply restingOrders_shrinks; [|done]. by eapply walk_inv_keys.
Qed.

Lemma priority_trade s p r q e s' :
  Inv s → Prio s → bestAt p (treeOf bestSide (w_book s)) →
  levelOrders bestSide p (w_book s) = r :: q →
  0 < RemainingQuantity (w_heap s !!! r) →
  0 < e → e <= w_remainingQty s →
  (e < w_remainingQty s → e = RemainingQuantity (w_heap s !!! r)) →
  let h := w_heap s in
  let h1 := <[l := Fill e (h !!! l)]> h in
  let h2 := <[r := Fill e (h1 !!! r)]> h1 in
  w_heap s' = h2 →
  w_trades s' = w_trades s ++ [newTrade (h !!! l) (h !!! r) p e] →
  w_remainingQty s' = w_remainingQty s - e →
  shrinks (w_book s') (w_book s) → Prio s'.
Proof.
  intros HI (rs & HF & HP) Hb Eq Hrr He1 He2 He3 h h1 h2 Eh Et Er Hs.
  destruct (bestAt_resting _ _ _ _ _ Hb Eq) as [X EX].
  assert (Hr : r ∈ levelOrders bestSide p (w_book s)) by (rewrite Eq; left).
  destruct (walk_inv_trade l h0 ob0 false Hfresh Hint s r p e HI
              (crosses_false _ _) Hr He1 He2) as (_ & _ & _ & _ & Hfull).
  fold h h1 h2 in Hfull.
  exists (rs ++ [(p, r)]). rewrite Et, Eh, Er. split.
  - apply Forall2_app; [done|]. constructor; [|constructor].
    pose proof (walk_inv_side l h0 ob0 false s HI) as ES.
    destruct HI as [Hh _ _ _ _ _ _].
    destruct (headerOf_fields _ _ (Hh r)) as (E3 & _).
    unfold executes, restingID, newTrade, h. rewrite ES.
    destruct (Order.Side (h0 !!! l)); simpl; by rewrite E3.
  - eapply pending_shrink.
    { apply restingOrders_shrinks; [|exact Hs]. by eapply walk_inv_keys. }
    right. exists rs, (p, r), X. split; [done|]. split; [done|]. split.
    + destruct HP as [HA|(rs' & pr & X' & -> & EX' & HB & Hd)]; [done|].
      exfalso. rewrite EX in EX'. injection EX' as <- _. simpl in Hd.
      destruct Hd; lia.
    + simpl. destruct (decide (e < w_remainingQty s)) as [Hlt|Hge].
      * right. destruct (Hfull (He3 Hlt)) as [_ ->]. lia.
      * left. lia.
Qed.

Lemma limitLevelBody_priority p s c :
  Inv s → bestAt p (treeOf bestSide (w_book s)) → Prio s →
  limitLevelBody l bestSide p s = Some c → Prio (ctl_state c).
Proof.
  intros HI Hb HJ E.
  destruct (limitLevelBody_step l h0 ob0 false Hkeys Hfresh Hint p s HI
              (crosses_false _ _)) as (c' & E' & H).
  rewrite E in E'. injection E' as <-.
  assert (Hs : shrinks (w_book (ctl_state c)) (w_book s))
    by (destruct c; apply H).
  clear H. revert E Hs. unfold limitLevelBody.
  destruct (negb _); [by intros [= <-]|].
  destruct (levelOrders bestSide p (w_book s)) as [|r q] eqn:Eq;
    [by intros [= <-]|].
  destruct (Z.leb_spec (RemainingQuantity (w_heap s !!! r)) 0) as [Hrr|Hrr].
  { intros [= <-] Hs. by eapply priority_shrink. }
  set (e := if _ >? _ then _ else _).
  destruct (Z.leb_spec e 0) as [He1|He1]; [by intros [= <-]|].
  assert (He : e <= w_remainingQty s ∧
               (e < w_remainingQty s →
                e = RemainingQuantity (w_heap s !!! r))).
  { unfold e. destruct (Z.gtb_spec (w_remainingQty s)
                          (RemainingQuantity (w_heap s !!! r))); lia. }
  destruct He as [He2 He3].
  assert (Hr : r ∈ levelOrders bestSide p (w_book s)) by (rewrite Eq; left).
  destruct (walk_inv_trade l h0 ob0 false Hfresh Hint s r p e HI
              (crosses_false _ _) Hr He1 He2) as (_ & Er & _).
  pose proof (priority_trade s p r q e) as HT. cbv zeta in HT.
  destruct (_ || _).
  { intros [= <-] Hs. by apply (HT _ HI HJ Hb Eq Hrr He1 He2 He3). }
  destruct (_ =? _)%nat; intros [= <-] Hs;
    by apply (HT _ HI HJ Hb Eq Hrr He1 He2 He3).
Qed.

Lemma marketLevelBody_priority p s c :
  Inv s → bestAt p (treeOf bestSide (w_book s)) → Prio s →
  marketLevelBody l bestSide p s = Some c → Prio (ctl_state c).
Proof.
  intros HI Hb HJ E.
  destruct (marketLevelBody_step l h0 ob0 false Hkeys Hfresh Hint p s HI
              (crosses_false _ _)) as (c' & E' & H).
  rewrite E in E'. injection E' as <-.
  assert (Hs : shrinks (w_book (ctl_state c)) (w_book s))
    by (destruct c; apply H).
  clear H. revert E Hs. unfold marketLevelBody.
  destruct (Z.ltb_spec 0 (w_remainingQty s)) as [Hrem|Hrem]; simpl;
    [|by intros [= <-]].
  destruct (levelOrders bestSide p (w_book s)) as [|r q] eqn:Eq;
    [by intros [= <-]|].
  destruct (Z.leb_spec (RemainingQuantity (w_heap s !!! r)) 0) as [Hrr|Hrr].
  { intros [= <-] Hs. by eapply priority_shrink. }
  set (e := if _ >? _ then _ else _).
  assert (He : 0 < e ∧ e <= w_remainingQty s ∧
               (e < w_remainingQty s →
                e = RemainingQuantity (w_heap s !!! r))).
  { unfold e. destruct (Z.gtb_spec (w_remainingQty s)
                          (RemainingQuantity (w_heap s !!! r))); lia. }
  destruct He as (He1 & He2 & He3).
  assert (Hr : r ∈ levelOrders bestSide p (w_book s)) by (rewrite Eq; left).
  destruct (walk_inv_trade l h0 ob0 false Hfresh Hint s r p e HI
              (crosses_false _ _) Hr He1 He2) as (_ & _ & Er & _).
  pose proof (priority_trade s p r q e) as HT. cbv zeta in HT.
  destruct (_ <=? 0).
  { intros [= <-] Hs. by apply (HT _ HI HJ Hb Eq Hrr He1 He2 He3). }
  destruct (_ =? _)%nat; intros [= <-] Hs;
    by apply (HT _ HI HJ Hb Eq Hrr He1 He2 He3).
Qed.

Local Abbreviation Level :=
  (λ s0 s, Inv s ∧ shrinks (w_book s) (w_book s0) ∧ Prio s).

Lemma limitLevel_priority p s0 s c :
  bestAt p (treeOf bestSide (w_book s0)) → Inv s0 →
  Level s0 s → limitLevelBody l bestSide p s = Some c →
  Level s0 (ctl_state c).
Proof.
  intros Hb HI0 (HI & Hs & HJ) E.
  destruct (limitLevelBody_step l h0 ob0 false Hkeys Hfresh Hint p s HI
              (crosses_false _ _)) as (c' & E' & H).
  rewrite E in E'. injection E' as <-.
  assert (H' : Inv (ctl_state c) ∧ shrinks (w_book (ctl_state c)) (w_book s))
    by (destruct c; split; apply H).
  destruct H' as [HI' Hs']. split; [done|]. split; [by eapply shrinks_trans|].
  apply (limitLevelBody_priority p s c HI); [|done|done].
  destruct Hs as [_ Hs]. destruct (Hs bestSide) as (Hk & _).
  eapply bestAt_shrinks; [|exact Hk|exact Hb].
  by apply (walk_inv_keys l h0 ob0 false Hkeys s0).
Qed.

Lemma marketLevel_priority p s0 s c :
  bestAt p (treeOf bestSide (w_book s0)) → Inv s0 →
  Level s0 s → marketLevelBody l bestSide p s = Some c →
  Level s0 (ctl_state c).
Proof.
  intros Hb HI0 (HI & Hs & HJ) E.
  destruct (marketLevelBody_step l h0 ob0 false Hkeys Hfresh Hint p s HI
              (crosses_false _ _)) as (c' & E' & H).
  rewrite E in E'. injection E' as <-.
  assert (H' : Inv (ctl_state c) ∧ shrinks (w_book (ctl_state c)) (w_book s))
    by (destruct c; split; apply H).
  destruct H' as [HI' Hs']. split; [done|]. split; [by eapply shrinks_trans|].
  apply (marketLevelBody_priority p s c HI); [|done|done].
  destruct Hs as [_ Hs]. destruct (Hs bestSide) as (Hk & _).
  eapply bestAt_shrinks; [|exact Hk|exact Hb].
  by apply (walk_inv_keys l h0 ob0 false Hkeys s0).
Qed.

Lemma limitBody_priority s c :
  Inv s → Prio s → limitBody l s = Some c → Prio (ctl_state c).
Proof.
  intros HI HJ. unfold limitBody.
  destruct (negb _); [by intros [= <-]|].
  rewrite (walk_inv_side l h0 ob0 false s HI).
  destruct (Order.Side (h0 !!! l)) eqn:ES.
  - destruct (GetBestAsk _ _) as [[askPrice ?] hasAsk] eqn:EB.
    destruct hasAsk; simpl; [|by intros [= <-]].
    destruct (_ <? _); [by intros [= <-]|].
    destruct (GetPriceLevelForAsk _ _) as [lvl|]; [|by intros [= <-]].
    destruct (loop _ _ s) as [s'|] eqn:El; simpl; [|done].
    assert (Level s s') as (_ & _ & HJ').
    { eapply (loop_preserves _ (Level s)); [|exact El|].
      - intros s1 c1. pose proof (limitLevel_priority askPrice s s1 c1) as H.
        rewrite ES in H. apply H; [|done].
        by apply bestOf_bestAt in EB.
      - split; [done|]. split; [apply shrinks_refl|done]. }
    destruct (_ <=? _); by intros [= <-].
  - destruct (GetBestBid _ _) as [[bidPrice ?] hasBid] eqn:EB.
    destruct hasBid; simpl; [|by intros [= <-]].
    destruct (_ >? _); [by intros [= <-]|].
    destruct (GetPriceLevelForBid _ _) as [lvl|]; [|by intros [= <-]].
    destruct (loop _ _ s) as [s'|] eqn:El; simpl; [|done].
    assert (Level s s') as (_ & _ & HJ').
    { eapply (loop_preserves _ (Level s)); [|exact El|].
      - intros s1 c1. pose proof (limitLevel_priority bidPrice s s1 c1) as H.
        rewrite ES in H. apply H; [|done].
        by apply bestOf_bestAt in EB.
      - split; [done|]. split; [apply shrinks_refl|done]. }
    destruct (_ <=? _); by intros [= <-].
Qed.

Lemma marketBody_priority s c :
  Inv s → Prio s → marketBody l s = Some c → Prio (ctl_state c).
Proof.
  intros HI HJ. unfold marketBody.
  destruct (negb _); [by intros [= <-]|].
  rewrite (walk_inv_side l h0 ob0 false s HI).
  destruct (Order.Side (h0 !!! l)) eqn:ES.
  - destruct (GetBestAsk _ _) as [[askPrice ?] hasAsk] eqn:EB.
    destruct hasAsk; simpl; [|by intros [= <-]].
    destruct (GetPriceLevelForAsk _ _) as [lvl|]; [|by intros [= <-]].
    destruct (loop _ _ s) as [s'|] eqn:El; simpl; [|done].
    assert (Level s s') as (_ & _ & HJ').
    { eapply (loop_preserves _ (Level s)); [|exact El|].
      - intros s1 c1. pose proof (marketLevel_priority askPrice s s1 c1) as H.
        rewrite ES in H. apply H; [|done].
        by apply bestOf_bestAt in EB.
      - split; [done|]. split; [apply shrinks_refl|done]. }
    by intros [= <-].
  - destruct (GetBestBid _ _) as [[bidPrice ?] hasBid] eqn:EB.
    destruct hasBid; simpl; [|by intros [= <-]].
    destruct (GetPriceLevelForBid _ _) as [lvl|]; [|by intros [= <-]].
    destruct (loop _ _ s) as [s'|] eqn:El; simpl; [|done].
    assert (Level s s') as (_ & _ & HJ').
    { eapply (loop_preserves _ (Level s)); [|exact El|].
      - intros s1 c1. pose proof (marketLevel_priority bidPrice s s1 c1) as H.
        rewrite ES in H. apply H; [|done].
        by apply bestOf_bestAt in EB.
      - split; [done|]. split; [apply shrinks_refl|done]. }
    by intros [= <-].
Qed.

Lemma walk_priority limit s :
  Order.FilledQuantity (h0 !!! l) = 0 →
  loop (treeFuel (oppositeTree (Order.Side (h0 !!! l)) ob0))
    (bodyOf limit l) (Walk h0 ob0 [] 0 (Order.Quantity (h0 !!! l))) = Some s →
  Prio s.
Proof.
  intros HF El.
  assert (Inv s ∧ Prio s) as [_ HJ]; [|done].
  eapply (loop_preserves _ (λ s, Inv s ∧ Prio s)); [|exact El|].
  - intros s1 c1 [HI HJ]. destruct limit; simpl; intros E.
    + split; [|by eapply limitBody_priority].
      destruct (limitBody_step l h0 ob0 false Hkeys Hfresh Hint s1 HI)
        as (c' & E' & H).
      rewrite E in E'. injection E' as <-. destruct c1; apply H.
    + split; [|by eapply marketBody_priority].
      destruct (marketBody_step l h0 ob0 false Hkeys Hfresh Hint s1 HI eq_refl)
        as (c' & E' & H).
      rewrite E in E'. injection E' as <-. destruct c1; apply H.
  - split; [by apply walk_inv_start|]. exists []. split; [constructor|].
    left. done.
Qed.

End priority.

Lemma treeResting_keys T p : p ∈ (treeResting T).*1 → p ∈ tree_keys T.
Proof.
  induction T as [|x T IH]; [done|].
  change (treeResting (x :: T))
    with ((pair (PriceLevel.Price x) <$> PriceLevel.Orders x)
          ++ treeResting T).
  rewrite fmap_app, elem_of_app. intros [H|H].
  - rewrite <- list_fmap_compose in H.
    apply list_elem_of_fmap in H as (r & -> & _). left.
  - right. by apply IH.
Qed.

Lemma treeResting_sorted side T :
  tree_sorted (lessOf side) T →
  StronglySorted (λ a b, a = b ∨ keyLess side a b) (treeResting T).*1.
Proof.
  intros H. apply tree_sorted_keys in H. unfold tree_keys in H.
  induction T as [|x T IH]; [constructor|].
  change (treeResting (x :: T))
    with ((pair (PriceLevel.Price x) <$> PriceLevel.Orders x)
          ++ treeResting T).
  simpl in H. apply StronglySorted_cons in H as [H1 H2].
  specialize (IH H2). rewrite fmap_app.
  assert (Hall : Forall (λ b, keyLess side (PriceLevel.Price x) b)
                   (treeResting T).*1).
  { rewrite Forall_forall in H1 |- *. intros b Hb.
    by apply H1, treeResting_keys. }
  induction (PriceLevel.Orders x) as [|r q IHq]; simpl; [done|].
  apply StronglySorted_cons. split; [|done].
  apply Forall_app. split.
  - apply Forall_forall. intros b Hb. left.
    rewrite <- list_fmap_compose in Hb.
    apply list_elem_of_fmap in Hb as (r' & -> & _). done.
  - eapply Forall_impl; [exact Hall|]. by right.
Qed.

(** X23: [MatchOrder] on an order that is new to its book executes in
    price-time order.  Every trade is priced at the level of a resting
    order of the opposite side and names its id, and these resting
    orders, one for each trade and in the order of the trades, are a
    sublist of the resting orders of that side as the book held them at
    the start, best price first and each queue from its head: a resting
    order is never executed before one that was ahead of it, and the
    prices of the trades never get better from one trade to the next. *)
Theorem MatchOrder_price_time_priority l m :
  let order := Matcher.Heap m !!! l in
  let ob := bookOf (Order.Symbol order) m in
  let side := opposite (Order.Side order) in
  book_sorted ob → ¬ in_book l ob → heap_typed (Matcher.Heap m) →
  Order.FilledQuantity order = 0 →
  ∃ res m',
    MatchOrder l m = Some (res, m') ∧
    ∀ result, res = Matched result →
      (∃ rs,
         Forall2 (executes order (Matcher.Heap m))
           (MatchResult.Trades result) rs ∧
         rs `sublist_of` restingOrders side ob) ∧
      StronglySorted (λ a b, a = b ∨ keyLess side a b)
        (Trade.Price <$> MatchResult.Trades result).
Proof.
  intros order ob side Hsorted Hnb Ht HF.
  pose proof (book_sorted_keys_distinct ob Hsorted) as Hk.
  destruct (MatchOrder_walk l m Hk Hnb Ht HF) as (res & h' & ob' & E & H).
  fold order ob in E, H. eexists _, _. split; [exact E|]. simpl.
  intros result ->. destruct H as (s & El & HI & _ & _ & _ & -> & _).
  assert (Hfresh : ∀ side p, l ∉ levelOrders side p ob)
    by (intros; by apply not_in_book_queued).
  assert (Hint : ∀ l', int64 (Order.Quantity (Matcher.Heap m !!! l')))
    by (intros; by apply heap_typed_int64).
  destruct (walk_priority l (Matcher.Heap m) ob Hk Hfresh Hint _ s HF El)
    as (rs & HF2 & HP).
  apply pending_final in HP. fold order side in HF2, HP.
  split; [by exists rs|].
  assert (Trade.Price <$> w_trades s = rs.*1) as ->.
  { clear HP. induction HF2 as [|t pr ts rs' [Hp _] _ IH]; [done|].
    rewrite !fmap_cons. by rewrite Hp, IH. }
  eapply StronglySorted_sublist; [by apply fmap_sublist|].
  apply treeResting_sorted, Hsorted.
Qed.


(** ** Resting limit orders *)

Lemma loop_breaks {S : Type} (body : S → option (ctl S)) (I P : S → Prop) :
  (∀ s c, I s → body s = Some c → I (ctl_state c)) →
  (∀ s s', I s → body s = Some (Break s') → P s') →
  ∀ fuel s s', loop fuel body s = Some s' → I s → P s'.
Proof.
  intros Hbody Hbreak fuel.
  induction fuel as [|fuel IH]; intros s s'; simpl; [done|].
  destruct (body s) as [[s1|s1]|] eqn:E; [| |done].
  - intros El Hs. apply (IH s1 s' El). apply (Hbody s _ Hs E).
  - intros [= <-] Hs. by apply (Hbreak s).
Qed.

Lemma bestOf_Get h T p q :
  bestOf h T = (p, q, true) → is_Some (tree_Get p T).
Proof.
  intros H. apply bestOf_true in H as (lvl & T' & -> & <- & _).
  simpl. rewrite Z.eqb_refl. by eexists.
Qed.

Section uncrossed.
Variables (l : loc) (h0 : heap) (ob0 : OrderBook.t).
Hypothesis Hkeys : keys_distinct ob0.
Hypothesis Hfresh : ∀ side p, l ∉ levelOrders side p ob0.
Hypothesis Hint : ∀ l', int64 (Order.Quantity (h0 !!! l')).

Local Abbreviation Inv := (walk_inv l h0 ob0 false).
Local Abbreviation order := (h0 !!! l).

Lemma limitBody_break s s' :
  Inv s → limitBody l s = Some (Break s') →
  w_remainingQty s' <= 0 ∨
  uncrossed (Order.Side order) (Order.Price order) (w_heap s') (w_book s').
Proof.
  intros HI. unfold limitBody.
  destruct (Z.ltb_spec 0 (w_remainingQty s)) as [Hrem|Hrem]; simpl.
  2: { intros [= <-]. by left. }
  rewrite (walk_inv_side l h0 ob0 false s HI).
  assert (EP : Order.Price (w_heap s !!! l) = Order.Price order).
  { destruct HI as [Hh _ _ _ _ _ _].
    by destruct (headerOf_fields _ _ (Hh l)) as (_ & _ & _ & ? & _). }
  rewrite EP. unfold uncrossed.
  destruct (Order.Side order) eqn:ES.
  - destruct (GetBestAsk _ _) as [[askPrice ?] hasAsk] eqn:EB.
    destruct hasAsk; simpl.
    2: { intros [= <-]. right. intros p q. by rewrite EB. }
    destruct (Z.ltb_spec (Order.Price order) askPrice).
    { intros [= <-]. right. intros p q. rewrite EB. by intros [= <- _]. }
    destruct (GetPriceLevelForAsk _ _) as [lvl|] eqn:EG.
    2: { apply bestOf_Get in EB as [? EB].
         unfold GetPriceLevelForAsk in EG. congruence. }
    destruct (loop _ _ s) as [s1|]; simpl; [|done].
    destruct (Z.leb_spec (w_remainingQty s1) 0); [|done].
    intros [= <-]. by left.
  - destruct (GetBestBid _ _) as [[bidPrice ?] hasBid] eqn:EB.
    destruct hasBid; simpl.
    2: { intros [= <-]. right. intros p q. by rewrite EB. }
    destruct (Z.gtb_spec (Order.Price order) bidPrice).
    { intros [= <-]. right. intros p q. rewrite EB. intros [= <- _]. lia. }
    destruct (GetPriceLevelForBid _ _) as [lvl|] eqn:EG.
    2: { apply bestOf_Get in EB as [? EB].
         unfold GetPriceLevelForBid in EG. congruence. }
    destruct (loop _ _ s) as [s1|]; simpl; [|done].
    destruct (Z.leb_spec (w_remainingQty s1) 0); [|done].
    intros [= <-]. by left.
Qed.

Lemma limit_walk_uncrossed s :
  Order.FilledQuantity order = 0 →
  loop (treeFuel (oppositeTree (Order.Side order) ob0))
    (limitBody l) (Walk h0 ob0 [] 0 (Order.Quantity order)) = Some s →
  w_remainingQty s <= 0 ∨
  uncrossed (Order.Side order) (Order.Price order) (w_heap s) (w_book s).
Proof.
  intros HF El.
  eapply (loop_breaks _ Inv
            (λ s, w_remainingQty s <= 0 ∨
                  uncrossed (Order.Side order) (Order.Price order)
                    (w_heap s) (w_book s)));
    [| |exact El|by apply walk_inv_start].
  - intros s1 c1 HI E.
    destruct (limitBody_step l h0 ob0 false Hkeys Hfresh Hint s1 HI)
      as (c' & E' & H).
    rewrite E in E'. injection E' as <-. destruct c1; apply H.
  - intros s1 s' HI. by apply limitBody_break.
Qed.

End uncrossed.

Lemma uncrossed_AddOrder side price l h ob :
  Order.Side (h !!! l) = side →
  uncrossed side price h ob → uncrossed side price h (AddOrder l h ob).
Proof.
  intros ES. destruct (AddOrder_spec l h ob) as (_ & _ & _ & Hother).
  simpl in Hother. rewrite ES in Hother. unfold uncrossed.
  destruct side.
  - specialize (Hother SideSell ltac:(done)). simpl in Hother.
    unfold GetBestAsk. by rewrite Hother.
  - specialize (Hother SideBuy ltac:(done)). simpl in Hother.
    unfold GetBestBid. by rewrite Hother.
Qed.

(** X24: a limit order is always matched, and when [MatchOrder] leaves it
    with a positive remaining quantity it does not cross the opposite side
    as the book reports it afterwards: for a buy [GetBestAsk] returns no
    ask or a price above the price of the order, for a sell [GetBestBid]
    returns no bid or a price below it. *)
Theorem resting_limit_order_does_not_cross l m :
  let order := Matcher.Heap m !!! l in
  let ob := bookOf (Order.Symbol order) m in
  keys_distinct ob → ¬ in_book l ob → heap_typed (Matcher.Heap m) →
  Order.FilledQuantity order = 0 → Order.Type_ order ≠ TypeMarket →
  ∃ result m',
    MatchOrder l m = Some (Matched result, m') ∧
    (0 < MatchResult.RemainingQuantity result →
     uncrossed (Order.Side order) (Order.Price order) (Matcher.Heap m')
       (bookOf (Order.Symbol order) m')).
Proof.
  intros order ob Hk Hnb Ht HF Hlim.
  destruct (MatchOrder_walk l m Hk Hnb Ht HF) as (res & h' & ob' & E & H).
  fold order ob in E, H.
  assert (EL : isLimit order = true) by (by apply bool_decide_eq_true).
  destruct res as [result|req avail]; [|by destruct H as [? _]].
  eexists _, _. split; [exact E|]. rewrite bookOf_insert. simpl.
  destruct H as (s & El & HI & -> & _ & -> & _ & Hcase).
  rewrite EL in El, Hcase. simpl in El.
  assert (Hfresh : ∀ side p, l ∉ levelOrders side p ob)
    by (intros; by apply not_in_book_queued).
  assert (Hint : ∀ l', int64 (Order.Quantity (Matcher.Heap m !!! l')))
    by (intros; by apply heap_typed_int64).
  intros Hrem.
  destruct (limit_walk_uncrossed l (Matcher.Heap m) ob Hk Hfresh Hint s HF El)
    as [?|Hu]; [lia|].
  destruct Hcase as [[_ ->]|[_ ->]]; [done|].
  apply uncrossed_AddOrder; [|done].
  by apply (walk_inv_side l (Matcher.Heap m) ob (isLimit order) s).
Qed.

(** ** Instances of the further properties *)

Lemma AddOrder_keeps_sorted_witness :
  book_sorted snap_book.
Proof.
  apply (AddOrder_keeps_sorted 2%nat snap_heap). compute_done.
Defined.

Lemma RemoveOrder_only_removes_witness :
  GetOrder "a1" (RemoveOrder "a1" snap_heap snap_book).2 = None ∧
  book_sorted (RemoveOrder "a1" snap_heap snap_book).2.
Proof.
  destruct (RemoveOrder_only_removes "a1" snap_heap snap_book)
    as (H1 & _ & _ & _ & H5 & _); [compute_done|].
  split; [exact H1|exact H5].
Defined.

Lemma RemoveOrder_AddOrder_witness :
  RemoveOrder (Order.ID (limit_heap !!! 1%nat)) limit_heap
    (AddOrder 1%nat limit_heap limit_book)
  = (true, limit_book).
Proof.
  apply (RemoveOrder_AddOrder 1%nat limit_heap limit_book).
  - compute_done.
  - compute_done.
  - intros lvl H. vm_compute in H. discriminate.
Defined.

Lemma best_price_is_extreme_witness :
  levelOrders SideSell 15050 snap_book ≠ [] ∧
  300 = totalQuantity snap_heap (levelOrders SideSell 15050 snap_book) ∧
  Forall (λ lvl, 15050 <= PriceLevel.Price lvl) (OrderBook.Asks snap_book).
Proof.
  destruct (best_price_is_extreme snap_heap snap_book 15050 300) as [_ H];
    [compute_done|].
  destruct H as (H1 & H2 & H3); [compute_done|].
  split; [exact H1|]. split; [exact H2|]. apply Forall_forall. exact H3.
Defined.

Lemma empty_best_level_hides_the_rest_witness :
  matchLimitOrder 4%nat stale_heap stale_book
  = Some (Matched (MatchResult.mk StatusAccepted 0
                     (Order.Quantity (stale_heap !!! 4%nat)) []),
          stale_heap, AddOrder 4%nat stale_heap stale_book) ∧
  Order.Price (stale_heap !!! 4%nat) = 102 ∧
  levelOrders SideSell 101 stale_book = [1%nat] ∧
  RemainingQuantity (stale_heap !!! 1%nat) = 5.
Proof.
  destruct (empty_best_level_hides_the_rest 4%nat stale_heap stale_book
              (PriceLevel.mk 100 []) [PriceLevel.mk 101 [1%nat]])
    as [H _]; [compute_done|done|].
  split; [exact H|]. split; [compute_done|]. split; compute_done.
Defined.

Lemma limit_matcher_book :
  bookOf (Order.Symbol (limit_heap !!! 1%nat)) limit_matcher = limit_book.
Proof. compute_done. Qed.

Lemma market_matcher_book :
  bookOf (Order.Symbol (market_heap !!! 1%nat)) market_matcher = market_book.
Proof. compute_done. Qed.

Lemma MatchOrder_keeps_sorted_witness :
  ∃ res m',
    MatchOrder 1%nat limit_matcher = Some (res, m') ∧
    book_sorted (bookOf (Order.Symbol (limit_heap !!! 1%nat)) m') ∧
    ∀ symbol, symbol ≠ Order.Symbol (limit_heap !!! 1%nat) →
              Matcher.OrderBooks m' !! symbol
              = Matcher.OrderBooks limit_matcher !! symbol.
Proof.
  pose proof (MatchOrder_keeps_sorted 1%nat limit_matcher) as H.
  cbv zeta in H. change (Matcher.Heap limit_matcher) with limit_heap in H.
  rewrite limit_matcher_book in H. apply H; compute_done.
Defined.

Lemma MatchOrder_keeps_headers_witness :
  ∃ res m',
    MatchOrder 1%nat limit_matcher = Some (res, m') ∧
    ∀ l', headerOf (Matcher.Heap m' !!! l') = headerOf (limit_heap !!! l').
Proof.
  pose proof (MatchOrder_keeps_headers 1%nat limit_matcher) as H.
  cbv zeta in H. change (Matcher.Heap limit_matcher) with limit_heap in H.
  rewrite limit_matcher_book in H. apply H.
  - intros []; compute_done.
  - compute_done.
  - compute_done.
  - compute_done.
Defined.

Lemma MatchOrder_trades_add_up_witness :
  ∃ res m',
    MatchOrder 1%nat limit_matcher = Some (res, m') ∧
    ∀ result, res = Matched result →
      Forall (λ t, 0 < Trade.Quantity t) (MatchResult.Trades result) ∧
      tradedQuantity (MatchResult.Trades result)
      = MatchResult.FilledQuantity result ∧
      Order.FilledQuantity (Matcher.Heap m' !!! 1%nat)
      = MatchResult.FilledQuantity result ∧
      MatchResult.FilledQuantity result + MatchResult.RemainingQuantity result
      = Order.Quantity (limit_heap !!! 1%nat).
Proof.
  pose proof (MatchOrder_trades_add_up 1%nat limit_matcher) as H.
  cbv zeta in H. change (Matcher.Heap limit_matcher) with limit_heap in H.
  rewrite limit_matcher_book in H. apply H.
  - intros []; compute_done.
  - compute_done.
  - compute_done.
  - compute_done.
Defined.

Lemma market_order_never_rests_witness :
  ∃ res m',
    MatchOrder 1%nat market_matcher = Some (res, m') ∧
    ¬ in_book 1%nat (bookOf (Order.Symbol (market_heap !!! 1%nat)) m').
Proof.
  pose proof (market_order_never_rests 1%nat market_matcher) as H.
  cbv zeta in H. change (Matcher.Heap market_matcher) with market_heap in H.
  rewrite market_matcher_book in H.
  destruct H as (res & m' & E & H & _).
  - compute_done.
  - intros []; compute_done.
  - compute_done.
  - compute_done.
  - compute_done.
  - by exists res, m'.
Defined.

Lemma Fill_remaining_witness :
  RemainingQuantity
    (Fill 4 (NewOrder "a" "AAPL" SideSell TypeLimit 100 10 0))
  = RemainingQuantity (NewOrder "a" "AAPL" SideSell TypeLimit 100 10 0) - 4 ∧
  GetStatus (Fill 4 (NewOrder "a" "AAPL" SideSell TypeLimit 100 10 0))
  = StatusPartialFill.
Proof.
  destruct (Fill_remaining 4 (NewOrder "a" "AAPL" SideSell TypeLimit 100 10 0))
    as (H1 & _ & _); [compute_done..|].
  split; [exact H1|reflexivity].
Defined.

Lemma run_partial_fill_reachable : reachable (matcherOf run_partial_fill).
Proof.
  unfold run_partial_fill. apply reachable_andThenSubmit; [|compute_done].
  change (SubmitOrder "s" 0 (request "AAPL" "SELL" "LIMIT" 15050 300)
            NewMatcher)
    with (andThenSubmit "s" 0 (request "AAPL" "SELL" "LIMIT" 15050 300)
            (Some (SubmitBadRequest EmptyString, NewMatcher))).
  apply reachable_andThenSubmit; [constructor|compute_done].
Qed.

Lemma SubmitOrder_keeps_ok_witness :
  ∃ reply m',
    SubmitOrder "x" 2 (request "AAPL" "SELL" "MARKET" 0 100)
      (matcherOf run_partial_fill) = Some (reply, m') ∧
    matcher_ok m'.
Proof.
  apply (SubmitOrder_keeps_ok "x" 2 (request "AAPL" "SELL" "MARKET" 0 100)
           (matcherOf run_partial_fill)).
  - apply reachable_matcher_ok, run_partial_fill_reachable.
  - compute_done.
Defined.

Lemma CancelOrder_keeps_ok_witness :
  matcher_ok
    (CancelOrder (map_to_list (Matcher.OrderBooks (matcherOf run_partial_fill)))
       "b" (matcherOf run_partial_fill)).2.
Proof.
  apply (CancelOrder_keeps_ok
           (map_to_list (Matcher.OrderBooks (matcherOf run_partial_fill)))
           "b" (matcherOf run_partial_fill)).
  - apply reachable_matcher_ok, run_partial_fill_reachable.
  - intros k ob. apply elem_of_map_to_list.
Defined.

Lemma reachable_ok_witness :
  matcher_ok (matcherOf run_partial_fill) ∧
  ∃ reply m',
    SubmitOrder "x" 2 (request "AAPL" "SELL" "MARKET" 0 100)
      (matcherOf run_partial_fill) = Some (reply, m') ∧
    reachable m'.
Proof.
  destruct (reachable_ok (matcherOf run_partial_fill)
              run_partial_fill_reachable) as [H1 H2].
  split; [exact H1|]. apply H2. compute_done.
Defined.

Lemma recordLatency_window_witness :
  ∃ latencies',
    recordLatency 4 (NewOrderHandler_maxLatencies (Some 3)) [1; 2; 3]
    = Some latencies' ∧
    latencies' `suffix_of` [1; 2; 3] ++ [4] ∧
    last latencies' = Some 4 ∧
    Z.of_nat (length latencies') = 3.
Proof.
  apply (recordLatency_window (Some 3) 4 [1; 2; 3]). compute_done.
Defined.

Lemma SubmitOrder_insufficient_liquidity_witness :
  let req := request "AAPL" "SELL" "MARKET" 0 500 in
  let m := matcherOf run_partial_fill in
  let order := orderOfRequest "x" 2 req in
  let h := <[fresh (dom (Matcher.Heap m)) := order]> (Matcher.Heap m) in
  let ob := bookOf (SubmitOrderRequest.Symbol req) m in
  let tree := oppositeTree (Order.Side order) ob in
  SubmitOrder "x" 2 req m
  = Some (SubmitInsufficientLiquidity (bestOf h tree).1.2
            (SubmitOrderRequest.Quantity req),
          Matcher.mk h
            (<[SubmitOrderRequest.Symbol req := ob]> (Matcher.OrderBooks m))).
Proof.
  apply (SubmitOrder_insufficient_liquidity "x" 2
           (request "AAPL" "SELL" "MARKET" 0 500)
           (matcherOf run_partial_fill)).
  - reflexivity.
  - reflexivity.
  - compute_done.
Defined.

Lemma Allow_touches_own_keys_witness :
  ∃ allowed rl',
    Allow wholeSeconds "a" 100 limiter_shared = Some (allowed, rl') ∧
    allowed = true ∧
    RateLimiter.counters limiter_shared !! "a_b_17"%string = Some 1 ∧
    RateLimiter.counters rl' !! "a_b_17"%string = None.
Proof.
  destruct (Allow_touches_own_keys wholeSeconds "a" 100 limiter_shared)
    as (key & allowed & rl' & Ek & EA & _ & _ & _ & _ & Hnew & _);
    [compute_done|].
  assert (key = "a_100"%string) as ->.
  { vm_compute in Ek. by injection Ek as <-. }
  destruct Hnew as (-> & _ & Hp); [compute_done|].
  exists true, rl'. split; [exact EA|]. split; [reflexivity|].
  split; [compute_done|]. apply Hp; compute_done.
Defined.

Lemma AllowAll_window_limit_witness :
  ∃ rl',
    AllowAll wholeSeconds "a" [100; 100; 100] limiter_two
    = Some ([true; true; false], rl').
Proof.
  apply (AllowAll_window_limit wholeSeconds "a" 100 [100; 100] limiter_two 100).
  - compute_done.
  - compute_done.
  - compute_done.
  - compute_done.
Defined.

Lemma GetOrderStatus_after_SubmitOrder_witness :
  ∃ reply m',
    SubmitOrder "x" 2 (request "AAPL" "SELL" "LIMIT" 15050 200)
      (matcherOf run_partial_fill) = Some (reply, m') ∧
    ∀ entries, entries ≡ₚ map_to_list (Matcher.OrderBooks m') →
      match reply with
      | SubmitCreated response | SubmitAccepted response =>
          ∃ o, GetOrderStatus entries "x" m' = StatusOK o ∧
               Order.ID o = "x"%string ∧
               Order.Quantity o
               = SubmitOrderRequest.Quantity
                   (request "AAPL" "SELL" "LIMIT" 15050 200) ∧
               Order.FilledQuantity o
               = SubmitOrderResponse.FilledQuantity response ∧
               SubmitOrderResponse.FilledQuantity response
               < SubmitOrderRequest.Quantity
                   (request "AAPL" "SELL" "LIMIT" 15050 200)
      | SubmitOK _ | SubmitInsufficientLiquidity _ _ | SubmitBadRequest _ =>
          GetOrderStatus entries "x" m' = StatusNotFound
      end.
Proof.
  apply (GetOrderStatus_after_SubmitOrder "x" 2
           (request "AAPL" "SELL" "LIMIT" 15050 200)
           (matcherOf run_partial_fill)).
  - apply reachable_matcher_ok, run_partial_fill_reachable.
  - compute_done.
  - assert (H : map_Forall (λ _ ob, GetOrder "x" ob = None)
                  (Matcher.OrderBooks (matcherOf run_partial_fill)))
      by compute_done.
    intros symbol ob E. apply (H symbol ob E).
Defined.

Lemma snapshot_head_is_best_witness :
  ∃ bids asks,
    GetOrderBookSnapshot 1000 1 snap_heap snap_book = Some (bids, asks) ∧
    head asks = Some (OrderBookSnapshot.mk 15050 300).
Proof.
  destruct (snapshot_head_is_best 1000 1 snap_heap snap_book SideSell)
    as (bids & asks & E & H & _); [lia..|].
  exists bids, asks. split; [exact E|]. apply H. compute_done.
Defined.

Lemma MatchOrder_price_time_priority_witness :
  ∃ res m',
    MatchOrder 1%nat limit_matcher = Some (res, m') ∧
    ∀ result, res = Matched result →
      (∃ rs,
         Forall2 (executes (limit_heap !!! 1%nat) limit_heap)
           (MatchResult.Trades result) rs ∧
         rs `sublist_of`
           restingOrders (opposite (Order.Side (limit_heap !!! 1%nat)))
             limit_book) ∧
      StronglySorted
        (λ a b, a = b ∨
                keyLess (opposite (Order.Side (limit_heap !!! 1%nat))) a b)
        (Trade.Price <$> MatchResult.Trades result).
Proof.
  pose proof (MatchOrder_price_time_priority 1%nat limit_matcher) as H.
  cbv zeta in H. change (Matcher.Heap limit_matcher) with limit_heap in H.
  rewrite limit_matcher_book in H. apply H; compute_done.
Defined.

Lemma resting_limit_order_does_not_cross_witness :
  ∃ result m',
    MatchOrder 1%nat limit_matcher = Some (Matched result, m') ∧
    (0 < MatchResult.RemainingQuantity result →
     uncrossed (Order.Side (limit_heap !!! 1%nat))
       (Order.Price (limit_heap !!! 1%nat)) (Matcher.Heap m')
       (bookOf (Order.Symbol (limit_heap !!! 1%nat)) m')).
Proof.
  pose proof (resting_limit_order_does_not_cross 1%nat limit_matcher) as H.
  cbv zeta in H. change (Matcher.Heap limit_matcher) with limit_heap in H.
  rewrite limit_matcher_book in H. apply H.
  - intros []; compute_done.
  - compute_done.
  - compute_done.
  - compute_done.
  - compute_done.
Defined.
